(** * Codebase Time Machine: dashboard analytics

    A shallow embedding of the analytics computed by the dashboard
    components (developer scorecards, daily timeline groups, monthly
    summaries, activity heatmap, graph and chat panels) together with the
    chat fallback and the activity levels of the analysis service, and
    the properties the specification states about them.

    Conventions of the embedding:
    - a JavaScript [number] that holds a count is a [Z]: counts are whole
      numbers below 2^53, on which the arithmetic of doubles is exact;
    - a [number] that holds a score is a double, represented by the
      rational it denotes; sums, differences, products and quotients of
      scores are rounded to the nearest double ([JS.fl]), comparisons are
      those of the rationals.  Where the quotient of two counts is only
      handed to [Math.round] (heatmap intensity, commits per month and
      per developer) it is taken exactly: the halves [Math.round] decides
      on are doubles themselves, and with counts below 2^50 no other
      quotient of counts is rounded onto one;
    - a [Date] is represented by the local calendar fields the code reads
      from it ([getFullYear], [getMonth], [getDate]);
    - [Array.prototype.sort] is the stable sort the language standard
      requires; an insertion-ordered [Map] is an association list, a [Map]
      that is only read by key is a [gmap]. *)

From Stdlib Require Import QArith Qminmax Qround Qpower Qabs Lqa.
From Stdlib Require Import Sorting.Permutation Sorting.Sorted.
From Stdlib Require PrimFloat FloatOps SpecFloat.
From stdpp Require Import base list strings gmap pretty.

Open Scope Z_scope.

(** ** JavaScript numeric helpers *)

Module JS.

(** [Math.min(a, b)] and [Math.max(a, b)] on scores. *)
Definition Math_min (a b : Q) : Q := Qmin a b.

(** [Math.max(n, 1)] on counts. *)
Definition Math_max (a b : Z) : Z := Z.max a b.

(** [Math.round(x)]: the integer nearest to [x], halves rounded up. *)
Definition Math_round (x : Q) : Z := Qfloor (x + (1 # 2))%Q.

(** *** Doubles

    A number is a double (IEEE 754 binary64), and a finite double is
    represented by the rational it denotes.  An arithmetic operation
    returns the exact result rounded to the nearest double, to the one
    with the even significand when two are nearest.  The significand has
    53 bits; the exponent is left unbounded, which is the rounding of the
    machine for magnitudes from 2^-1022 to 2^1023, where the scores and
    averages made of counts below 2^53 lie. *)

(** [ilog2 q] is the binary exponent of a positive [q]: the [e] with
    [2^e <= q < 2^(e+1)]. *)
Definition ilog2 (q : Q) : Z :=
  let k := Z.log2 (Qnum q) - Z.log2 (Z.pos (Qden q)) in
  if Qle_bool (2 ^ k) q then k else k - 1.

(** The integer nearest to [q], the even one of two. *)
Definition rne (q : Q) : Z :=
  let f := Qfloor q in
  match (q - inject_Z f ?= 1 # 2)%Q with
  | Lt => f
  | Gt => f + 1
  | Eq => if Z.even f then f else f + 1
  end.

(** The double nearest to a positive [q]: a multiple of the unit in the
    last of the 53 places of [q]. *)
Definition fl_pos (q : Q) : Q :=
  let ulp := (2 ^ (ilog2 q - 52))%Q in
  (inject_Z (rne (q / ulp)) * ulp)%Q.

(** The double nearest to [q], in lowest terms. *)
Definition fl (q : Q) : Q :=
  let q := Qred q in
  match Qnum q with
  | 0 => 0%Q
  | Z.pos _ => Qred (fl_pos q)
  | Z.neg _ => Qred (- fl_pos (- q))
  end.

(** [a + b], [a - b], [a * b] and [a / b] on doubles ([b] not zero). *)
Definition fadd (a b : Q) : Q := fl (a + b).
Definition fsub (a b : Q) : Q := fl (a - b).
Definition fmul (a b : Q) : Q := fl (a * b).
Definition fdiv (a b : Q) : Q := fl (a / b).

(** Truthiness of an optional string: defined and not empty. *)
Definition truthy (s : option string) : bool :=
  match s with
  | Some s => negb (String.eqb s "")
  | None => false
  end.

Section Sort.
Context {A : Type}.
(** The comparator returns a number; a negative result puts its first
    argument first, a positive one its second. *)
Variable cmp : A → A → Q.

Fixpoint insert_sorted (x : A) (l : list A) : list A :=
  match l with
  | [] => [x]
  | y :: l' =>
      if Qle_bool (cmp x y) 0 then x :: y :: l'
      else y :: insert_sorted x l'
  end.

(** [arr.sort(cmp)]: the language requires the sort to be stable, and for
    a consistent comparator the stable sorted arrangement is unique; it is
    computed here by inserting from the right, where an element never
    overtakes an earlier element it compares equal to. *)
Definition Array_sort (l : list A) : list A :=
  foldr insert_sorted [] l.
End Sort.

(** The elements of [l] whose numeric field [key] equals [q], in the
    order they have in [l]. *)
Definition ties {A : Type} (key : A → Q) (q : Q) (l : list A) : list A :=
  List.filter (λ a, Qeq_bool (key a) q) l.

End JS.

(** ** Developer scorecards ([DeveloperScorecard.tsx]) *)

Module Scorecard.
Import JS.

Record Developer := mkDeveloper {
  name : string;
  email : string;
  expertise_areas : list string;
  contribution_score : Q;
  total_commits : Z;
  lines_added : Z;
  lines_removed : Z
}.

(** [ScorecardData extends Developer]: the spread [...dev] is the field
    [dev].  The display labels [strengths] and [improvements], which are
    read off the four scores and take no part in the grade or the ranking,
    are left out. *)
Record ScorecardData := mkScorecard {
  dev : Developer;
  rank : nat;
  productivity_score : Q;
  impact_score : Q;
  consistency_score : Q;
  collaboration_score : Q;
  overall_grade : string
}.

Inductive SortBy :=
| by_contribution_score
| by_total_commits
| by_productivity
| by_impact.

Definition sumCommits (developers : list Developer) : Z :=
  foldl (λ sum d, sum + total_commits d) 0 developers.

Definition sumLinesChanged (developers : list Developer) : Z :=
  foldl (λ sum d, sum + lines_added d + lines_removed d) 0 developers.

Definition grade_of (average : Q) : string :=
  if Qle_bool 90 average then "A+"
  else if Qle_bool 80 average then "A"
  else if Qle_bool 70 average then "B+"
  else if Qle_bool 60 average then "B"
  else if Qle_bool 50 average then "C+"
  else if Qle_bool 40 average then "C"
  else "D".

(** [(p + i + c + k) / 4], added from the left. *)
Definition average_of (p i c k : Q) : Q :=
  fdiv (fadd (fadd (fadd p i) c) k) 4.

(** The body of [developers.map((dev, index) => ...)]. *)
Definition score (developers : list Developer) (index : nat)
    (d : Developer) : ScorecardData :=
  let totalCommits := sumCommits developers in
  let totalLinesChanged := sumLinesChanged developers in
  let n := inject_Z (Z.of_nat (length developers)) in
  let productivity_score :=
    Math_min 100
      (fmul
         (fmul
            (fdiv (inject_Z (total_commits d))
               (inject_Z (Math_max totalCommits 1)))
            100)
         n) in
  let impact_score :=
    Math_min 100
      (fmul
         (fmul
            (fdiv (inject_Z (lines_added d + lines_removed d))
               (inject_Z (Math_max totalLinesChanged 1)))
            100)
         n) in
  let consistency_score :=
    if 0 <? total_commits d
    then Math_min 100 (fmul (fdiv (inject_Z (total_commits d)) 30) 100)
    else 0%Q in
  let collaboration_score :=
    Math_min 100
      (fmul (inject_Z (Z.of_nat (length (expertise_areas d)))) 25) in
  let average :=
    average_of productivity_score impact_score consistency_score
      collaboration_score in
  {| dev := d;
     rank := index + 1;
     productivity_score := productivity_score;
     impact_score := impact_score;
     consistency_score := consistency_score;
     collaboration_score := collaboration_score;
     overall_grade := grade_of average |}.

(** The field a sort option names. *)
Definition sort_key (sortBy : SortBy) (s : ScorecardData) : Q :=
  match sortBy with
  | by_contribution_score => contribution_score (dev s)
  | by_total_commits => inject_Z (total_commits (dev s))
  | by_productivity => productivity_score s
  | by_impact => impact_score s
  end.

(** The comparator [(a, b) => b.field - a.field] of the [switch]. *)
Definition compare_desc (sortBy : SortBy) (a b : ScorecardData) : Q :=
  match sortBy with
  | by_contribution_score =>
      fsub (contribution_score (dev b)) (contribution_score (dev a))
  | by_total_commits =>
      fsub (inject_Z (total_commits (dev b)))
        (inject_Z (total_commits (dev a)))
  | by_productivity => fsub (productivity_score b) (productivity_score a)
  | by_impact => fsub (impact_score b) (impact_score a)
  end.

Definition set_rank (index : nat) (s : ScorecardData) : ScorecardData :=
  {| dev := dev s;
     rank := index + 1;
     productivity_score := productivity_score s;
     impact_score := impact_score s;
     consistency_score := consistency_score s;
     collaboration_score := collaboration_score s;
     overall_grade := overall_grade s |}.

Definition scored (developers : list Developer) : list ScorecardData :=
  imap (score developers) developers.

Definition scorecards (developers : list Developer) (sortBy : SortBy)
    : list ScorecardData :=
  imap set_rank (Array_sort (compare_desc sortBy) (scored developers)).

End Scorecard.

(** ** The scores in the doubles of the machine

    The body of the [map] once more, in the binary64 arithmetic of the
    primitive floating-point numbers, to compare the rounding [fl] with. *)

Module Binary64.
Import Scorecard.

Definition of_Z (z : Z) : PrimFloat.float :=
  FloatOps.SF2Prim (SpecFloat.binary_normalize 53 1024 z 0 false).

(** The rational a finite double denotes, in lowest terms. *)
Definition value (x : PrimFloat.float) : option Q :=
  match FloatOps.Prim2SF x with
  | SpecFloat.S754_zero _ => Some 0%Q
  | SpecFloat.S754_finite s m e =>
      Some (Qred ((if s then -1 else 1) * inject_Z (Z.pos m) * 2 ^ e))%Q
  | _ => None
  end.

(** [Math.min(100, x)]. *)
Definition min100 (x : PrimFloat.float) : PrimFloat.float :=
  if PrimFloat.ltb x (of_Z 100) then x else of_Z 100.

(** The four scores of a developer and their average. *)
Definition scores (developers : list Developer) (d : Developer)
    : list PrimFloat.float :=
  let totalCommits := sumCommits developers in
  let totalLinesChanged := sumLinesChanged developers in
  let n := of_Z (Z.of_nat (length developers)) in
  let productivity_score :=
    min100
      (PrimFloat.mul
         (PrimFloat.mul
            (PrimFloat.div (of_Z (total_commits d))
               (of_Z (Z.max totalCommits 1)))
            (of_Z 100))
         n) in
  let impact_score :=
    min100
      (PrimFloat.mul
         (PrimFloat.mul
            (PrimFloat.div (of_Z (lines_added d + lines_removed d))
               (of_Z (Z.max totalLinesChanged 1)))
            (of_Z 100))
         n) in
  let consistency_score :=
    if 0 <? total_commits d
    then min100
           (PrimFloat.mul
              (PrimFloat.div (of_Z (total_commits d)) (of_Z 30))
              (of_Z 100))
    else of_Z 0 in
  let collaboration_score :=
    min100
      (PrimFloat.mul (of_Z (Z.of_nat (length (expertise_areas d))))
         (of_Z 25)) in
  let average :=
    PrimFloat.div
      (PrimFloat.add
         (PrimFloat.add (PrimFloat.add productivity_score impact_score)
            consistency_score)
         collaboration_score)
      (of_Z 4) in
  [productivity_score; impact_score; consistency_score;
   collaboration_score; average].

(** The same five numbers as [score] has them. *)
Definition modelled (developers : list Developer) (d : Developer)
    : list Q :=
  let s := score developers 0 d in
  [productivity_score s; impact_score s; consistency_score s;
   collaboration_score s;
   average_of (productivity_score s) (impact_score s)
     (consistency_score s) (collaboration_score s)].

Definition same (x : option Q) (q : Q) : bool :=
  match x with
  | Some v => (Qnum v =? Qnum (Qred q)) && Pos.eqb (Qden v) (Qden (Qred q))
  | None => false
  end.

(** The model and the machine agree on a cohort. *)
Definition agree (developers : list Developer) : bool :=
  forallb
    (λ d, forallb (λ xq, same (value xq.1) xq.2)
            (zip (scores developers d) (modelled developers d)))
    developers.

(** The developers with up to [c] commits and [l] changed lines, and the
    cohorts of two of them. *)
Definition some_developers (c l : nat) : list Developer :=
  commits ← seqZ 0 (Z.of_nat c + 1);
  lines ← seqZ 0 (Z.of_nat l + 1);
  [mkDeveloper "d" "d@example.org"
     (replicate (Z.to_nat (commits `mod` 6)) "Area") 50 commits lines 0].

Definition some_cohorts (c l : nat) : list (list Developer) :=
  d1 ← some_developers c l;
  d2 ← some_developers c l;
  [[d1; d2]].

End Binary64.


(** ** Calendar dates as the components read them *)

Module Calendar.

(** The local calendar fields of a [Date]: [getFullYear()], [getMonth()]
    (0 for January) and [getDate()].  The time of day is carried along
    unchanged by every operation below and is read by none of them. *)
Record JSDate := mkDate { year : Z; month : Z; day : Z }.

#[global] Instance JSDate_eq_dec : EqDecision JSDate.
Proof. solve_decision. Defined.

Definition isLeap (y : Z) : bool :=
  (y mod 4 =? 0) && (negb (y mod 100 =? 0) || (y mod 400 =? 0)).

Definition daysInMonth (y m : Z) : Z :=
  if m =? 1 then (if isLeap y then 29 else 28)
  else if (m =? 3) || (m =? 5) || (m =? 8) || (m =? 10) then 30
  else 31.

Definition valid (d : JSDate) : Prop :=
  0 ≤ month d ≤ 11 ∧ 1 ≤ day d ≤ daysInMonth (year d) (month d).

(** [d.setMonth(m)]: the month is carried into the year, and a day of the
    month the target month does not have runs over into the following
    month (the language's [MakeDay]). *)
Definition setMonth (d : JSDate) (m : Z) : JSDate :=
  let y := year d + m / 12 in
  let mn := m mod 12 in
  let dim := daysInMonth y mn in
  if day d <=? dim then mkDate y mn (day d)
  else if mn =? 11 then mkDate (y + 1) 0 (day d - dim)
  else mkDate y (mn + 1) (day d - dim).

(** Day number of the first of January of year [y], counted from the
    epoch ([DayFromYear]). *)
Definition DayFromYear (y : Z) : Z :=
  365 * (y - 1970) + (y - 1969) / 4 - (y - 1901) / 100 + (y - 1601) / 400.

Fixpoint daysBefore (y : Z) (m : nat) : Z :=
  match m with
  | O => 0
  | S k => daysBefore y k + daysInMonth y (Z.of_nat k)
  end.

Definition MakeDay (d : JSDate) : Z :=
  DayFromYear (year d) + daysBefore (year d) (Z.to_nat (month d))
  + (day d - 1).

Definition msPerDay : Z := 86400000.

(** [new Date(d.toDateString()).getTime()]: midnight of the calendar day,
    in milliseconds (the zone offset, which shifts a day by less than a
    day, is left out). *)
Definition getTime (d : JSDate) : Z := MakeDay d * msPerDay.

(** Calendar order. *)
Definition date_lt (a b : JSDate) : Prop :=
  year a < year b
  ∨ (year a = year b ∧ month a < month b)
  ∨ (year a = year b ∧ month a = month b ∧ day a < day b).

(** [String(s).padStart(n, '0')]. *)
Fixpoint zeros (n : nat) : string :=
  match n with
  | O => ""
  | S k => "0" +:+ zeros k
  end.

Definition padStart (n : nat) (s : string) : string :=
  zeros (n - String.length s) +:+ s.

(** The bucket key [`${getFullYear()}-${String(getMonth() + 1).padStart(2, '0')}`]. *)
Definition monthField (m : Z) : string := padStart 2 (pretty (m + 1)).

Definition monthKey (d : JSDate) : string :=
  pretty (year d) +:+ "-" +:+ monthField (month d).

Definition shortMonth (m : Z) : string :=
  nth (Z.to_nat m)
    ["Jan"; "Feb"; "Mar"; "Apr"; "May"; "Jun";
     "Jul"; "Aug"; "Sep"; "Oct"; "Nov"; "Dec"] "".

(** [toLocaleDateString('en-US', { month: 'short', year: '2-digit' })]. *)
Definition monthLabel (d : JSDate) : string :=
  shortMonth (month d) +:+ " " +:+ padStart 2 (pretty (year d mod 100)).

(** Index of a calendar month on the line of all months. *)
Definition monthIndex (d : JSDate) : Z := 12 * year d + month d.

End Calendar.

(** ** Commits as the timeline components receive them *)

Module Commit.
Import Calendar.

(** [timestamp] holds [new Date(commit.timestamp)], the only way the
    components read the field. *)
Record CommitData := mkCommit {
  sha : string;
  message : string;
  author_name : option string;
  timestamp : JSDate;
  feature_summary : option string;
  business_impact : option string
}.

Definition inMonth (y m : Z) (c : CommitData) : bool :=
  bool_decide (year (timestamp c) = y ∧ month (timestamp c) = m).

End Commit.

(** ** Activity heatmap ([heatmapData] of the timeline view with view modes) *)

Module Heatmap.
Import JS Calendar Commit.

Record ActivityHeatmapData := mkHeat {
  month : string;
  commitCount : Z;
  intensity : Z
}.

(** One step of [commits.forEach]: [set(key, (get(key) || 0) + 1)]. *)
Definition countCommit (m : gmap string Z) (c : CommitData)
    : gmap string Z :=
  let key := monthKey (timestamp c) in
  <[key := default 0 (m !! key) + 1]> m.

Definition monthlyCommits (commits : list CommitData) : gmap string Z :=
  foldl countCommit ∅ commits.

(** [Math.max(...Array.from(monthlyCommits.values()), 1)]. *)
Definition maxCommits (m : gmap string Z) : Z :=
  foldr Z.max 1 ((map_to_list m).*2).

(** The [date] of each of the twelve iterations of the loop, [now] being
    the value of [new Date()]. *)
Definition windowDates (now : JSDate) : list JSDate :=
  let startDate := setMonth now (Calendar.month now - 11) in
  (λ i, setMonth startDate (Calendar.month startDate + i)) <$> seqZ 0 12.

(** The entry pushed by one iteration. *)
Definition entry (m : gmap string Z) (mx : Z) (date : JSDate)
    : ActivityHeatmapData :=
  let commitCount := default 0 (m !! monthKey date) in
  {| month := monthLabel date;
     commitCount := commitCount;
     intensity :=
       Math_round (inject_Z commitCount / inject_Z mx * 4)%Q |}.

Definition heatmapData (now : JSDate) (commits : list CommitData)
    : list ActivityHeatmapData :=
  let m := monthlyCommits commits in
  entry m (maxCommits m) <$> windowDates now.

Definition totalCount (h : list ActivityHeatmapData) : Z :=
  foldr (λ e sum, commitCount e + sum) 0 h.

(** The twelve consecutive calendar months that end at month index [last],
    oldest first, as (year, month) pairs. *)
Definition trailing12 (last : Z) : list (Z * Z) :=
  (λ i, ((last - 11 + i) / 12, (last - 11 + i) mod 12)) <$> seqZ 0 12.

(** Month index of the latest commit of the data, when there is one. *)
Definition latestMonthIndex (commits : list CommitData) : option Z :=
  match commits with
  | [] => None
  | c :: cs =>
      Some (foldr (λ c' acc, Z.max (monthIndex (timestamp c')) acc)
              (monthIndex (timestamp c)) cs)
  end.

Definition yearMonth (d : JSDate) : Z * Z := (year d, Calendar.month d).

(** Number of commits whose bucket key is [k]. *)
Definition countKey (k : string) (cs : list CommitData) : Z :=
  Z.of_nat (length (List.filter
    (λ c, bool_decide (monthKey (timestamp c) = k)) cs)).

(** Number of commits of the calendar month [m] of year [y]. *)
Definition countMonth (y m : Z) (cs : list CommitData) : Z :=
  Z.of_nat (length (List.filter (inMonth y m) cs)).

(** Number of commits whose calendar month is one of [months]. *)
Definition countWindow (months : list (Z * Z)) (cs : list CommitData)
    : Z :=
  Z.of_nat (length (List.filter
    (λ c, bool_decide (yearMonth (timestamp c) ∈ months)) cs)).

(** The heatmap is for the twelve months that end at the month of the
    latest commit. *)
Definition coversLatestCommit (now : JSDate) (commits : list CommitData)
    : Prop :=
  ∃ last, latestMonthIndex commits = Some last
          ∧ yearMonth <$> windowDates now = trailing12 last.

End Heatmap.


(** ** Daily timeline groups ([timelineGroups] of [TimelineView.tsx]) *)

Module Timeline.
Import JS Calendar Commit.

(** [date] holds the calendar day that [toDateString()] prints (weekday,
    month name, day and year: one string per calendar day). *)
Record TimelineGroup := mkGroup {
  date : JSDate;
  commits : list CommitData;
  uniqueAuthors : list string
}.

Definition toDateString (d : JSDate) : JSDate := d.

(** [Map<string, TimelineGroup>], in insertion order. *)
Definition GroupMap := list (JSDate * TimelineGroup).

Definition has (groups : GroupMap) (key : JSDate) : bool :=
  bool_decide (key ∈ groups.*1).

(** [groups.set(key, g)] for a key the map does not hold yet. *)
Definition set (groups : GroupMap) (key : JSDate) (g : TimelineGroup)
    : GroupMap :=
  groups ++ [(key, g)].

(** [uniqueAuthors.includes(a)]. *)
Definition includes (l : list string) (a : string) : bool :=
  bool_decide (a ∈ l).

(** The two pushes on the group object the map holds under [key]. *)
Definition pushCommit (commit : CommitData) (g : TimelineGroup)
    : TimelineGroup :=
  let commits' := commits g ++ [commit] in
  match author_name commit with
  | Some a =>
      if truthy (Some a) && negb (includes (uniqueAuthors g) a)
      then mkGroup (date g) commits' (uniqueAuthors g ++ [a])
      else mkGroup (date g) commits' (uniqueAuthors g)
  | None => mkGroup (date g) commits' (uniqueAuthors g)
  end.

Fixpoint update (groups : GroupMap) (key : JSDate)
    (f : TimelineGroup → TimelineGroup) : GroupMap :=
  match groups with
  | [] => []
  | (k, g) :: rest =>
      if decide (k = key) then (k, f g) :: rest
      else (k, g) :: update rest key f
  end.

(** One step of [filteredCommits.forEach]. *)
Definition addCommit (groups : GroupMap) (commit : CommitData)
    : GroupMap :=
  let date := toDateString (timestamp commit) in
  let groups' :=
    if has groups date then groups
    else set groups date (mkGroup date [] []) in
  update groups' date (pushCommit commit).

(** The comparator [(a, b) => new Date(b.date).getTime() - new Date(a.date).getTime()]. *)
Definition compare_newest (a b : TimelineGroup) : Q :=
  inject_Z (getTime (date b) - getTime (date a)).

Definition timelineGroups (filteredCommits : list CommitData)
    : list TimelineGroup :=
  Array_sort compare_newest (foldl addCommit [] filteredCommits).*2.

Definition onDay (d : JSDate) (c : CommitData) : bool :=
  bool_decide (toDateString (timestamp c) = d).

(** Total number of commits held by a list of groups. *)
Definition groupSizes (gs : list TimelineGroup) : nat :=
  sum_list_with (λ g, length (commits g)) gs.

(** The author list of a group names each non-empty author of the
    commits of the group, once. *)
Definition authors_ok (g : TimelineGroup) : Prop :=
  NoDup (uniqueAuthors g)
  ∧ ∀ a, a ∈ uniqueAuthors g
         ↔ a ≠ "" ∧ ∃ c, c ∈ commits g ∧ author_name c = Some a.

(** A map entry that holds, under a day, the commits of that day among
    [cs], in their order, with their authors. *)
Definition group_ok (cs : list CommitData) (kg : JSDate * TimelineGroup)
    : Prop :=
  date kg.2 = kg.1
  ∧ commits kg.2 = List.filter (onDay kg.1) cs
  ∧ authors_ok kg.2.

(** What the loop maintains: one entry per day met so far, holding the
    commits of that day. *)
Definition grouped (cs : list CommitData) (groups : GroupMap) : Prop :=
  NoDup groups.*1
  ∧ Forall (group_ok cs) groups
  ∧ (∀ c, c ∈ cs → toDateString (timestamp c) ∈ groups.*1)
  ∧ (∀ k, k ∈ groups.*1 → ∃ c, c ∈ cs ∧ toDateString (timestamp c) = k).

End Timeline.

(** ** Activity level of a heatmap month *)

Module Activity.

Inductive ActivityLevel := high | medium | low.

Definition level_name (l : ActivityLevel) : string :=
  match l with
  | high => "high"
  | medium => "medium"
  | low => "low"
  end.

(** Modelled from the spec: the derivation of [activity_level] is done by
    the analysis service, of which the dashboard only holds the type of
    the result and its rendering.  A month with no commit is [low]
    whatever the maximum; otherwise the count is compared with 75% and
    35% of the maximum count observed in the window. *)
Definition activity_level (count mx : Z) : ActivityLevel :=
  if count =? 0 then low
  else if Qle_bool ((75 # 100) * inject_Z mx) (inject_Z count) then high
  else if Qle_bool ((35 # 100) * inject_Z mx) (inject_Z count) then medium
  else low.

Definition window_max (counts : list Z) : Z := foldr Z.max 0 counts.

(** Modelled from the spec: the levels of the months of one window. *)
Definition window_levels (counts : list Z) : list (Z * ActivityLevel) :=
  (λ c, (c, activity_level c (window_max counts))) <$> counts.

(** [getActivityColor] of the summary view. *)
Definition getActivityColor (level : string) : string :=
  if String.eqb level "high" then "bg-green-600 border-green-700"
  else if String.eqb level "medium" then "bg-green-400 border-green-500"
  else if String.eqb level "low" then "bg-green-200 border-green-300"
  else "bg-gray-100 border-gray-200".

End Activity.

(** ** Chat: grounded answers and their display *)

Module Chat.

Inductive CompletionError := CompletionTimeout | CompletionFailed.

(** [complete(prompt, timeout) -> text | fails]. *)
Inductive Completion :=
| Text (t : string)
| Fails (e : CompletionError).

(** What the caller of [answerQuestion] gets. *)
Inductive ChatResult :=
| Answer (t : string)
| RawError (e : CompletionError).

Section Retriever.
(** The graph of a codebase, and the bounded context the retriever
    assembles from it for a question. *)
Variable Graph : Type.
Variable assembleContext : Graph → string → string.
Variable complete : string → Completion.
Variable prompt : string → string → list string → string.

(** Modelled from the spec: [answerQuestion] of the analysis service,
    which is not among the dashboard sources.  The assembled context is
    passed to the completion capability; when the call fails or gives
    empty content the context itself is the answer. *)
Definition answerQuestion (g : Graph) (question : string)
    (history : list string) : ChatResult :=
  let context := assembleContext g question in
  match complete (prompt context question history) with
  | Text t => if String.eqb t "" then Answer context else Answer t
  | Fails _ => Answer context
  end.
End Retriever.

(** The reply of the chat endpoint as [handleSendMessage] reads it:
    [response.ok], [response.statusText] and the [response] field of the
    body. *)
Record HttpResponse := mkResponse {
  ok : bool;
  statusText : string;
  response : option string
}.

Definition apology_empty : string :=
  "I apologize, but I couldn't generate a response. Please try asking your question differently.".

Definition apology_error : string :=
  "I apologize, but I encountered an error processing your request. Please try again or rephrase your question.".

(** The assistant message [handleSendMessage] appends and the error state
    it sets ([ChatInterface.tsx]). *)
Definition handleSendMessage (r : HttpResponse) : string * option string :=
  if ok r then
    (if JS.truthy (response r) then default "" (response r)
     else apology_empty, None)
  else (apology_error, Some ("Failed to get response: " +:+ statusText r)).

End Chat.

(** ** Sample inputs *)

Module Examples.
Import Scorecard Calendar Commit.

(** A cohort of ten in which [lead] wrote 90 of the 100 commits and 900
    of the 1000 changed lines. *)
Definition lead : Developer :=
  mkDeveloper "ann" "ann@example.org" ["Frontend"; "DevOps"] 80 90 600 300.
Definition peer (commits : Z) : Developer :=
  mkDeveloper "bob" "bob@example.org" [] 10 commits (6 * commits)
    (4 * commits).
Definition cohort10 : list Developer :=
  lead :: peer 2 :: replicate 8 (peer 1).
Definition lead_card : ScorecardData :=
  set_rank 0 (score cohort10 0 lead).

(** Two developers: [carol] with 2 of the 6 commits, 1 of the 3 changed
    lines and four expertise areas. *)
Definition carol : Developer :=
  mkDeveloper "carol" "carol@example.org"
    ["Frontend"; "DevOps"; "Data Layer"; "Testing"] 70 2 1 0.
Definition dave : Developer :=
  mkDeveloper "dave" "dave@example.org" [] 40 4 1 1.
Definition pair : list Developer := [carol; dave].
Definition carol_card : ScorecardData := set_rank 0 (score pair 0 carol).

(** Two developers: [ines] with 1 of the 3 commits, 9 of the 20 changed
    lines and no expertise area. *)
Definition ines : Developer :=
  mkDeveloper "ines" "ines@example.org" [] 50 1 9 0.
Definition duo : list Developer :=
  [ines; mkDeveloper "jo" "jo@example.org" [] 40 2 6 5].
Definition ines_card : ScorecardData := set_rank 0 (score duo 0 ines).

(** Four developers with one, one, no and seven commits, listed by
    falling contribution score. *)
Definition quartet : list Developer :=
  [ mkDeveloper "eve" "eve@example.org" [] 40 1 2 0;
    mkDeveloper "finn" "finn@example.org" [] 30 1 2 0;
    mkDeveloper "gus" "gus@example.org" [] 20 0 0 0;
    mkDeveloper "hana" "hana@example.org" [] 10 7 9 3 ].

(** Three developers with one, two and no commit. *)
Definition trio : list Developer :=
  [ mkDeveloper "abe" "abe@example.org" [] 10 1 5 0;
    mkDeveloper "bea" "bea@example.org" [] 10 2 5 0;
    mkDeveloper "cy" "cy@example.org" [] 10 0 5 0 ].

(** 3 November 2026 and 31 December 2025. *)
Definition third_of_november : JSDate := mkDate 2026 10 3.
Definition last_of_december : JSDate := mkDate 2025 11 31.

Definition commit_on (d : JSDate) : CommitData :=
  mkCommit "9fceb02" "Add parser" (Some "ann") d None None.
(** Commits of 10 March 2024 and of 15 March 2025. *)
Definition march_2024 : CommitData := commit_on (mkDate 2024 2 10).
Definition march_2025 : CommitData := commit_on (mkDate 2025 2 15).
Definition bob_on (d : JSDate) : CommitData :=
  mkCommit "1b7ae03" "Fix lexer" (Some "bob") d None None.

(** The monthly counts of a window. *)
Definition window_counts : list Z := [0; 3; 8; 10; 0; 4; 0; 0; 1; 0; 0; 7].

End Examples.

(** ** What the scorecard view derives from the ranking
    ([DeveloperScorecard.tsx]) *)

Module ScorecardView.
Import JS Scorecard.

(** The [scores] object of a developer as [Object.entries] lists it: its
    four keys, none of which reads as an integer, in the order they are
    written. *)
Definition scores (s : ScorecardData) : list (string * Q) :=
  [ ("productivity", productivity_score s);
    ("impact", impact_score s);
    ("consistency", consistency_score s);
    ("collaboration", collaboration_score s) ].

(** [Object.entries(scores).sort(([,a], [,b]) => b - a)]. *)
Definition sortedScores (s : ScorecardData) : list (string * Q) :=
  Array_sort (λ a b, fsub b.2 a.2) (scores s).

Definition strengthLabel (key : string) : string :=
  if String.eqb key "productivity" then "High Commit Frequency"
  else if String.eqb key "impact" then "High Code Impact"
  else if String.eqb key "consistency" then "Consistent Contributor"
  else if String.eqb key "collaboration" then "Multi-domain Expertise"
  else key.

Definition improvementLabel (key : string) : string :=
  if String.eqb key "productivity" then "Increase Commit Frequency"
  else if String.eqb key "impact" then "Expand Code Contributions"
  else if String.eqb key "consistency" then "More Consistent Activity"
  else if String.eqb key "collaboration" then "Diversify Expertise Areas"
  else key.

(** [arr.slice(0, n)] and [arr.slice(-n)]. *)
Definition slice_first {A} (n : nat) (l : list A) : list A := take n l.
Definition slice_last {A} (n : nat) (l : list A) : list A :=
  drop (length l - n) l.

(** [sortedScores.slice(0, 2).map(([key]) => ...)]. *)
Definition strengths (s : ScorecardData) : list string :=
  (λ e, strengthLabel e.1) <$> slice_first 2 (sortedScores s).

(** [sortedScores.slice(-2).map(([key]) => ...)]. *)
Definition improvements (s : ScorecardData) : list string :=
  (λ e, improvementLabel e.1) <$> slice_last 2 (sortedScores s).

(** [getGradeColor]. *)
Definition getGradeColor (grade : string) : string :=
  if String.eqb grade "A+" then "text-green-600 bg-green-100"
  else if String.eqb grade "A" then "text-green-600 bg-green-100"
  else if String.eqb grade "B+" then "text-blue-600 bg-blue-100"
  else if String.eqb grade "B" then "text-blue-600 bg-blue-100"
  else if String.eqb grade "C+" then "text-yellow-600 bg-yellow-100"
  else if String.eqb grade "C" then "text-yellow-600 bg-yellow-100"
  else "text-red-600 bg-red-100".

(** [ScoreBar]: the number it prints, [Math.round(score)], and the width of
    its bar in percent, [Math.min(score, 100)]. *)
Definition ScoreBar_label (score : Q) : Z := Math_round score.
Definition ScoreBar_width (score : Q) : Q := Math_min score 100.

(** [scorecards[0]?.name || 'N/A']. *)
Definition topPerformer (cards : list ScorecardData) : string :=
  match cards with
  | s :: _ => if truthy (Some (name (dev s))) then name (dev s) else "N/A"
  | [] => "N/A"
  end.

(** [Math.round(scorecards.reduce((sum, dev) => sum + dev.field, 0) /
    scorecards.length)], shown when there is a developer. *)
Definition teamAverage (field : ScorecardData → Q)
    (cards : list ScorecardData) : Z :=
  Math_round
    (fdiv (foldl (λ sum d, fadd sum (field d)) 0%Q cards)
       (inject_Z (Z.of_nat (length cards)))).

(** The counts the scores are computed from are counts. *)
Definition counts_ok (d : Developer) : Prop :=
  0 ≤ total_commits d ∧ 0 ≤ lines_added d ∧ 0 ≤ lines_removed d.

End ScorecardView.

(** ** An insertion-ordered [Map] and a [Set] built from a list *)

Module JSMap.
Section Map.
Context {K V : Type} `{EqDecision K}.

Definition has (m : list (K * V)) (k : K) : bool :=
  bool_decide (k ∈ m.*1).

Fixpoint get (m : list (K * V)) (k : K) : option V :=
  match m with
  | [] => None
  | (k', v) :: rest => if decide (k' = k) then Some v else get rest k
  end.

(** Changing the value held under [k], in place. *)
Fixpoint update (m : list (K * V)) (k : K) (f : V → V) : list (K * V) :=
  match m with
  | [] => []
  | (k', v) :: rest =>
      if decide (k' = k) then (k', f v) :: rest
      else (k', v) :: update rest k f
  end.

(** [m.set(k, v)]: a key the map holds keeps its place, a new key goes
    last. *)
Definition set (m : list (K * V)) (k : K) (v : V) : list (K * V) :=
  if has m k then update m k (λ _, v) else m ++ [(k, v)].

(** One step of a grouping loop: [if (!m.has(k)) m.set(k, fresh)] followed
    by a change of the value [m.get(k)] in place. *)
Definition upsert (m : list (K * V)) (k : K) (fresh : V) (f : V → V)
    : list (K * V) :=
  update (if has m k then m else set m k fresh) k f.
End Map.

(** [Array.from(new Set(l))]: the distinct elements of [l], each at the
    place of its first occurrence. *)
Definition firstSeen {A : Type} `{EqDecision A} (l : list A) : list A :=
  foldl (λ acc x, if bool_decide (x ∈ acc) then acc else acc ++ [x]) [] l.

End JSMap.

(** ** The other tabs of the timeline view with view modes
    ([filteredCommits], [uniqueAuthors], [monthlyData], the heatmap
    insights) *)

Module Filter.
Import JS Commit.

Inductive DateRange := all_time | last_7d | last_30d | last_90d.

Definition days (r : DateRange) : option Z :=
  match r with
  | all_time => None
  | last_7d => Some 7
  | last_30d => Some 30
  | last_90d => Some 90
  end.

Section Filtered.
(** [since n c] stands for [new Date(c.timestamp) >= cutoffDate] with the
    cutoff [n] days before the current instant: it compares instants, of
    which the embedding keeps the calendar day only. *)
Variable since : Z → CommitData → bool.

(** [filteredCommits]. *)
Definition filteredCommits (filterAuthor : string) (dateRange : DateRange)
    (commits : list CommitData) : list CommitData :=
  let filtered :=
    if negb (String.eqb filterAuthor "all")
    then List.filter
           (λ commit, bool_decide (author_name commit = Some filterAuthor))
           commits
    else commits in
  match days dateRange with
  | Some n => List.filter (since n) filtered
  | None => filtered
  end.
End Filtered.

(** The comparison [arr.sort()] makes without a comparator: by code units,
    which for the strings of the embedding is by character code. *)
Definition stringCompare (a b : string) : Q :=
  match String.compare a b with
  | Lt => (-1)%Q
  | Eq => 0%Q
  | Gt => 1%Q
  end.

(** [.filter(Boolean)] on optional strings. *)
Definition truthyNames (l : list (option string)) : list string :=
  omap (λ o, if truthy o then o else None) l.

(** [uniqueAuthors]: the options of the author filter,
    [Array.from(new Set(commits.map(c => c.author_name).filter(Boolean))).sort()]. *)
Definition uniqueAuthors (commits : list CommitData) : list string :=
  Array_sort stringCompare
    (JSMap.firstSeen (truthyNames (author_name <$> commits))).

(** [toggleMonthExpansion] (and [toggleGroupExpansion], which is the same
    code on the set of expanded days). *)
Definition toggleMonthExpansion (expandedMonths : gset string)
    (monthKey : string) : gset string :=
  if decide (monthKey ∈ expandedMonths)
  then expandedMonths ∖ {[monthKey]}
  else expandedMonths ∪ {[monthKey]}.

End Filter.

Module Monthly.
Import JS Commit.

Record MonthlyData := mkMonthly {
  month : string;
  year : Z;
  commits : list CommitData;
  totalCommits : Z;
  uniqueAuthors : list string;
  additions : Z;
  deletions : Z;
  businessImpacts : list string;
  mostActiveDay : string
}.

(** The map key [`${date.getFullYear()}-${date.getMonth()}`]. *)
Definition monthMapKey (d : Calendar.JSDate) : string :=
  pretty (Calendar.year d) +:+ "-" +:+ pretty (Calendar.month d).

Definition longMonth (m : Z) : string :=
  nth (Z.to_nat m)
    ["January"; "February"; "March"; "April"; "May"; "June"; "July";
     "August"; "September"; "October"; "November"; "December"] "".

(** [toLocaleDateString('en-US', { month: 'long', year: 'numeric' })], for
    the years of the common era. *)
Definition monthName (d : Calendar.JSDate) : string :=
  longMonth (Calendar.month d) +:+ " " +:+ pretty (Calendar.year d).

(** The day of the week, 0 for Sunday: the epoch was a Thursday. *)
Definition WeekDay (d : Calendar.JSDate) : Z := (Calendar.MakeDay d + 4) mod 7.

(** [toLocaleDateString('en-US', { weekday: 'long' })]. *)
Definition weekdayName (d : Calendar.JSDate) : string :=
  nth (Z.to_nat (WeekDay d))
    ["Sunday"; "Monday"; "Tuesday"; "Wednesday"; "Thursday"; "Friday";
     "Saturday"] "".

(** [if (x && !l.includes(x)) l.push(x)]. *)
Definition pushUnique (x : option string) (l : list string) : list string :=
  match x with
  | Some a =>
      if truthy (Some a) && negb (bool_decide (a ∈ l)) then l ++ [a] else l
  | None => l
  end.

(** The entry a month gets when its first commit is met. *)
Definition emptyMonth (date : Calendar.JSDate) : MonthlyData :=
  {| month := monthName date;
     year := Calendar.year date;
     commits := [];
     totalCommits := 0;
     uniqueAuthors := [];
     additions := 0;
     deletions := 0;
     businessImpacts := [];
     mostActiveDay := "" |}.

(** The changes one commit makes to the entry of its month. *)
Definition addToMonth (commit : CommitData) (md : MonthlyData)
    : MonthlyData :=
  {| month := month md;
     year := year md;
     commits := commits md ++ [commit];
     totalCommits := totalCommits md + 1;
     uniqueAuthors := pushUnique (author_name commit) (uniqueAuthors md);
     additions := additions md;
     deletions := deletions md;
     businessImpacts :=
       pushUnique (business_impact commit) (businessImpacts md);
     mostActiveDay := mostActiveDay md |}.

(** One step of the first [filteredCommits.forEach]. *)
Definition addCommit (monthlyMap : list (string * MonthlyData))
    (commit : CommitData) : list (string * MonthlyData) :=
  let date := timestamp commit in
  JSMap.upsert monthlyMap (monthMapKey date) (emptyMonth date)
    (addToMonth commit).

(** [dayCount.set(day, (dayCount.get(day) || 0) + 1)]. *)
Definition countDay (dayCount : list (string * Z)) (commit : CommitData)
    : list (string * Z) :=
  let day := weekdayName (timestamp commit) in
  JSMap.set dayCount day (default 0 (JSMap.get dayCount day) + 1).

(** One step of [dayCount.forEach] on the pair ([maxCount],
    [mostActiveDay]). *)
Definition pickDay (acc : Z * string) (e : string * Z) : Z * string :=
  if acc.1 <? e.2 then (e.2, e.1) else acc.

Definition mostActive (cs : list CommitData) : string :=
  (foldl pickDay (0, "None") (foldl countDay [] cs)).2.

Definition setMostActive (md : MonthlyData) : MonthlyData :=
  {| month := month md;
     year := year md;
     commits := commits md;
     totalCommits := totalCommits md;
     uniqueAuthors := uniqueAuthors md;
     additions := additions md;
     deletions := deletions md;
     businessImpacts := businessImpacts md;
     mostActiveDay := mostActive (commits md) |}.

Definition monthlyMap (filteredCommits : list CommitData)
    : list (string * MonthlyData) :=
  foldl addCommit [] filteredCommits.

(** [monthlyData]: the entries, most active day filled in, sorted by
    [(a, b) => b.year - a.year]. *)
Definition monthlyData (filteredCommits : list CommitData)
    : list MonthlyData :=
  Array_sort (λ a b, inject_Z (year b - year a))
    (setMostActive <$> (monthlyMap filteredCommits).*2).

(** Number of commits of a list that fall on the weekday of the name. *)
Definition onWeekday (day : string) (cs : list CommitData) : nat :=
  length (List.filter
            (λ c, bool_decide (weekdayName (timestamp c) = day)) cs).

End Monthly.

Module Insights.
Import JS Heatmap.

(** [heatmapData.reduce((max, curr) => curr.commitCount > max.commitCount ?
    curr : max, heatmapData[0])]. *)
Definition peakEntry (h : list ActivityHeatmapData)
    : option ActivityHeatmapData :=
  match h with
  | [] => None
  | first :: _ =>
      Some (foldl (λ max curr,
                     if commitCount max <? commitCount curr then curr
                     else max) first h)
  end.

(** [heatmapData.reduce((max, curr) => Math.max(max, curr.commitCount), 0)]. *)
Definition peakCount (h : list ActivityHeatmapData) : Z :=
  foldl (λ max curr, Z.max max (commitCount curr)) 0 h.

(** [heatmapData.reduce((sum, curr) => sum + curr.commitCount, 0)]. *)
Definition totalActivity (h : list ActivityHeatmapData) : Z :=
  foldl (λ sum curr, sum + commitCount curr) 0 h.

(** [heatmapData.filter(d => d.commitCount > 0).length]. *)
Definition activeMonths (h : list ActivityHeatmapData) : Z :=
  Z.of_nat (length (List.filter (λ d, 0 <? commitCount d) h)).

(** [Math.round(total / heatmapData.length)]. *)
Definition averagePerMonth (h : list ActivityHeatmapData) : Z :=
  Math_round
    (inject_Z (totalActivity h) / inject_Z (Z.of_nat (length h)))%Q.

End Insights.

(** ** What a grouping loop maintains *)

Module Grouping.
Section Grouped.
Context {K V C : Type} `{EqDecision K}.
Variable key : C → K.
(** [P k l v]: the value [v] held under [k] sums up the list [l]. *)
Variable P : K → list C → V → Prop.

Definition inGroup (k : K) (c : C) : bool := bool_decide (key c = k).

(** The keys are the keys of the items in the order they are first met,
    and the value of a key sums up the items of that key, in their order. *)
Definition grouped (cs : list C) (m : list (K * V)) : Prop :=
  m.*1 = JSMap.firstSeen (key <$> cs)
  ∧ Forall (λ kv, P kv.1 (List.filter (inGroup kv.1) cs) kv.2) m.
End Grouped.

(** The list [l] names each non-empty value of the optional field [f] of
    the items [cs], once. *)
Definition distinct_ok {C : Type} (f : C → option string) (cs : list C)
    (l : list string) : Prop :=
  NoDup l ∧ ∀ a, a ∈ l ↔ a ≠ "" ∧ ∃ c, c ∈ cs ∧ f c = Some a.

End Grouping.

Module MonthlyInv.
Import Commit Monthly Grouping.

(** The entry [v] held under the key [k] before the most active day is
    filled in: it sums up the commits [l] of one calendar month. *)
Definition month_ok (k : string) (l : list CommitData) (v : MonthlyData)
    : Prop :=
  commits v = l
  ∧ totalCommits v = Z.of_nat (length l)
  ∧ additions v = 0 ∧ deletions v = 0
  ∧ distinct_ok author_name l (uniqueAuthors v)
  ∧ distinct_ok business_impact l (businessImpacts v)
  ∧ ∃ d, 0 ≤ Calendar.month d ≤ 11 ∧ monthMapKey d = k
         ∧ year v = Calendar.year d ∧ month v = monthName d.

(** A day count [n] held under a weekday sums up the commits [l] of that
    weekday. *)
Definition day_ok (k : string) (l : list CommitData) (n : Z) : Prop :=
  n = Z.of_nat (length l).

(** Sum of the commit counts the month cards print. *)
Definition totalShown (out : list MonthlyData) : Z :=
  foldr (λ md sum, totalCommits md + sum) 0 out.

(** The calendar month (year, month) of a key, as its key. *)
Definition keyOf (ym : Z * Z) : string :=
  monthMapKey (Calendar.mkDate ym.1 ym.2 1).

End MonthlyInv.

(** ** The chat panel ([ChatInterface.tsx]) *)

Module ChatView.
Import Chat.

Inductive Role := user | assistant.

(** A message of the conversation; its [timestamp] is only printed. *)
Record Message := mkMessage {
  id : string;
  content : string;
  role : Role
}.

(** The state of the component. *)
Record ChatState := mkState {
  messages : list Message;
  inputValue : string;
  isLoading : bool;
  error : option string
}.

Definition welcome (codebaseId : string) : Message :=
  mkMessage "welcome"
    ("Hello! I'm your AI assistant for the " +:+ codebaseId
     +:+ " repository. I can help you understand the codebase, analyze commits, explain developer patterns, and answer questions about the project's evolution. What would you like to know?")
    assistant.

Definition initial (codebaseId : string) : ChatState :=
  mkState [welcome codebaseId] "" false None.

(** The characters [trim()] removes, among the code units below 256: tab,
    line feed, vertical tab, form feed, carriage return, space and
    no-break space. *)
Definition isWhiteSpace (c : Ascii.ascii) : bool :=
  bool_decide (Ascii.nat_of_ascii c ∈ [9; 10; 11; 12; 13; 32; 160]%nat).

(** [!s.trim()]: nothing is left of [s] once it is trimmed. *)
Fixpoint blank (s : string) : bool :=
  match s with
  | EmptyString => true
  | String c rest => isWhiteSpace c && blank rest
  end.

(** What the [await]ed part of [handleSendMessage] comes to: a reply, or
    an exception of [fetch] or of [response.json()] with the message it
    carries when it is an [Error]. *)
Inductive Outcome :=
| Replied (r : HttpResponse)
| Threw (message : option string).

(** [messages.slice(-5)] with the role and content of each message. *)
Definition conversation_history (messages : list Message)
    : list (Role * string) :=
  (λ msg, (role msg, content msg)) <$> ScorecardView.slice_last 5 messages.

(** The body of the request: the message and the conversation history. *)
Definition requestBody (st : ChatState) : string * list (Role * string) :=
  (inputValue st, conversation_history (messages st)).

(** The state changes made before the request is sent; [now] is
    [Date.now()]. *)
Definition beginSend (now : Z) (st : ChatState) : ChatState :=
  let userMessage := mkMessage (pretty now) (inputValue st) user in
  mkState (messages st ++ [userMessage]) "" true None.

(** The state changes made once the request is settled; [now] is
    [Date.now()] at that time. *)
Definition settle (now : Z) (o : Outcome) (st : ChatState) : ChatState :=
  let reply :=
    match o with
    | Replied r => handleSendMessage r
    | Threw message =>
        (apology_error, Some (default "Failed to send message" message))
    end in
  let assistantMessage := mkMessage (pretty (now + 1)) reply.1 assistant in
  mkState (messages st ++ [assistantMessage]) (inputValue st) false
    (match reply.2 with Some e => Some e | None => error st end).

(** The chat endpoint, as far as the panel sees it. *)
Definition Server : Type := string * list (Role * string) → Outcome.

(** One call of [handleSendMessage], from the click to the settled
    request: while the request is in flight the text area, the send button
    and the suggestions are disabled.  The request is built from the state
    the handler was created in. *)
Definition sendMessage (sent settled : Z) (server : Server)
    (st : ChatState) : ChatState :=
  if blank (inputValue st) || isLoading st then st
  else settle settled (server (requestBody st)) (beginSend sent st).

(** What the user does between two renderings: typing or picking a
    suggestion ([setInputValue]), or sending. *)
Inductive Action :=
| SetInput (text : string)
| Send (sent settled : Z) (server : Server).

Definition act (st : ChatState) (a : Action) : ChatState :=
  match a with
  | SetInput text => mkState (messages st) text (isLoading st) (error st)
  | Send sent settled server => sendMessage sent settled server st
  end.

Definition isSend (a : Action) : bool :=
  match a with Send _ _ _ => true | SetInput _ => false end.

(** The roles of a conversation of [n] exchanges. *)
Definition exchanges (n : nat) : list Role :=
  assistant :: concat (replicate n [user; assistant]).

End ChatView.

(** ** The graph panel ([GraphView.tsx]) *)

Module GraphView.
Import JS.

(** A node with the properties the filters read. *)
Record Node := mkNode {
  id : string;
  type : string;
  name : option string;
  message : option string
}.

Record Relationship := mkRel {
  source : string;
  target : string;
  rel_type : string
}.

Inductive FilterType := all | commit | developer.

Definition filter_name (f : FilterType) : string :=
  match f with
  | all => "all"
  | commit => "commit"
  | developer => "developer"
  end.

(** [toLowerCase()] on the code units below 256: the letters A to Z and
    the accented capitals, which stand 32 below their small letters. *)
Definition lower_unit (c : Ascii.ascii) : Ascii.ascii :=
  let n := Ascii.nat_of_ascii c in
  if ((65 <=? n) && (n <=? 90)
      || (192 <=? n) && (n <=? 222) && negb (n =? 215))%nat
  then Ascii.ascii_of_nat (n + 32) else c.

Fixpoint toLowerCase (s : string) : string :=
  match s with
  | EmptyString => EmptyString
  | String c s' => String (lower_unit c) (toLowerCase s')
  end.

(** [s.includes(t)]. *)
Fixpoint includes (s t : string) : bool :=
  String.prefix t s
  || match s with
     | EmptyString => false
     | String _ s' => includes s' t
     end.

(** The test of the search filter on a node. *)
Definition searchMatch (searchTerm : string) (node : Node) : bool :=
  let hit (s : string) := includes (toLowerCase s) (toLowerCase searchTerm) in
  hit (id node)
  || truthy (name node) && hit (default "" (name node))
  || truthy (message node) && hit (default "" (message node)).

(** [filteredNodeIds.has(rel.source) && filteredNodeIds.has(rel.target)]. *)
Definition joins (filteredNodes : list Node) (rel : Relationship) : bool :=
  bool_decide (source rel ∈ id <$> filteredNodes)
  && bool_decide (target rel ∈ id <$> filteredNodes).

(** The nodes and relationships left by the type filter and the search. *)
Definition filtered (filterType : FilterType) (searchTerm : string)
    (nodes : list Node) (relationships : list Relationship)
    : list Node * list Relationship :=
  let byType :=
    match filterType with
    | all => (nodes, relationships)
    | _ =>
        let filteredNodes :=
          List.filter
            (λ node, bool_decide (type node = filter_name filterType))
            nodes in
        (filteredNodes, List.filter (joins filteredNodes) relationships)
    end in
  if negb (String.eqb searchTerm "") then
    let filteredNodes := List.filter (searchMatch searchTerm) byType.1 in
    (filteredNodes, List.filter (joins filteredNodes) byType.2)
  else byType.

(** What is handed to the graph library, without the captions and the
    styles. *)
Record NvlNode := mkNvlNode {
  nvl_id : string;
  nvl_labels : list string
}.

Record NvlRelationship := mkNvlRel {
  rel_id : string;
  from : string;
  to : string;
  rel_labels : list string
}.

Definition nvlNode (node : Node) : NvlNode :=
  mkNvlNode (id node) [type node].

(** The relationship of the given index; its id is
    [`${rel.source}-${rel.target}-${index}`]. *)
Definition nvlRelationship (index : nat) (rel : Relationship)
    : NvlRelationship :=
  mkNvlRel (source rel +:+ "-" +:+ target rel +:+ "-" +:+ pretty index)
    (source rel) (target rel) [rel_type rel].

(** The string has no hyphen. *)
Fixpoint hyphenFree (s : string) : bool :=
  match s with
  | EmptyString => true
  | String c s' => negb (String.eqb (String c "") "-") && hyphenFree s'
  end.

Definition nvlData (filterType : FilterType) (searchTerm : string)
    (nodes : list Node) (relationships : list Relationship)
    : list NvlNode * list NvlRelationship :=
  let f := filtered filterType searchTerm nodes relationships in
  (nvlNode <$> f.1, imap nvlRelationship f.2).

End GraphView.

(** ** The overview panel ([DashboardOverview]) *)

Module Overview.
Import JS Scorecard.

(** [graphData.nodes.filter(node => node.type === 'commit')]. *)
Definition commits (nodes : list GraphView.Node) : list GraphView.Node :=
  List.filter (λ node, bool_decide (GraphView.type node = "commit")) nodes.

Definition totalLinesChanged (developers : list Developer) : Z :=
  foldl (λ sum dev, sum + lines_added dev + lines_removed dev) 0 developers.

(** [totalDevelopers > 0 ? Math.round(totalCommits / totalDevelopers) : 0]. *)
Definition avgCommitsPerDev (nodes : list GraphView.Node)
    (developers : list Developer) : Z :=
  let totalCommits := Z.of_nat (length (commits nodes)) in
  let totalDevelopers := Z.of_nat (length developers) in
  if 0 <? totalDevelopers
  then Math_round (inject_Z totalCommits / inject_Z totalDevelopers)
  else 0.

(** [[...developers].sort((a, b) => b.contribution_score -
    a.contribution_score).slice(0, 5)]. *)
Definition topDevelopers (developers : list Developer) : list Developer :=
  ScorecardView.slice_first 5
    (Array_sort (λ a b, fsub (contribution_score b) (contribution_score a))
       developers).

End Overview.

(** ** The dashboard page ([dashboard/[codebaseId]/page.tsx]) *)

Module Page.
Import JS.

(** The job id of the address and the flag the page keeps. *)
Record PageState := mkPage {
  jobId : option string;
  analysisComplete : bool
}.

(** [enabled] of the status query: [!!jobId && !analysisComplete]. *)
Definition statusEnabled (st : PageState) : bool :=
  truthy (jobId st) && negb (analysisComplete st).

(** [enabled] of the summary query: [analysisComplete || !jobId]. *)
Definition summaryEnabled (st : PageState) : bool :=
  analysisComplete st || negb (truthy (jobId st)).

(** The page shows the progress screen instead of the dashboard:
    [jobId && !analysisComplete]. *)
Definition showsProgress (st : PageState) : bool :=
  truthy (jobId st) && negb (analysisComplete st).

(** The effect run on a status reply, [None] for a reply without a
    status. *)
Definition onStatus (st : PageState) (status : option string) : PageState :=
  if bool_decide (status = Some "completed")
  then mkPage (jobId st) true
  else st.

Definition load (jobId : option string) : PageState := mkPage jobId false.

End Page.

(** * Properties *)

(** ** Doubles *)

Section DoubleFacts.
Import JS.
Open Scope Q_scope.

Lemma pow2_pos (z : Z) : 0 < 2 ^ z.
Proof. by apply Qpower_0_lt. Qed.

Lemma pow2_add (a b : Z) : 2 ^ (a + b) == 2 ^ a * 2 ^ b.
Proof. by apply Qpower_plus. Qed.

Lemma pow2_le (a b : Z) : (a ≤ b)%Z → 2 ^ a <= 2 ^ b.
Proof. intros H. by apply Qpower_le_compat_l. Qed.

Lemma pow2_lt_inv (a b : Z) : 2 ^ a < 2 ^ b → (a < b)%Z.
Proof.
  intros H. destruct (Z.lt_ge_cases a b) as [|Hge]; [done|].
  apply pow2_le in Hge. by apply Qle_not_lt in Hge.
Qed.

Lemma pow2_Z (z : Z) : (0 ≤ z)%Z → 2 ^ z == inject_Z (2 ^ z).
Proof. intros H. symmetry. by apply (Zpower_Qpower 2). Qed.

Lemma ilog2_spec (q : Q) :
  0 < q → 2 ^ ilog2 q <= q ∧ q < 2 ^ (ilog2 q + 1).
Proof.
  intros Hq. unfold ilog2.
  destruct q as [n d]. simpl Qnum. simpl Qden.
  assert (Hn : (0 < n)%Z).
  { unfold Qlt in Hq. simpl in Hq. lia. }
  set (a := Z.log2 n). set (b := Z.log2 (Z.pos d)).
  pose proof (Z.log2_spec n Hn) as [Ha1 Ha2]. fold a in Ha1, Ha2.
  pose proof (Z.log2_spec (Z.pos d) eq_refl) as [Hb1 Hb2].
  fold b in Hb1, Hb2.
  assert (Ha0 : (0 ≤ a)%Z) by apply Z.log2_nonneg.
  assert (Hb0 : (0 ≤ b)%Z) by apply Z.log2_nonneg.
  assert (Hlo : 2 ^ (a - b - 1) < n # d).
  { assert (E : 2 ^ (a - b - 1) == inject_Z (2 ^ a) / inject_Z (2 ^ (b + 1))).
    { replace (a - b - 1)%Z with (a - (b + 1))%Z by lia.
      rewrite Qpower_minus by done. by rewrite !pow2_Z by lia. }
    rewrite E. apply Qlt_shift_div_r.
    - rewrite <- pow2_Z by lia. apply pow2_pos.
    - unfold Qlt, Qmult, inject_Z. simpl. 
      rewrite Z.mul_1_r. rewrite Pos.mul_1_r.
      apply Z.le_lt_trans with (n * Z.pos d)%Z; [|nia]. nia. }
  assert (Hhi : n # d < 2 ^ (a - b + 1)).
  { assert (E : 2 ^ (a - b + 1) == inject_Z (2 ^ (a + 1)) / inject_Z (2 ^ b)).
    { replace (a - b + 1)%Z with (a + 1 - b)%Z by lia.
      rewrite Qpower_minus by done. by rewrite !pow2_Z by lia. }
    rewrite E. apply Qlt_shift_div_l.
    - rewrite <- pow2_Z by lia. apply pow2_pos.
    - unfold Qlt, Qmult, inject_Z. simpl.
      rewrite Z.mul_1_r. nia. }
  destruct (Qle_bool (2 ^ (a - b)) (n # d)) eqn:E.
  - apply Qle_bool_iff in E. by split.
  - replace (a - b - 1 + 1)%Z with (a - b)%Z by lia.
    split; [by apply Qlt_le_weak|].
    apply Qnot_le_lt. intros H. apply Qle_bool_iff in H. congruence.
Qed.


Lemma rne_cases (q : Q) :
  let f := Qfloor q in
  inject_Z f <= q ∧ q < inject_Z f + 1
  ∧ ((q - inject_Z f < 1 # 2 ∧ rne q = f)
     ∨ (1 # 2 < q - inject_Z f ∧ rne q = (f + 1)%Z)
     ∨ (q - inject_Z f == 1 # 2
        ∧ rne q = (if Z.even f then f else f + 1)%Z)).
Proof.
  intros f. pose proof (Qfloor_le q) as Hf. pose proof (Qlt_floor q) as Hc.
  fold f in Hf, Hc. rewrite inject_Z_plus in Hc.
  change (inject_Z 1) with 1 in Hc.
  split; [done|]. split; [done|]. unfold rne. fold f.
  destruct (Qcompare_spec (q - inject_Z f) (1 # 2)) as [E|E|E]; auto.
Qed.

Lemma rne_le (q : Q) (z : Z) : q <= inject_Z z → (rne q ≤ z)%Z.
Proof.
  intros H. destruct (rne_cases q) as (Hf & Hc & Hr).
  set (f := Qfloor q) in *.
  assert (Hfz : (f ≤ z)%Z).
  { rewrite <- (Qfloor_Z z). by apply Qfloor_resp_le. }
  destruct (Z.eq_dec f z) as [E|E].
  - rewrite E in *. destruct Hr as [[_ ->]|[[Hr _]|[Hr _]]]; [done|lra..].
  - destruct Hr as [[_ ->]|[[_ ->]|[_ ->]]];
      [|lia|destruct (Z.even f)]; lia.
Qed.

Lemma rne_ge (q : Q) (z : Z) : inject_Z z <= q → (z ≤ rne q)%Z.
Proof.
  intros H. destruct (rne_cases q) as (_ & _ & Hr).
  set (f := Qfloor q) in *.
  assert (Hfz : (z ≤ f)%Z).
  { rewrite <- (Qfloor_Z z). by apply Qfloor_resp_le. }
  destruct Hr as [[_ ->]|[[_ ->]|[_ ->]]];
    [|lia|destruct (Z.even f)]; lia.
Qed.

(** [rne q] is an integer nearest to [q], the even one of two. *)
Lemma rne_nearest (q : Q) :
  Qabs (q - inject_Z (rne q)) <= 1 # 2
  ∧ (Qabs (q - inject_Z (rne q)) == 1 # 2 → Z.even (rne q) = true).
Proof.
  destruct (rne_cases q) as (Hf & Hc & Hr). set (f := Qfloor q) in *.
  destruct Hr as [[Hr ->]|[[Hr ->]|[Hr ->]]].
  - rewrite Qabs_pos by lra. split; [lra|]. intros E. lra.
  - rewrite inject_Z_plus. change (inject_Z 1) with 1.
    rewrite Qabs_neg by lra. split; [lra|]. intros E. lra.
  - destruct (Z.even f) eqn:Ev.
    + rewrite Qabs_pos by lra. split; [lra|done].
    + rewrite inject_Z_plus. change (inject_Z 1) with 1.
      rewrite Qabs_neg by lra. split; [lra|]. intros _.
      by rewrite Z.even_add, Ev.
Qed.

(** *** Rounding of a positive number *)

Lemma fl_pos_bounds (q : Q) :
  0 < q → 2 ^ ilog2 q <= fl_pos q ∧ fl_pos q <= 2 ^ (ilog2 q + 1).
Proof.
  intros Hq. destruct (ilog2_spec q Hq) as [Hlo Hhi].
  unfold fl_pos. set (e := ilog2 q) in *. set (ulp := 2 ^ (e - 52)).
  assert (Hu : 0 < ulp) by apply pow2_pos.
  assert (E1 : 2 ^ e == inject_Z (2 ^ 52) * ulp).
  { unfold ulp. rewrite <- pow2_Z by done. rewrite <- pow2_add.
    by replace (52 + (e - 52))%Z with e by lia. }
  assert (E2 : 2 ^ (e + 1) == inject_Z (2 ^ 53) * ulp).
  { unfold ulp. rewrite <- pow2_Z by done. rewrite <- pow2_add.
    by replace (53 + (e - 52))%Z with (e + 1)%Z by lia. }
  rewrite E1, E2. split; apply Qmult_le_compat_r; try lra;
    rewrite <- Zle_Qle.
  - apply rne_ge. apply Qle_shift_div_l; [done|]. by rewrite <- E1.
  - apply rne_le. apply Qle_shift_div_r; [done|]. rewrite <- E2. lra.
Qed.

Lemma fl_pos_positive (q : Q) : 0 < q → 0 < fl_pos q.
Proof.
  intros Hq. destruct (fl_pos_bounds q Hq) as [H _].
  eapply Qlt_le_trans; [apply pow2_pos|exact H].
Qed.

(** [fl_pos] never crosses a whole number below 2^53. *)
Lemma fl_pos_le (q : Q) (m : Z) :
  0 < q → (m < 2 ^ 53)%Z → q <= inject_Z m → fl_pos q <= inject_Z m.
Proof.
  intros Hq Hm Hle. destruct (ilog2_spec q Hq) as [Hlo _].
  unfold fl_pos. set (e := ilog2 q) in *. set (ulp := 2 ^ (e - 52)).
  assert (Hu : 0 < ulp) by apply pow2_pos.
  assert (He : (e < 53)%Z).
  { apply pow2_lt_inv. rewrite (pow2_Z 53) by done.
    eapply Qle_lt_trans; [exact Hlo|]. eapply Qle_lt_trans; [exact Hle|].
    by rewrite <- Zlt_Qlt. }
  assert (Ei : inject_Z (2 ^ (52 - e)) * ulp == 1).
  { unfold ulp. rewrite <- pow2_Z by lia. rewrite <- pow2_add.
    by replace (52 - e + (e - 52))%Z with 0%Z by lia. }
  assert (Em : inject_Z m == inject_Z (m * 2 ^ (52 - e)) * ulp).
  { rewrite inject_Z_mult, <- Qmult_assoc, Ei. ring. }
  rewrite Em. apply Qmult_le_compat_r; [|lra]. rewrite <- Zle_Qle.
  apply rne_le. apply Qle_shift_div_r; [done|]. by rewrite <- Em.
Qed.

Lemma fl_pos_ge (q : Q) (m : Z) :
  0 < q → (0 < m < 2 ^ 53)%Z → inject_Z m <= q → inject_Z m <= fl_pos q.
Proof.
  intros Hq Hm Hle. destruct (ilog2_spec q Hq) as [Hlo Hhi].
  destruct (fl_pos_bounds q Hq) as [Hb _].
  unfold fl_pos in *. set (e := ilog2 q) in *. set (ulp := 2 ^ (e - 52)) in *.
  assert (Hu : 0 < ulp) by apply pow2_pos.
  destruct (Z.lt_ge_cases e 53) as [He|He].
  - assert (Ei : inject_Z (2 ^ (52 - e)) * ulp == 1).
    { unfold ulp. rewrite <- pow2_Z by lia. rewrite <- pow2_add.
      by replace (52 - e + (e - 52))%Z with 0%Z by lia. }
    assert (Em : inject_Z m == inject_Z (m * 2 ^ (52 - e)) * ulp).
    { rewrite inject_Z_mult, <- Qmult_assoc, Ei. ring. }
    rewrite Em. apply Qmult_le_compat_r; [|lra]. rewrite <- Zle_Qle.
    apply rne_ge. apply Qle_shift_div_l; [done|]. by rewrite <- Em.
  - eapply Qle_trans; [|exact Hb].
    eapply Qle_trans; [|apply (pow2_le 53 e He)].
    rewrite (pow2_Z 53) by done. rewrite <- Zle_Qle. lia.
Qed.

(** *** Rounding to the nearest double *)

Lemma fl_cases (q : Q) :
  (q == 0 ∧ fl q = 0)
  ∨ (0 < q ∧ ∃ r, r == q ∧ fl q == fl_pos r)
  ∨ (q < 0 ∧ ∃ r, r == - q ∧ fl q == - fl_pos r).
Proof.
  unfold fl. pose proof (Qred_correct q) as Hr.
  destruct (Qred q) as [n d] eqn:E. simpl Qnum. destruct n as [|p|p].
  - left. split; [|done]. by rewrite <- Hr.
  - right; left. split; [by rewrite <- Hr|].
    exists (Z.pos p # d). split; [done|apply Qred_correct].
  - right; right. split; [by rewrite <- Hr|].
    exists (- (Z.neg p # d)). split; [by rewrite Hr|apply Qred_correct].
Qed.

(** Rounding depends on the number only, not on the fraction that holds
    it. *)
Lemma fl_proper (q r : Q) : q == r → fl q = fl r.
Proof. intros H. unfold fl. by rewrite (Qred_complete q r H). Qed.

Lemma fl_positive (q : Q) : 0 < q → 0 < fl q.
Proof.
  intros Hq. destruct (fl_cases q) as [[E _]|[(_ & r & Er & ->)|[H _]]];
    [lra| |lra].
  apply fl_pos_positive. by rewrite Er.
Qed.

Lemma fl_negative (q : Q) : q < 0 → fl q < 0.
Proof.
  intros Hq. destruct (fl_cases q) as [[E _]|[[H _]|(_ & r & Er & ->)]];
    [lra|lra|].
  assert (0 < fl_pos r) by (apply fl_pos_positive; rewrite Er; lra). lra.
Qed.

Lemma fl_zero (q : Q) : q == 0 → fl q = 0.
Proof. intros H. by rewrite (fl_proper q 0 H). Qed.

Lemma fl_nonneg (q : Q) : 0 <= q → 0 <= fl q.
Proof.
  intros Hq. destruct (Qlt_le_dec 0 q) as [H|H].
  - by apply Qlt_le_weak, fl_positive.
  - rewrite fl_zero by lra. lra.
Qed.

Lemma fl_nonpos (q : Q) : q <= 0 → fl q <= 0.
Proof.
  intros Hq. destruct (Qlt_le_dec q 0) as [H|H].
  - by apply Qlt_le_weak, fl_negative.
  - rewrite fl_zero by lra. lra.
Qed.

(** Rounding keeps the sign, so a comparator that subtracts decides as the
    exact difference does. *)
Lemma fl_sign (q : Q) : fl q <= 0 ↔ q <= 0.
Proof.
  split; [|apply fl_nonpos]. intros H.
  destruct (Qlt_le_dec 0 q) as [Hq|Hq]; [|done].
  apply fl_positive in Hq. lra.
Qed.

(** Rounding does not cross a whole number below 2^53: these are doubles. *)
Lemma fl_le (q : Q) (m : Z) :
  (- 2 ^ 53 < m < 2 ^ 53)%Z → q <= inject_Z m → fl q <= inject_Z m.
Proof.
  intros Hm Hq.
  destruct (fl_cases q) as [[E ->]|[(H & r & Er & ->)|(H & r & Er & ->)]].
  - by rewrite <- E.
  - apply fl_pos_le; [by rewrite Er|lia|by rewrite Er].
  - assert (Hr : 0 < r) by (rewrite Er; lra).
    destruct (Z.lt_ge_cases m 0) as [Hneg|Hpos].
    + assert (inject_Z (- m) <= fl_pos r); [|rewrite inject_Z_opp in *; lra].
      apply fl_pos_ge; [done|lia|]. rewrite inject_Z_opp, Er. lra.
    + apply fl_pos_positive in Hr. rewrite Zle_Qle in Hpos.
      change (inject_Z 0) with 0 in Hpos. lra.
Qed.

Lemma fl_ge (q : Q) (m : Z) :
  (- 2 ^ 53 < m < 2 ^ 53)%Z → inject_Z m <= q → inject_Z m <= fl q.
Proof.
  intros Hm Hq.
  destruct (fl_cases q) as [[E ->]|[(H & r & Er & ->)|(H & r & Er & ->)]].
  - by rewrite <- E.
  - assert (Hr : 0 < r) by by rewrite Er.
    destruct (Z.lt_ge_cases 0 m) as [Hpos|Hneg].
    + apply fl_pos_ge; [done|lia|by rewrite Er].
    + apply fl_pos_positive in Hr. rewrite Zle_Qle in Hneg.
      change (inject_Z 0) with 0 in Hneg. lra.
  - assert (Hr : 0 < r) by (rewrite Er; lra).
    assert (fl_pos r <= inject_Z (- m)); [|rewrite inject_Z_opp in *; lra].
    apply fl_pos_le; [done|lia|]. rewrite inject_Z_opp, Er. lra.
Qed.

(** A whole number below 2^53 is a double. *)
Lemma fl_Z (m : Z) : (- 2 ^ 53 < m < 2 ^ 53)%Z → fl (inject_Z m) == inject_Z m.
Proof.
  intros Hm. apply Qle_antisym; [apply fl_le|apply fl_ge]; try done;
    apply Qle_refl.
Qed.

(** What rounding returns for a positive number: a double, that is a
    multiple of [2 ^ (e - 52)] with a factor of at most 53 bits, where [e]
    is the binary exponent of the number, and the double nearest to it, of
    two nearest the one with the even factor. *)
Lemma fl_nearest (q : Q) :
  0 < q →
  ∃ (e m : Z),
    2 ^ e <= q ∧ q < 2 ^ (e + 1)
    ∧ (2 ^ 52 ≤ m ≤ 2 ^ 53)%Z
    ∧ fl q == inject_Z m * 2 ^ (e - 52)
    ∧ Qabs (q - fl q) <= 2 ^ (e - 53)
    ∧ (Qabs (q - fl q) == 2 ^ (e - 53) → Z.even m = true).
Proof.
  intros Hq.
  destruct (fl_cases q) as [[E _]|[(_ & r & Er & Ef)|[H _]]]; [lra| |lra].
  assert (Hr : 0 < r) by by rewrite Er.
  destruct (ilog2_spec r Hr) as [Hlo Hhi].
  destruct (fl_pos_bounds r Hr) as [Hb1 Hb2].
  exists (ilog2 r), (rne (r / 2 ^ (ilog2 r - 52))).
  unfold fl_pos in *. set (e := ilog2 r) in *. set (ulp := 2 ^ (e - 52)) in *.
  assert (Hu : 0 < ulp) by apply pow2_pos.
  assert (E1 : 2 ^ e == inject_Z (2 ^ 52) * ulp).
  { unfold ulp. rewrite <- pow2_Z by done. rewrite <- pow2_add.
    by replace (52 + (e - 52))%Z with e by lia. }
  assert (E2 : 2 ^ (e + 1) == inject_Z (2 ^ 53) * ulp).
  { unfold ulp. rewrite <- pow2_Z by done. rewrite <- pow2_add.
    by replace (53 + (e - 52))%Z with (e + 1)%Z by lia. }
  assert (E3 : 2 ^ (e - 53) == (1 # 2) * ulp).
  { unfold ulp. change (1 # 2) with (2 ^ (-1)). rewrite <- pow2_add.
    by replace (-1 + (e - 52))%Z with (e - 53)%Z by lia. }
  set (m := rne (r / ulp)) in *.
  assert (Ed : q - fl q == (r / ulp - inject_Z m) * ulp).
  { rewrite Ef, <- Er. field. lra. }
  destruct (rne_nearest (r / ulp)) as [Hn1 Hn2]. fold m in Hn1, Hn2.
  split; [lra|]. split; [lra|]. split.
  { rewrite E1 in Hb1. rewrite E2 in Hb2.
    apply Qmult_le_r in Hb1; [|done]. apply Qmult_le_r in Hb2; [|done].
    by rewrite <- !Zle_Qle in *. }
  split; [done|].
  rewrite Ed, Qabs_Qmult, (Qabs_pos ulp), E3 by lra. split.
  - apply Qmult_le_compat_r; [done|lra].
  - intros E. apply Hn2. apply Qmult_inj_r in E; [done|lra].
Qed.
End DoubleFacts.

(** ** The stable sort *)

Section SortFacts.
Import JS.
Context {A : Type}.
Variable cmp : A → A → Q.
(** Both comparators of the dashboard subtract a numeric field of their
    first argument from that of the second. *)
Variable key : A → Q.
Hypothesis cmp_key : ∀ a b, (cmp a b == key b - key a)%Q.

Lemma cmp_le a b : Qle_bool (cmp a b) 0 = true ↔ (key b <= key a)%Q.
Proof.
  rewrite Qle_bool_iff, cmp_key. split; intros H.
  - apply Qplus_le_l with (z := (- key a)%Q). rewrite Qplus_opp_r. exact H.
  - apply Qplus_le_l with (z := (- key a)%Q) in H.
    rewrite Qplus_opp_r in H. exact H.
Qed.

Lemma cmp_gt a b : Qle_bool (cmp a b) 0 = false → (key a < key b)%Q.
Proof.
  intros H. apply Qnot_le_lt. intros Hle.
  apply cmp_le in Hle. congruence.
Qed.

Lemma insert_sorted_perm x l : insert_sorted cmp x l ≡ₚ x :: l.
Proof.
  induction l as [|y l IH]; simpl; [done|].
  destruct (Qle_bool (cmp x y) 0); [done|].
  rewrite IH. apply Permutation_swap.
Qed.

Lemma Array_sort_perm l : Array_sort cmp l ≡ₚ l.
Proof.
  induction l as [|x l IH]; simpl; [done|].
  rewrite insert_sorted_perm. by rewrite IH.
Qed.

Lemma insert_sorted_desc x l :
  StronglySorted (λ a b, key b <= key a)%Q l →
  StronglySorted (λ a b, key b <= key a)%Q (insert_sorted cmp x l).
Proof.
  induction 1 as [|y l Hs IH Hy]; simpl.
  - repeat constructor.
  - destruct (Qle_bool (cmp x y) 0) eqn:E.
    + apply cmp_le in E. constructor; [by constructor|].
      constructor; [exact E|].
      eapply Forall_impl; [exact Hy|].
      intros z Hz. simpl in *. by eapply Qle_trans.
    + apply cmp_gt in E. constructor; [exact IH|].
      rewrite insert_sorted_perm. constructor; [|exact Hy].
      by apply Qlt_le_weak.
Qed.

Lemma Array_sort_desc l :
  StronglySorted (λ a b, key b <= key a)%Q (Array_sort cmp l).
Proof.
  induction l as [|x l IH]; simpl; [constructor|].
  by apply insert_sorted_desc.
Qed.

Lemma insert_sorted_ties q x l :
  ties key q (insert_sorted cmp x l) = ties key q (x :: l).
Proof.
  induction l as [|y l IH]; [done|]. simpl.
  destruct (Qle_bool (cmp x y) 0) eqn:E; [done|].
  apply cmp_gt in E. unfold ties in *. simpl in *. rewrite IH.
  destruct (Qeq_bool (key x) q) eqn:Ex, (Qeq_bool (key y) q) eqn:Ey;
    try done.
  apply Qeq_bool_iff in Ex, Ey. rewrite Ex, Ey in E.
  by apply Qlt_irrefl in E.
Qed.

(** Stability: sorting does not reorder elements with equal fields. *)
Lemma Array_sort_ties q l :
  ties key q (Array_sort cmp l) = ties key q l.
Proof.
  induction l as [|x l IH]; [done|]. simpl.
  rewrite insert_sorted_ties. unfold ties in *. simpl. by rewrite IH.
Qed.

End SortFacts.

(** A sort only reads the sign of what its comparator returns. *)
Lemma insert_sorted_ext {A} (cmp cmp' : A → A → Q) (x : A) (l : list A) :
  (∀ a b, Qle_bool (cmp a b) 0 = Qle_bool (cmp' a b) 0) →
  JS.insert_sorted cmp x l = JS.insert_sorted cmp' x l.
Proof.
  intros H. induction l as [|y l IH]; simpl; [done|].
  by rewrite H, IH.
Qed.

Lemma Array_sort_ext {A} (cmp cmp' : A → A → Q) (l : list A) :
  (∀ a b, Qle_bool (cmp a b) 0 = Qle_bool (cmp' a b) 0) →
  JS.Array_sort cmp l = JS.Array_sort cmp' l.
Proof.
  intros H. induction l as [|x l IH]; simpl; [done|].
  by rewrite IH, (insert_sorted_ext cmp cmp').
Qed.

(** The rounded difference of two doubles has the sign of their exact
    difference. *)
Lemma fsub_sign (a b : Q) :
  Qle_bool (JS.fsub b a) 0 = Qle_bool (b - a)%Q 0.
Proof.
  unfold JS.fsub. destruct (Qle_bool (b - a) 0) eqn:E.
  - apply Qle_bool_iff. apply Qle_bool_iff in E. by apply fl_sign.
  - destruct (Qle_bool (JS.fl (b - a)) 0) eqn:E'; [|done].
    apply Qle_bool_iff in E'. apply (proj1 (fl_sign _)) in E'.
    apply Qle_bool_iff in E'. congruence.
Qed.

(** ** Developer scorecards *)

Section ScorecardFacts.
Import JS Scorecard.

Lemma imap_fmap_const {A B C} (f : nat → A → B) (g : B → C) (h : A → C)
    (l : list A) :
  (∀ i x, g (f i x) = h x) → g <$> imap f l = h <$> l.
Proof.
  intros Hf. revert f Hf.
  induction l as [|x l IH]; intros f Hf; [done|].
  simpl. rewrite Hf. f_equal. apply IH. intros i y. apply Hf.
Qed.

Lemma imap_StronglySorted {A B} (R : A → A → Prop) (S' : B → B → Prop)
    (f : nat → A → B) (l : list A) :
  (∀ i j x y, R x y → S' (f i x) (f j y)) →
  StronglySorted R l → StronglySorted S' (imap f l).
Proof.
  intros Hf Hs. revert f Hf.
  induction Hs as [|x l Hs IH Hx]; intros f Hf; simpl; constructor.
  - apply IH. intros i j a b. apply Hf.
  - apply Forall_forall. intros b Hb.
    apply list_elem_of_lookup in Hb as [j Hj].
    rewrite list_lookup_imap in Hj.
    destruct (l !! j) as [a|] eqn:Ea; simplify_eq/=.
    apply Hf. eapply Forall_forall in Hx; [exact Hx|].
    eapply list_elem_of_lookup_2; eauto.
Qed.

Lemma imap_filter_key {A} (f : nat → A → A) (P : A → bool) (g : A → Developer)
    (l : list A) :
  (∀ i x, P (f i x) = P x) → (∀ i x, g (f i x) = g x) →
  g <$> List.filter P (imap f l) = g <$> List.filter P l.
Proof.
  intros HP Hg. revert f HP Hg.
  induction l as [|x l IH]; intros f HP Hg; [done|]. simpl.
  rewrite HP. destruct (P x); simpl; [rewrite Hg; f_equal|];
    apply IH; intros i y; [apply HP|apply Hg|apply HP|apply Hg].
Qed.

(** Every entry of the ranking is the scorecard of a developer of the
    cohort, with its rank set anew. *)
Lemma scorecards_elem developers sortBy e :
  e ∈ scorecards developers sortBy →
  ∃ i j d, developers !! i = Some d
           ∧ e = set_rank j (score developers i d).
Proof.
  unfold scorecards. intros He.
  apply list_elem_of_lookup in He as [j Hj].
  rewrite list_lookup_imap in Hj.
  destruct (Array_sort _ _ !! j) as [s|] eqn:Es; simplify_eq/=.
  apply list_elem_of_lookup_2 in Es.
  rewrite Array_sort_perm in Es.
  apply list_elem_of_lookup in Es as [i Hi]. unfold scored in Hi.
  rewrite list_lookup_imap in Hi.
  destruct (developers !! i) as [d|] eqn:Ed; simplify_eq/=.
  by exists i, j, d.
Qed.

Lemma Qle_bool_lt (a x : Q) : (x < a)%Q → Qle_bool a x = false.
Proof.
  intros H. destruct (Qle_bool a x) eqn:E; [|done].
  apply Qle_bool_iff in E. by apply Qlt_not_le in H.
Qed.

Lemma grade_of_spec (average : Q) :
  ((90 <= average)%Q → grade_of average = "A+")
  ∧ ((80 <= average)%Q ∧ (average < 90)%Q → grade_of average = "A")
  ∧ ((70 <= average)%Q ∧ (average < 80)%Q → grade_of average = "B+")
  ∧ ((60 <= average)%Q ∧ (average < 70)%Q → grade_of average = "B")
  ∧ ((50 <= average)%Q ∧ (average < 60)%Q → grade_of average = "C+")
  ∧ ((40 <= average)%Q ∧ (average < 50)%Q → grade_of average = "C")
  ∧ ((average < 40)%Q → grade_of average = "D").
Proof.
  unfold grade_of. repeat split; intros; destruct_and?;
    repeat match goal with
    | |- context [Qle_bool ?t average] =>
        first
          [ rewrite (Qle_bool_lt t average)
              by (eapply Qlt_le_trans; [eassumption|by vm_compute])
          | rewrite (proj2 (Qle_bool_iff t average)) by assumption ]
    end; reflexivity.
Qed.






(** C4. The letter grade of a developer is the arithmetic mean of the
    four component scores, as the arithmetic of doubles gives it, mapped
    through the thresholds 90 (A+), 80 (A), 70 (B+), 60 (B), 50 (C+),
    40 (C), and D below 40. *)
Theorem C4_overall_grade (developers : list Developer) (sortBy : SortBy)
    (e : ScorecardData) :
  e ∈ scorecards developers sortBy →
  let mean :=
    fdiv
      (fadd
         (fadd (fadd (productivity_score e) (impact_score e))
            (consistency_score e))
         (collaboration_score e))
      4 in
  ((90 <= mean)%Q → overall_grade e = "A+")
  ∧ ((80 <= mean)%Q ∧ (mean < 90)%Q → overall_grade e = "A")
  ∧ ((70 <= mean)%Q ∧ (mean < 80)%Q → overall_grade e = "B+")
  ∧ ((60 <= mean)%Q ∧ (mean < 70)%Q → overall_grade e = "B")
  ∧ ((50 <= mean)%Q ∧ (mean < 60)%Q → overall_grade e = "C+")
  ∧ ((40 <= mean)%Q ∧ (mean < 50)%Q → overall_grade e = "C")
  ∧ ((mean < 40)%Q → overall_grade e = "D").
Proof.
  intros (i & j & d & Hd & ->)%scorecards_elem.
  cbn [set_rank score productivity_score impact_score consistency_score
       collaboration_score overall_grade].
  unfold average_of. apply grade_of_spec.
Qed.

Lemma lead_card_ranked :
  Examples.lead_card ∈ scorecards Examples.cohort10 by_total_commits.
Proof. vm_compute. left. Defined.

Lemma carol_card_ranked :
  Examples.carol_card ∈ scorecards Examples.pair by_contribution_score.
Proof. vm_compute. left. Defined.


(** A mean that doubles put just below 60: the scores are two thirds of
    100, twice, a fifteenth of 100, and 100. *)
Lemma C4_witness : overall_grade Examples.carol_card = "C+".
Proof.
  pose proof (C4_overall_grade Examples.pair by_contribution_score
                Examples.carol_card carol_card_ranked) as H.
  cbv zeta in H. destruct H as (_ & _ & _ & _ & HC & _).
  apply HC. split; by vm_compute.
Defined.

(** The mean is the one the code computes: the four scores of this card
    have an exact mean below 40, their sum is rounded to 160, and the grade
    is C. *)
Lemma mean_in_doubles :
  let e := Examples.ines_card in
  overall_grade e = "C"
  ∧ ((productivity_score e + impact_score e + consistency_score e
      + collaboration_score e) / 4 < 40)%Q.
Proof. split; by vm_compute. Qed.

Lemma set_rank_key sortBy j s :
  sort_key sortBy (set_rank j s) = sort_key sortBy s.
Proof. by destruct sortBy. Qed.

Lemma compare_desc_sign sortBy (a b : ScorecardData) :
  Qle_bool (compare_desc sortBy a b) 0
  = Qle_bool (sort_key sortBy b - sort_key sortBy a)%Q 0.
Proof. destruct sortBy; apply fsub_sign. Qed.

(** The ranking is the sort by the exact difference of the fields. *)
Lemma scorecards_sort developers sortBy :
  Array_sort (compare_desc sortBy) (scored developers)
  = Array_sort (λ a b, sort_key sortBy b - sort_key sortBy a)%Q
      (scored developers).
Proof. apply Array_sort_ext, compare_desc_sign. Qed.

Lemma filter_imap_score (P : ScorecardData → bool) developers :
  (∀ i j d, P (score developers i d) = P (score developers j d)) →
  dev <$> List.filter P (scored developers)
  = List.filter (λ d, P (score developers 0 d)) developers.
Proof.
  intros HP. unfold scored.
  assert (H : ∀ (l : list Developer) (f : nat → nat),
    dev <$> List.filter P (imap (λ i, score developers (f i)) l)
    = List.filter (λ d, P (score developers 0 d)) l).
  { induction l as [|d l IH]; intros f; [done|]. cbn [imap List.filter].
    rewrite (HP (f 0%nat) 0%nat d).
    specialize (IH (f ∘ S)). unfold compose in *.
    destruct (P (score developers 0 d)); cbn [fmap list_fmap];
      [f_equal|]; exact IH. }
  exact (H developers id).
Qed.

(** C5. For each of the four sort fields the ranking is a permutation of
    the developers, in descending order of the field, in which the
    developers that tie on the field keep the order they have in the
    input, and the rank of an entry is its position counted from 1. *)
Theorem C5_ranking (developers : list Developer) (sortBy : SortBy) :
  let out := scorecards developers sortBy in
  let field (s : ScorecardData) : Q :=
    match sortBy with
    | by_contribution_score => contribution_score (dev s)
    | by_total_commits => inject_Z (total_commits (dev s))
    | by_productivity => productivity_score s
    | by_impact => impact_score s
    end in
  dev <$> out ≡ₚ developers
  ∧ StronglySorted (λ a b, (field b <= field a)%Q) out
  ∧ (∀ q, dev <$> List.filter (λ s, Qeq_bool (field s) q) out
          = List.filter
              (λ d, Qeq_bool (field (score developers 0 d)) q)
              developers)
  ∧ (∀ i e, out !! i = Some e → rank e = (i + 1)%nat).
Proof.
  intros out field. change field with (sort_key sortBy).
  assert (Hk : ∀ a b : ScorecardData,
    ((λ a b, sort_key sortBy b - sort_key sortBy a) a b
     == sort_key sortBy b - sort_key sortBy a)%Q)
    by done.
  assert (Hs : dev <$> scored developers = developers).
  { unfold scored. rewrite (imap_fmap_const _ dev id); [|done].
    apply list_fmap_id. }
  unfold out, scorecards. rewrite scorecards_sort. repeat split.
  - rewrite (imap_fmap_const _ dev dev); [|done].
    by rewrite Array_sort_perm, Hs.
  - eapply imap_StronglySorted;
      [|exact (Array_sort_desc _ (sort_key sortBy) Hk (scored developers))].
    intros i j x y Hxy. by rewrite !set_rank_key.
  - intros q.
    rewrite imap_filter_key; [| |done].
    + fold (ties (sort_key sortBy) q
              (Array_sort (λ a b, sort_key sortBy b - sort_key sortBy a)%Q
                 (scored developers))).
      rewrite (Array_sort_ties _ _ Hk). unfold ties.
      apply (filter_imap_score (λ s, Qeq_bool (sort_key sortBy s) q)).
      intros i j d. by destruct sortBy.
    + intros i x. by rewrite set_rank_key.
  - intros i e. rewrite list_lookup_imap.
    destruct (_ !! i); intros; by simplify_eq/=.
Qed.

(** On the cohorts of two developers with up to 7 commits and 2 changed
    lines each, the scores and the average of the model are the doubles
    the machine computes. *)
Lemma score_binary64 :
  forallb Binary64.agree (Binary64.some_cohorts 7 2) = true.
Proof. by vm_compute. Qed.

(** Of three developers with one, two and no commit, the one with a third
    of the commits is ranked second by productivity: the share of a third
    of a cohort of three is a double below 100. *)
Lemma ranking_by_productivity :
  name <$> (dev <$> scorecards Examples.trio by_productivity)
  = ["bea"; "abe"; "cy"]
  ∧ productivity_score <$> scorecards Examples.trio by_productivity
    = [100; 7036874417766399 # 70368744177664; 0]%Q.
Proof. by vm_compute. Qed.

End ScorecardFacts.

(** ** Calendar and bucket keys *)

Section CalendarFacts.
Import Calendar.

Lemma daysInMonth_bounds y m : 28 ≤ daysInMonth y m ≤ 31.
Proof.
  unfold daysInMonth.
  repeat match goal with |- context [if ?b then _ else _] => destruct b end;
    lia.
Qed.

(** With a day every month has, [setMonth] only moves the month. *)
Lemma setMonth_small d m :
  day d ≤ 28 → setMonth d m = mkDate (year d + m / 12) (m mod 12) (day d).
Proof.
  intros Hd. unfold setMonth.
  pose proof (daysInMonth_bounds (year d + m / 12) (m mod 12)).
  by rewrite (proj2 (Z.leb_le _ _)) by lia.
Qed.

Lemma string_app_nil (t : string) : "" +:+ t = t.
Proof. done. Qed.

Lemma string_app_cons c (s t : string) :
  String c s +:+ t = String c (s +:+ t).
Proof. done. Qed.

Lemma string_length_app (s t : string) :
  String.length (s +:+ t) = (String.length s + String.length t)%nat.
Proof.
  induction s as [|c s IH]; [done|].
  rewrite string_app_cons. simpl. by rewrite IH.
Qed.

Lemma string_app_inj_suffix (s1 s2 t1 t2 : string) :
  String.length t1 = String.length t2 →
  s1 +:+ t1 = s2 +:+ t2 → s1 = s2 ∧ t1 = t2.
Proof.
  revert s2. induction s1 as [|c s1 IH]; intros [|c' s2] Hl;
    rewrite ?string_app_nil, ?string_app_cons.
  - done.
  - intros ->. simpl in Hl. rewrite string_length_app in Hl. lia.
  - intros <-. simpl in Hl. rewrite string_length_app in Hl. lia.
  - intros [= -> H]. by destruct (IH s2 Hl H) as [-> ->].
Qed.

Lemma month_cases m :
  0 ≤ m ≤ 11 →
  m = 0 ∨ m = 1 ∨ m = 2 ∨ m = 3 ∨ m = 4 ∨ m = 5
  ∨ m = 6 ∨ m = 7 ∨ m = 8 ∨ m = 9 ∨ m = 10 ∨ m = 11.
Proof. lia. Qed.

Lemma monthField_length m : 0 ≤ m ≤ 11 → String.length (monthField m) = 2%nat.
Proof. intros H%month_cases. destruct_or!; by subst. Qed.

Lemma monthField_inj m1 m2 :
  0 ≤ m1 ≤ 11 → 0 ≤ m2 ≤ 11 → monthField m1 = monthField m2 → m1 = m2.
Proof.
  intros H1%month_cases H2%month_cases.
  destruct_or!; subst; vm_compute; congruence.
Qed.

(** The bucket key determines the calendar month. *)
Lemma monthKey_inj a b :
  0 ≤ month a ≤ 11 → 0 ≤ month b ≤ 11 →
  monthKey a = monthKey b → year a = year b ∧ month a = month b.
Proof.
  intros Ha Hb. unfold monthKey.
  intros H. apply string_app_inj_suffix in H as [Hy Hm].
  - apply (inj pretty) in Hy. split; [done|].
    apply string_app_inj_suffix in Hm as [_ Hm];
      [by apply monthField_inj|].
    by rewrite !monthField_length.
  - rewrite !string_length_app, !monthField_length; done.
Qed.

Lemma daysBefore_mono y (k k' : nat) :
  (k ≤ k')%nat → daysBefore y k ≤ daysBefore y k'.
Proof.
  induction 1 as [|k' _ IH]; [done|]. simpl.
  pose proof (daysInMonth_bounds y (Z.of_nat k')). lia.
Qed.

Lemma daysBefore_next y (k k' : nat) :
  (k < k')%nat →
  daysBefore y k + daysInMonth y (Z.of_nat k) ≤ daysBefore y k'.
Proof.
  intros H. apply (daysBefore_mono y (S k) k'). lia.
Qed.

Lemma daysBefore_year y :
  daysBefore y 12 = 365 + (if isLeap y then 1 else 0).
Proof.
  unfold daysBefore, daysInMonth. simpl. destruct (isLeap y); lia.
Qed.

(** A year ends before the next one begins. *)
Lemma DayFromYear_next y :
  DayFromYear y + daysBefore y 12 ≤ DayFromYear (y + 1).
Proof.
  rewrite daysBefore_year. unfold DayFromYear, isLeap.
  destruct (Z.eqb_spec (y mod 4) 0), (Z.eqb_spec (y mod 100) 0),
    (Z.eqb_spec (y mod 400) 0); simpl;
    Z.div_mod_to_equations; lia.
Qed.

Lemma DayFromYear_mono y y' : y ≤ y' → DayFromYear y ≤ DayFromYear y'.
Proof.
  intros H. unfold DayFromYear. Z.div_mod_to_equations. lia.
Qed.

(** The day number is strictly increasing along the calendar. *)
Lemma MakeDay_lt a b :
  valid a → valid b → date_lt a b → MakeDay a < MakeDay b.
Proof.
  intros [Hma Hda] [Hmb Hdb] Hlt. unfold MakeDay.
  assert (Ha : Z.of_nat (Z.to_nat (month a)) = month a) by lia.
  assert (Hb : Z.of_nat (Z.to_nat (month b)) = month b) by lia.
  destruct Hlt as [Hy|[[Hy Hm]|(Hy & Hm & Hd)]].
  - pose proof (DayFromYear_next (year a)).
    pose proof (DayFromYear_mono (year a + 1) (year b)).
    pose proof (daysBefore_next (year a) (Z.to_nat (month a)) 12).
    pose proof (daysBefore_mono (year b) 0 (Z.to_nat (month b))).
    simpl in *. rewrite Ha in *. lia.
  - pose proof (daysBefore_next (year a) (Z.to_nat (month a))
                  (Z.to_nat (month b))).
    rewrite Ha, Hy in *. lia.
  - rewrite Hy, Hm. lia.
Qed.

Lemma date_lt_total a b : a = b ∨ date_lt a b ∨ date_lt b a.
Proof.
  destruct a as [ya ma da], b as [yb mb db]. unfold date_lt. simpl.
  destruct (decide (ya = yb)) as [->|]; [|lia].
  destruct (decide (ma = mb)) as [->|]; [|lia].
  destruct (decide (da = db)) as [->|]; [by left|lia].
Qed.

(** Of two different days the one with the later midnight is the later
    day. *)
Lemma getTime_newer a b :
  valid a → valid b → a ≠ b → getTime b ≤ getTime a → date_lt b a.
Proof.
  intros Ha Hb Hne Hle.
  destruct (date_lt_total a b) as [?|[Hlt|?]]; [done| |done].
  pose proof (MakeDay_lt a b Ha Hb Hlt). unfold getTime, msPerDay in Hle.
  lia.
Qed.

End CalendarFacts.

(** ** Activity heatmap *)

Section HeatmapFacts.
Import JS Calendar Commit Heatmap.

Lemma countCommit_lookup (m : gmap string Z) c k :
  default 0 (countCommit m c !! k)
  = default 0 (m !! k) + countKey k [c].
Proof.
  unfold countCommit, countKey. simpl.
  destruct (decide (monthKey (timestamp c) = k)) as [->|Hne].
  - rewrite lookup_insert_eq, bool_decide_eq_true_2 by done. simpl. lia.
  - rewrite lookup_insert_ne, bool_decide_eq_false_2 by done. simpl. lia.
Qed.

Lemma countKey_cons k c cs :
  countKey k (c :: cs) = countKey k [c] + countKey k cs.
Proof.
  unfold countKey. simpl. destruct (bool_decide _); simpl; lia.
Qed.

Lemma foldl_countCommit_lookup (m : gmap string Z) cs k :
  default 0 (foldl countCommit m cs !! k)
  = default 0 (m !! k) + countKey k cs.
Proof.
  revert m. induction cs as [|c cs IH]; intros m; simpl.
  - unfold countKey. simpl. lia.
  - rewrite IH, countCommit_lookup, (countKey_cons k c cs). lia.
Qed.

(** The count stored under a key is the number of commits of that key. *)
Lemma monthlyCommits_lookup cs k :
  default 0 (monthlyCommits cs !! k) = countKey k cs.
Proof.
  unfold monthlyCommits. rewrite foldl_countCommit_lookup.
  by rewrite lookup_empty.
Qed.

Lemma countKey_nonneg k cs : 0 ≤ countKey k cs.
Proof. unfold countKey. lia. Qed.

Lemma foldr_max_ge (l : list Z) : 1 ≤ foldr Z.max 1 l.
Proof. induction l; simpl; lia. Qed.

Lemma foldr_max_elem (l : list Z) x : x ∈ l → x ≤ foldr Z.max 1 l.
Proof. induction 1; simpl; lia. Qed.

Lemma maxCommits_ge (m : gmap string Z) : 1 ≤ maxCommits m.
Proof. apply foldr_max_ge. Qed.

Lemma maxCommits_lookup (m : gmap string Z) k :
  default 0 (m !! k) ≤ maxCommits m.
Proof.
  destruct (m !! k) as [v|] eqn:E; simpl.
  - apply foldr_max_elem. apply list_elem_of_fmap.
    exists (k, v). split; [done|]. by apply elem_of_map_to_list.
  - pose proof (maxCommits_ge m). lia.
Qed.

Lemma Math_round_zero (mx : Z) :
  Math_round (inject_Z 0 / inject_Z mx * 4)%Q = 0.
Proof.
  unfold Math_round.
  assert (H : (inject_Z 0 / inject_Z mx * 4 + (1 # 2) == 1 # 2)%Q).
  { unfold Qdiv. change (inject_Z 0) with 0%Q.
    by rewrite !Qmult_0_l, Qplus_0_l. }
  by rewrite H.
Qed.

Lemma Math_round_share (c mx : Z) :
  0 ≤ c ≤ mx → 1 ≤ mx →
  0 ≤ Math_round (inject_Z c / inject_Z mx * 4)%Q ≤ 4.
Proof.
  intros Hc Hm. unfold Math_round.
  assert (H0 : (0 <= inject_Z c / inject_Z mx)%Q).
  { apply Qle_shift_div_l.
    - change 0%Q with (inject_Z 0). rewrite <- Zlt_Qlt. lia.
    - rewrite Qmult_0_l. change 0%Q with (inject_Z 0).
      rewrite <- Zle_Qle. lia. }
  assert (H1 : (inject_Z c / inject_Z mx <= 1)%Q).
  { apply Qle_shift_div_r.
    - change 0%Q with (inject_Z 0). rewrite <- Zlt_Qlt. lia.
    - rewrite Qmult_1_l. rewrite <- Zle_Qle. lia. }
  split.
  - change 0 with (Qfloor (0 * 4 + (1 # 2))) at 1.
    apply Qfloor_resp_le, Qplus_le_l, Qmult_le_compat_r; done.
  - change 4 with (Qfloor (1 * 4 + (1 # 2))) at 2.
    apply Qfloor_resp_le, Qplus_le_l, Qmult_le_compat_r; done.
Qed.

(** C10. The intensity computation is total and safe on every commit
    list: the normalising maximum is at least 1, a month without commits
    has intensity 0, and every intensity is an integer from 0 to 4. *)
Theorem C10_intensity_range (now : JSDate) (commits : list CommitData) :
  1 ≤ maxCommits (monthlyCommits commits)
  ∧ length (heatmapData now commits) = 12%nat
  ∧ Forall (λ e, 0 ≤ commitCount e
                 ∧ (commitCount e = 0 → intensity e = 0)
                 ∧ 0 ≤ intensity e ≤ 4)
      (heatmapData now commits).
Proof.
  split; [apply maxCommits_ge|]. split; [done|].
  unfold heatmapData. apply Forall_fmap, Forall_forall.
  intros date _. simpl.
  pose proof (maxCommits_lookup (monthlyCommits commits) (monthKey date)).
  pose proof (maxCommits_ge (monthlyCommits commits)).
  pose proof (monthlyCommits_lookup commits (monthKey date)) as Hc.
  pose proof (countKey_nonneg (monthKey date) commits).
  split; [lia|]. split.
  - intros ->. apply Math_round_zero.
  - apply Math_round_share; lia.
Qed.

Lemma window_regular now :
  day now ≤ 28 →
  yearMonth <$> windowDates now = trailing12 (monthIndex now).
Proof.
  intros Hd. unfold windowDates, trailing12.
  rewrite <- list_fmap_compose. apply list_fmap_ext.
  intros _ i _. simpl.
  rewrite (setMonth_small now) by done.
  rewrite setMonth_small by done.
  unfold yearMonth, monthIndex. simpl. f_equal.
  - Z.div_mod_to_equations. lia.
  - Z.div_mod_to_equations. lia.
Qed.

Lemma trailing12_NoDup last : NoDup (trailing12 last).
Proof.
  unfold trailing12. apply NoDup_fmap_2_strong; [|apply NoDup_seqZ].
  intros i j _ _ [= Hq Hr].
  pose proof (Z.div_mod (last - 11 + i) 12).
  pose proof (Z.div_mod (last - 11 + j) 12). lia.
Qed.

Lemma trailing12_lookup last i y m :
  trailing12 last !! i = Some (y, m) →
  0 ≤ m ≤ 11 ∧ 12 * y + m = last - 11 + Z.of_nat i ∧ (i < 12)%nat.
Proof.
  unfold trailing12. rewrite list_lookup_fmap.
  destruct (seqZ 0 12 !! i) as [k|] eqn:E; [|done].
  apply lookup_seqZ in E as [-> Hi]. intros [= <- <-].
  split; [|split]; [| |lia]; Z.div_mod_to_equations; lia.
Qed.

Lemma countKey_month date cs :
  0 ≤ Calendar.month date ≤ 11 →
  Forall (λ c, 0 ≤ Calendar.month (timestamp c) ≤ 11) cs →
  countKey (monthKey date) cs
  = countMonth (year date) (Calendar.month date) cs.
Proof.
  intros Hm Hcs. unfold countKey, countMonth. do 2 f_equal.
  induction Hcs as [|c cs Hc _ IH]; [done|]. simpl. rewrite IH.
  assert (E : bool_decide (monthKey (timestamp c) = monthKey date)
              = inMonth (year date) (Calendar.month date) c);
    [|by rewrite E].
  unfold inMonth. apply bool_decide_ext. split.
  - by apply monthKey_inj.
  - intros [Hy Hmo]. unfold monthKey. by rewrite Hy, Hmo.
Qed.

Lemma totalCount_fmap (f : JSDate → ActivityHeatmapData) dates :
  totalCount (f <$> dates)
  = foldr (λ d sum, commitCount (f d) + sum) 0 dates.
Proof. induction dates as [|d ds IH]; simpl; [done|]. by rewrite <- IH. Qed.

Lemma countWindow_cons ym months cs :
  ym ∉ months →
  countWindow (ym :: months) cs
  = countMonth ym.1 ym.2 cs + countWindow months cs.
Proof.
  intros Hn. unfold countWindow, countMonth.
  destruct ym as [y m]. cbn [fst snd].
  induction cs as [|c cs IH]; [done|]. cbn [List.filter].
  unfold inMonth at 1.
  destruct (decide (yearMonth (timestamp c) = (y, m))) as [E|E].
  - rewrite bool_decide_eq_true_2 by (rewrite E; left).
    rewrite (bool_decide_eq_true_2 (_ ∧ _)) by by injection E.
    rewrite (bool_decide_eq_false_2 (_ ∈ months)) by by rewrite E.
    simpl. lia.
  - rewrite (bool_decide_eq_false_2 (_ ∧ _));
      [|intros [Hy Hm]; apply E; unfold yearMonth; by rewrite Hy, Hm].
    destruct (decide (yearMonth (timestamp c) ∈ months)) as [I|I].
    + rewrite !bool_decide_eq_true_2 by (done || by right). simpl. lia.
    + rewrite !bool_decide_eq_false_2; [lia|done|].
      intros [?|?]%elem_of_cons; done.
Qed.

Lemma countWindow_nil cs : countWindow [] cs = 0.
Proof.
  unfold countWindow. induction cs as [|c cs IH]; [done|].
  cbn [List.filter]. rewrite bool_decide_eq_false_2; [done|].
  apply not_elem_of_nil.
Qed.

Lemma totalCount_dates dates commits :
  NoDup (yearMonth <$> dates) →
  Forall (λ d, 0 ≤ Calendar.month d ≤ 11) dates →
  Forall (λ c, 0 ≤ Calendar.month (timestamp c) ≤ 11) commits →
  totalCount
    (entry (monthlyCommits commits) (maxCommits (monthlyCommits commits))
       <$> dates)
  = countWindow (yearMonth <$> dates) commits.
Proof.
  intros Hnd Hr Hcs. rewrite totalCount_fmap. simpl.
  induction dates as [|d ds IH]; simpl.
  - by rewrite countWindow_nil.
  - rewrite fmap_cons in Hnd. apply NoDup_cons in Hnd as [Hn Hnd].
    apply Forall_cons in Hr as [Hdm Hr].
    rewrite IH, countWindow_cons by done.
    by rewrite monthlyCommits_lookup, countKey_month.
Qed.

(** Away from the last days of a month the bucket counts add up to the
    number of commits of the window. *)
Lemma totalCount_regular now commits :
  day now ≤ 28 →
  Forall (λ c, 0 ≤ Calendar.month (timestamp c) ≤ 11) commits →
  totalCount (heatmapData now commits)
  = countWindow (trailing12 (monthIndex now)) commits.
Proof.
  intros Hd Hcs. rewrite <- (window_regular now Hd).
  apply totalCount_dates; [| |done].
  - rewrite window_regular by done. apply trailing12_NoDup.
  - apply Forall_forall. intros d Hin.
    apply list_elem_of_lookup in Hin as [i Hi].
    assert (Hl : (yearMonth <$> windowDates now) !! i = Some (yearMonth d))
      by by rewrite list_lookup_fmap, Hi.
    rewrite window_regular in Hl by done.
    by apply trailing12_lookup in Hl as [? _].
Qed.

(** C6 (amended). The heatmap has twelve entries and is anchored at the
    current date, not at the latest commit.  When the current day of the
    month is at most 28 the entries are for the twelve consecutive calendar
    months that end at the current month, oldest first and each once; the
    entry of a month carries the label of that month and the number of
    commits of that month, which is zero for a month without commits.
    (A commit timestamp has a month of the calendar, 0 to 11.) *)
Theorem C6_heatmap_window (now : JSDate) (commits : list CommitData) :
  day now ≤ 28 →
  Forall (λ c, 0 ≤ Calendar.month (timestamp c) ≤ 11) commits →
  let months := trailing12 (monthIndex now) in
  yearMonth <$> windowDates now = months
  ∧ NoDup months
  ∧ length (heatmapData now commits) = 12%nat
  ∧ (0 ≤ Calendar.month now ≤ 11 →
     months !! 11%nat = Some (year now, Calendar.month now))
  ∧ (∀ i y m, months !! i = Some (y, m) →
       12 * y + m = monthIndex now - 11 + Z.of_nat i
       ∧ ∃ e, heatmapData now commits !! i = Some e
              ∧ Heatmap.month e = monthLabel (mkDate y m 1)
              ∧ commitCount e = countMonth y m commits
              ∧ (countMonth y m commits = 0 → commitCount e = 0)).
Proof.
  intros Hd Hcs months.
  pose proof (window_regular now Hd) as Hw. fold months in Hw.
  split; [done|]. split; [apply trailing12_NoDup|]. split; [done|].
  split.
  - intros Hm. unfold months, trailing12, monthIndex.
    change (seqZ 0 12) with [0;1;2;3;4;5;6;7;8;9;10;11]. simpl.
    do 2 f_equal; Z.div_mod_to_equations; lia.
  - intros i y m Hi.
    destruct (trailing12_lookup _ _ _ _ Hi) as (Hm & Hidx & _).
    split; [done|].
    rewrite <- Hw, list_lookup_fmap in Hi.
    destruct (windowDates now !! i) as [d|] eqn:Ed; [|done].
    injection Hi as Hy Hmo. subst y m.
    exists (entry (monthlyCommits commits)
              (maxCommits (monthlyCommits commits)) d).
    unfold heatmapData. rewrite list_lookup_fmap, Ed.
    split; [done|]. simpl.
    by rewrite monthlyCommits_lookup, countKey_month.
Qed.

End HeatmapFacts.

(** ** Daily timeline groups *)

Section TimelineFacts.
Import JS Calendar Commit Timeline.

Lemma group_ok_other cs c kg :
  kg.1 ≠ toDateString (timestamp c) →
  group_ok cs kg → group_ok (cs ++ [c]) kg.
Proof.
  intros Hne (Hd & Hc & Ha). split; [done|]. split; [|done].
  rewrite List.filter_app. cbn [List.filter]. unfold onDay at 2.
  rewrite bool_decide_eq_false_2 by done. by rewrite app_nil_r.
Qed.

Lemma authored_snoc (cs : list CommitData) c a :
  (∃ c', c' ∈ cs ++ [c] ∧ author_name c' = Some a)
  ↔ (∃ c', c' ∈ cs ∧ author_name c' = Some a) ∨ author_name c = Some a.
Proof.
  split.
  - intros (c' & [H| ->%list_elem_of_singleton]%elem_of_app & Ha);
      [left; by exists c'|by right].
  - intros [(c' & H & Ha)|Ha].
    + exists c'. split; [apply elem_of_app; by left|done].
    + exists c. split; [|done].
      apply elem_of_app. right. by apply list_elem_of_singleton.
Qed.

Lemma pushCommit_authors c g :
  authors_ok g →
  authors_ok (mkGroup (date g) (commits g ++ [c])
                (uniqueAuthors (pushCommit c g))).
Proof.
  intros [Hnd Hiff]. unfold authors_ok, pushCommit, truthy, includes.
  cbn [commits uniqueAuthors].
  destruct (author_name c) as [a|] eqn:Ea.
  - destruct (String.eqb_spec a "") as [->|Hne]; cbn [negb andb].
    + split; [done|]. intros a'. rewrite authored_snoc, Ea, Hiff.
      split; [tauto|]. intros [Hn [H|[= <-]]]; tauto.
    + destruct (decide (a ∈ uniqueAuthors g)) as [Hin|Hin].
      * rewrite bool_decide_eq_true_2 by done. cbn [negb uniqueAuthors].
        split; [done|]. intros a'. rewrite authored_snoc, Ea.
        split; [rewrite Hiff; tauto|].
        intros [Hn [H|[= <-]]]; [rewrite Hiff; tauto|done].
      * rewrite bool_decide_eq_false_2 by done. cbn [negb uniqueAuthors].
        split.
        { apply NoDup_app. split; [done|]. split; [|apply NoDup_singleton].
          intros x Hx ->%list_elem_of_singleton. done. }
        intros a'.
        rewrite elem_of_app, list_elem_of_singleton, authored_snoc, Ea, Hiff.
        split.
        -- intros [H| ->]; [tauto|]. split; [done|by right].
        -- intros [Hn [H|[= <-]]]; [left; tauto|by right].
  - split; [done|]. intros a'. rewrite authored_snoc, Ea, Hiff.
    split; [tauto|]. intros [Hn [H|[=]]]; tauto.
Qed.

Lemma pushCommit_fields c g :
  date (pushCommit c g) = date g
  ∧ commits (pushCommit c g) = commits g ++ [c].
Proof.
  unfold pushCommit. destruct (author_name c); [|done].
  by destruct (_ && _).
Qed.

Lemma group_ok_push cs c g :
  group_ok cs (toDateString (timestamp c), g) →
  group_ok (cs ++ [c]) (toDateString (timestamp c), pushCommit c g).
Proof.
  intros (Hd & Hc & Ha). simpl in *.
  destruct (pushCommit_fields c g) as [Hd' Hc'].
  unfold group_ok. cbn [fst snd].
  split; [by rewrite Hd'|]. split.
  - rewrite Hc', Hc, List.filter_app. cbn [List.filter].
    unfold onDay at 3. by rewrite bool_decide_eq_true_2.
  - pose proof (pushCommit_authors c g Ha) as [Hnd Hiff].
    split; [done|]. simpl in Hiff. by rewrite Hc'.
Qed.

Lemma update_keys groups key f : (update groups key f).*1 = groups.*1.
Proof.
  induction groups as [|[k g] groups IH]; [done|]. cbn [update].
  destruct (decide (k = key)); [done|]. rewrite !fmap_cons. by rewrite IH.
Qed.

Lemma update_ok cs c groups :
  NoDup groups.*1 → Forall (group_ok cs) groups →
  Forall (group_ok (cs ++ [c]))
    (update groups (toDateString (timestamp c)) (pushCommit c)).
Proof.
  induction groups as [|[k g] groups IH]; [done|].
  rewrite fmap_cons. intros [Hk Hnd]%NoDup_cons [Hg Hgs]%Forall_cons.
  simpl. destruct (decide (k = toDateString (timestamp c))) as [->|Hne].
  - constructor; [by apply group_ok_push|].
    rewrite Forall_forall in Hgs. apply Forall_forall. intros kg Hin.
    assert (Hne : kg.1 ≠ toDateString (timestamp c)).
    { intros E. apply Hk. cbn [fst]. rewrite <- E.
      by apply list_elem_of_fmap_2. }
    exact (group_ok_other cs c kg Hne (Hgs kg Hin)).
  - constructor; [apply group_ok_other; [exact Hne|exact Hg]|].
    by apply IH.
Qed.

Lemma filter_none {A} (f : A → bool) (l : list A) :
  (∀ x, x ∈ l → f x = false) → List.filter f l = [].
Proof.
  induction l as [|x l IH]; intros H; [done|]. cbn [List.filter].
  rewrite H by left. apply IH. intros y Hy. apply H. by right.
Qed.

Lemma addCommit_grouped cs c groups :
  grouped cs groups → grouped (cs ++ [c]) (addCommit groups c).
Proof.
  intros (Hnd & Hok & Hin & Hfrom). unfold addCommit, has, set.
  set (d := toDateString (timestamp c)).
  assert (Hg' : ∃ groups',
    (if bool_decide (d ∈ groups.*1) then groups
     else groups ++ [(d, mkGroup d [] [])]) = groups'
    ∧ NoDup groups'.*1 ∧ Forall (group_ok cs) groups'
    ∧ d ∈ groups'.*1
    ∧ (∀ k, k ∈ groups.*1 → k ∈ groups'.*1)
    ∧ (∀ k, k ∈ groups'.*1 → k ∈ groups.*1 ∨ k = d)).
  { destruct (decide (d ∈ groups.*1)) as [Hd|Hd].
    - rewrite bool_decide_eq_true_2 by done. exists groups. auto 10.
    - rewrite bool_decide_eq_false_2 by done.
      eexists. split; [done|]. rewrite fmap_app. simpl. split.
      { apply NoDup_app. split; [done|]. split; [|apply NoDup_singleton].
        intros x Hx ->%list_elem_of_singleton. done. }
      split.
      { apply Forall_app. split; [done|]. apply Forall_singleton.
        split; [done|]. split; [|split; [constructor|]]; simpl.
        - symmetry. apply filter_none. intros c' Hc'. unfold onDay.
          apply bool_decide_eq_false_2. intros E. apply Hd.
          rewrite <- E. by apply Hin.
        - intros a. split; [by intros ?%elem_of_nil|].
          by intros (_ & c' & ?%elem_of_nil & _). }
      setoid_rewrite elem_of_app. setoid_rewrite list_elem_of_singleton.
      auto. }
  destruct Hg' as (groups' & -> & Hnd' & Hok' & Hd' & Hsub & Hsup).
  split; [by rewrite update_keys|]. split; [by apply update_ok|].
  rewrite update_keys. setoid_rewrite elem_of_app.
  setoid_rewrite list_elem_of_singleton. split.
  - intros c' [Hc'| ->]; [by apply Hsub, Hin|done].
  - intros k [Hk| ->]%Hsup; [|by exists c; auto].
    destruct (Hfrom k Hk) as (c' & Hc' & E). exists c'. auto.
Qed.

Lemma foldl_addCommit_grouped cs0 cs groups :
  grouped cs0 groups → grouped (cs0 ++ cs) (foldl addCommit groups cs).
Proof.
  revert cs0 groups. induction cs as [|c cs IH]; intros cs0 groups H.
  - by rewrite app_nil_r.
  - simpl. rewrite cons_middle, app_assoc.
    by apply IH, addCommit_grouped.
Qed.

Lemma grouped_nil : grouped [] [].
Proof.
  split; [constructor|]. split; [constructor|].
  split; [by intros c ?%elem_of_nil|by intros k ?%elem_of_nil].
Qed.

Lemma group_dates cs (groups : GroupMap) :
  Forall (group_ok cs) groups → date <$> groups.*2 = groups.*1.
Proof.
  induction 1 as [|[k g] groups (Hd & _) _ IH]; [done|].
  rewrite !fmap_cons. simpl in *. by rewrite Hd, IH.
Qed.

Lemma filter_all {A} (f : A → bool) (l : list A) :
  (∀ x, x ∈ l → f x = true) → List.filter f l = l.
Proof.
  induction l as [|x l IH]; intros H; [done|]. cbn [List.filter].
  rewrite H by left. f_equal. apply IH. intros y Hy. apply H. by right.
Qed.

Lemma count_split k ks cs :
  k ∉ ks →
  length (List.filter
    (λ c, bool_decide (toDateString (timestamp c) ∈ k :: ks)) cs)
  = (length (List.filter (onDay k) cs)
     + length (List.filter
         (λ c, bool_decide (toDateString (timestamp c) ∈ ks)) cs))%nat.
Proof.
  intros Hk. induction cs as [|c cs IH]; [done|]. cbn [List.filter].
  unfold onDay at 1.
  destruct (decide (toDateString (timestamp c) = k)) as [E|E].
  - rewrite bool_decide_eq_true_2 by (rewrite E; left).
    rewrite (bool_decide_eq_true_2 (_ = _)) by done.
    rewrite (bool_decide_eq_false_2 (_ ∈ ks)) by by rewrite E.
    simpl. by rewrite IH.
  - rewrite (bool_decide_eq_false_2 (_ = _)) by done.
    destruct (decide (toDateString (timestamp c) ∈ ks)) as [I|I].
    + rewrite !bool_decide_eq_true_2 by (done || by right).
      simpl. rewrite IH. lia.
    + rewrite !bool_decide_eq_false_2; [done|done|].
      intros [?|?]%elem_of_cons; done.
Qed.

Lemma sizes_partition cs (groups : GroupMap) :
  NoDup groups.*1 → Forall (group_ok cs) groups →
  groupSizes groups.*2
  = length (List.filter
      (λ c, bool_decide (toDateString (timestamp c) ∈ groups.*1)) cs).
Proof.
  intros Hnd Hok. induction Hok as [|[k g] groups (_ & Hc & _) _ IH].
  - rewrite filter_none; [done|]. intros c _.
    apply bool_decide_eq_false_2, not_elem_of_nil.
  - rewrite !fmap_cons in *. apply NoDup_cons in Hnd as [Hk Hnd].
    cbn [fst snd] in *. rewrite count_split by done.
    unfold groupSizes in *. simpl. by rewrite IH, Hc.
Qed.

Lemma NoDup_fmap_eq {A B} (f : A → B) (l : list A) x y :
  NoDup (f <$> l) → x ∈ l → y ∈ l → f x = f y → x = y.
Proof.
  intros Hnd [i Hi]%list_elem_of_lookup [j Hj]%list_elem_of_lookup E.
  assert (i = j) as ->; [|congruence].
  apply (NoDup_lookup (f <$> l) i j (f x) Hnd);
    rewrite list_lookup_fmap; [by rewrite Hi|by rewrite Hj, E].
Qed.

Lemma StronglySorted_weaken {A} (R S' : A → A → Prop) (l : list A) :
  (∀ a b, R a b → S' a b) → StronglySorted R l → StronglySorted S' l.
Proof.
  intros HR. induction 1 as [|x l _ IH Hx]; constructor; [done|].
  eapply Forall_impl; [exact Hx|]. intros y. apply HR.
Qed.

Lemma compare_newest_key a b :
  (compare_newest a b
   == inject_Z (getTime (date b)) - inject_Z (getTime (date a)))%Q.
Proof.
  unfold compare_newest, Qminus, Z.sub.
  by rewrite inject_Z_plus, inject_Z_opp.
Qed.

Lemma newest_first (l : list TimelineGroup) :
  NoDup (date <$> l) → Forall (λ g, valid (date g)) l →
  StronglySorted (λ a b, getTime (date b) ≤ getTime (date a)) l →
  StronglySorted (λ a b, date_lt (date b) (date a)) l.
Proof.
  intros Hnd Hv Hs.
  induction Hs as [|x l Hs IH Hx]; constructor.
  - rewrite fmap_cons in Hnd. apply NoDup_cons in Hnd as [_ Hnd].
    apply Forall_cons in Hv as [_ Hv]. by apply IH.
  - rewrite fmap_cons in Hnd. apply NoDup_cons in Hnd as [Hn _].
    apply Forall_cons in Hv as [Hvx Hv].
    rewrite Forall_forall in Hx, Hv. apply Forall_forall. intros y Hy.
    apply getTime_newer; [done|by apply Hv| |by apply Hx].
    intros E. apply Hn. rewrite E. by apply list_elem_of_fmap_2.
Qed.

(** C9. The daily groups partition the filtered commits: a commit is in
    exactly one group, the one whose date is the calendar day of its
    timestamp; a group holds the commits of its day and no day has two
    groups, so the group sizes add up to the number of filtered commits;
    the author list of a group names each distinct non-empty author of
    its commits once; and the groups come newest day first. *)
Theorem C9_timeline_partition (filteredCommits : list CommitData) :
  let out := timelineGroups filteredCommits in
  (∀ c, c ∈ filteredCommits →
     ∃ g, g ∈ out ∧ date g = timestamp c ∧ c ∈ commits g
          ∧ ∀ g', g' ∈ out → c ∈ commits g' → g' = g)
  ∧ (∀ g, g ∈ out →
       commits g
       = List.filter (λ c, bool_decide (timestamp c = date g))
           filteredCommits
       ∧ commits g ≠ [])
  ∧ NoDup (date <$> out)
  ∧ sum_list_with (λ g, length (commits g)) out = length filteredCommits
  ∧ (∀ g, g ∈ out →
       NoDup (uniqueAuthors g)
       ∧ ∀ a, a ∈ uniqueAuthors g
              ↔ a ≠ "" ∧ ∃ c, c ∈ commits g ∧ author_name c = Some a)
  ∧ StronglySorted (λ a b, getTime (date b) ≤ getTime (date a)) out
  ∧ (Forall (λ c, valid (timestamp c)) filteredCommits →
     StronglySorted (λ a b, date_lt (date b) (date a)) out).
Proof.
  intros out. set (cs := filteredCommits).
  set (gm := foldl addCommit [] cs).
  assert (Hperm : out ≡ₚ gm.*2) by apply Array_sort_perm.
  destruct (foldl_addCommit_grouped [] cs [] grouped_nil)
    as (Hnd & Hok & Hin & Hfrom).
  fold gm in Hnd, Hok, Hin, Hfrom. simpl in Hin, Hfrom.
  assert (Hdates : NoDup (date <$> out)).
  { rewrite Hperm, (group_dates cs) by done. done. }
  assert (Hg : ∀ g, g ∈ out → (date g, g) ∈ gm ∧ group_ok cs (date g, g)).
  { intros g Hgo. rewrite Hperm in Hgo.
    apply list_elem_of_fmap in Hgo as ([k g'] & -> & Hkg).
    rewrite Forall_forall in Hok. pose proof (Hok _ Hkg) as Hk.
    destruct Hk as (Hd & _). simpl in *. subst k. auto. }
  assert (Hmem : ∀ g c, g ∈ out → c ∈ commits g →
                        date g = toDateString (timestamp c)).
  { intros g c Hgo Hc. destruct (Hg g Hgo) as (_ & _ & Hcs & _).
    simpl in Hcs. rewrite Hcs, list_elem_of_In, filter_In in Hc.
    destruct Hc as [_ Hc]. unfold onDay in Hc.
    by apply bool_decide_eq_true_1 in Hc. }
  assert (Hsorted :
    StronglySorted (λ a b, getTime (date b) ≤ getTime (date a)) out).
  { pose proof (Array_sort_desc compare_newest
      (λ g, inject_Z (getTime (date g))) compare_newest_key gm.*2) as Hs.
    eapply StronglySorted_weaken; [|exact Hs].
    intros a b Hab. simpl in Hab. by rewrite Zle_Qle. }
  split; [|split; [|split; [done|split; [|split; [|split; [done|]]]]]].
  - intros c Hc. pose proof (Hin c Hc) as Hk.
    apply list_elem_of_fmap in Hk as ([k g] & Hkd & Hkg). simpl in Hkd.
    assert (Hgo : g ∈ out).
    { rewrite Hperm. apply list_elem_of_fmap. by exists (k, g). }
    rewrite Forall_forall in Hok.
    destruct (Hok _ Hkg) as (Hd & Hcs & _). simpl in *.
    unfold toDateString in Hkd.
    exists g. split; [done|]. split; [congruence|]. split.
    + rewrite Hcs, list_elem_of_In, filter_In, <- list_elem_of_In.
      split; [done|]. unfold onDay. by apply bool_decide_eq_true_2.
    + intros g' Hgo' Hc'. apply (NoDup_fmap_eq date out); try done.
      rewrite (Hmem g' c Hgo' Hc'). unfold toDateString. congruence.
  - intros g Hgo. destruct (Hg g Hgo) as (Hkg & _ & Hcs & _).
    simpl in Hcs. split; [done|].
    destruct (Hfrom (date g)) as (c & Hc & E).
    { apply list_elem_of_fmap. by exists (date g, g). }
    intros Hnil. rewrite Hcs in Hnil.
    assert (Hi : In c (List.filter (onDay (date g)) cs)).
    { apply filter_In. rewrite <- list_elem_of_In. split; [done|].
      unfold onDay. by apply bool_decide_eq_true_2. }
    by rewrite Hnil in Hi.
  - rewrite Hperm.
    fold (groupSizes gm.*2). rewrite (sizes_partition cs) by done.
    rewrite filter_all; [done|]. intros c Hc.
    by apply bool_decide_eq_true_2, Hin.
  - intros g Hgo. by destruct (Hg g Hgo) as (_ & _ & _ & Ha).
  - intros Hv. apply newest_first; [done| |done].
    apply Forall_forall. intros g Hgo. destruct (Hg g Hgo) as (Hkg & _).
    destruct (Hfrom (date g)) as (c & Hc & <-).
    { apply list_elem_of_fmap. by exists (date g, g). }
    rewrite Forall_forall in Hv. by apply Hv.
Qed.

End TimelineFacts.

Section HeatmapCases.
Import Calendar Commit Heatmap Examples.

(** C6, as stated, fails: on 3 November 2026, with a single commit of
    March 2024, the heatmap is not for the twelve months that end at the
    month of the latest commit. *)
Lemma C6_counterexample :
  ¬ coversLatestCommit third_of_november [march_2024].
Proof.
  intros (last & Hlast & Hw). vm_compute in Hlast.
  injection Hlast as <-. vm_compute in Hw. discriminate.
Qed.

Lemma C6_witness :
  yearMonth <$> windowDates third_of_november
  = trailing12 (monthIndex third_of_november)
  ∧ length (heatmapData third_of_november [march_2024; march_2025])
    = 12%nat.
Proof.
  assert (Hd : day third_of_november ≤ 28) by (vm_compute; discriminate).
  assert (Hc : Forall (λ c, 0 ≤ Calendar.month (timestamp c) ≤ 11)
                 [march_2024; march_2025])
    by (repeat constructor; vm_compute; discriminate).
  pose proof (C6_heatmap_window third_of_november
                [march_2024; march_2025] Hd Hc) as H.
  exact (conj (proj1 H) (proj1 (proj2 (proj2 H)))).
Defined.

(** C7. On 31 December 2025 the loop meets March, May, July, October and
    December twice and leaves out five months, so the single commit of
    March 2025 is counted twice: the bucket counts add up to 2 although
    the data holds one commit. *)
Theorem C7_total_counts_twice :
  valid last_of_december
  ∧ yearMonth <$> windowDates last_of_december
    = [(2025, 0); (2025, 2); (2025, 2); (2025, 4); (2025, 4); (2025, 6);
       (2025, 6); (2025, 7); (2025, 9); (2025, 9); (2025, 11); (2025, 11)]
  ∧ totalCount (heatmapData last_of_december [march_2025]) = 2
  ∧ countWindow (yearMonth <$> windowDates last_of_december) [march_2025]
    = 1
  ∧ countWindow (trailing12 (monthIndex last_of_december)) [march_2025]
    = 1.
Proof. by vm_compute. Qed.

End HeatmapCases.

(** ** Activity level *)

Section ActivityFacts.
Import Activity.

Lemma share_le (n mx c : Z) (d : positive) :
  Qle_bool ((n # d) * inject_Z mx) (inject_Z c)
  = bool_decide (n * mx ≤ Z.pos d * c).
Proof.
  assert (H : Qle_bool ((n # d) * inject_Z mx) (inject_Z c) = true
              ↔ n * mx ≤ Z.pos d * c).
  { rewrite Qle_bool_iff. unfold Qle, Qmult, inject_Z. simpl. lia. }
  destruct (Qle_bool _ _); symmetry.
  - by apply bool_decide_eq_true_2, H.
  - apply bool_decide_eq_false_2. intros ?%H. done.
Qed.

Lemma window_max_nonneg counts : 0 ≤ window_max counts.
Proof. unfold window_max. induction counts; simpl; lia. Qed.

Lemma activity_level_spec (c mx : Z) :
  0 ≤ mx →
  (c = 0 → activity_level c mx = low)
  ∧ (c ≠ 0 → 75 * mx ≤ 100 * c → activity_level c mx = high)
  ∧ (c ≠ 0 → 35 * mx ≤ 100 * c → 100 * c < 75 * mx →
     activity_level c mx = medium)
  ∧ (100 * c < 35 * mx → activity_level c mx = low).
Proof.
  intros Hmx. unfold activity_level. rewrite !share_le.
  destruct (Z.eqb_spec c 0) as [->|Hc]; repeat case_bool_decide;
    repeat split; intros; first [done|lia].
Qed.

Lemma window_max_ub counts c : c ∈ counts → c ≤ window_max counts.
Proof.
  unfold window_max. induction counts as [|x l IH]; [by intros ?%elem_of_nil|].
  intros [->|H]%elem_of_cons; simpl; [lia|]. specialize (IH H). lia.
Qed.

Lemma window_max_elem counts :
  counts ≠ [] → Forall (λ c, 0 ≤ c) counts → window_max counts ∈ counts.
Proof.
  unfold window_max. intros Hne Hnn.
  induction Hnn as [|x l Hx Hl IH]; [done|]. simpl.
  destruct l as [|y l].
  - simpl. rewrite Z.max_l by lia. left.
  - destruct (Z.max_spec x (foldr Z.max 0 (y :: l))) as [[_ ->]|[_ ->]].
    + right. by apply IH.
    + left.
Qed.

(** C8. The level of a month of the window is [high] when its count is at
    least 75% of the maximum count of the window, [medium] when it is at
    least 35% of it, and [low] otherwise; a month without commits is
    [low] whatever the maximum.  The maximum is the count of a month of
    the window that no month of the window exceeds. *)
Theorem C8_activity_level (counts : list Z) (i : nat) (c : Z) :
  Forall (λ c, 0 ≤ c) counts →
  counts !! i = Some c →
  ∃ mx l,
    mx ∈ counts ∧ (∀ c', c' ∈ counts → c' ≤ mx)
    ∧ window_levels counts !! i = Some (c, l)
    ∧ (c = 0 → l = low)
    ∧ (c ≠ 0 → 75 * mx ≤ 100 * c → l = high)
    ∧ (c ≠ 0 → 35 * mx ≤ 100 * c → 100 * c < 75 * mx → l = medium)
    ∧ (100 * c < 35 * mx → l = low).
Proof.
  intros Hnn Hi.
  exists (window_max counts), (activity_level c (window_max counts)).
  split; [|split; [|split]].
  - apply window_max_elem; [|done]. intros ->. done.
  - intros c'. apply window_max_ub.
  - unfold window_levels. by rewrite list_lookup_fmap, Hi.
  - apply activity_level_spec, window_max_nonneg.
Qed.

Lemma C8_witness :
  window_levels Examples.window_counts !! 5%nat = Some (4, medium).
Proof.
  assert (Hnn : Forall (λ c, 0 ≤ c) Examples.window_counts)
    by (repeat constructor; by vm_compute).
  destruct (C8_activity_level Examples.window_counts 5 4 Hnn eq_refl)
    as (mx & l & Hin & Hub & Hl & _ & _ & Hmed & _).
  assert (Hmx : mx = 10).
  { pose proof (Hub 10) as H10.
    assert (mx ≤ 10).
    { unfold Examples.window_counts in Hin.
      repeat (apply elem_of_cons in Hin as [->|Hin]; [lia|]).
      by apply elem_of_nil in Hin. }
    assert (10 ≤ mx); [|lia]. apply H10. unfold Examples.window_counts.
    do 3 right. left. }
  rewrite Hl. do 2 f_equal. apply Hmed; lia.
Defined.

(** Every derived level has a colour of its own in the summary view. *)
Lemma getActivityColor_level l :
  getActivityColor (level_name l) ≠ "bg-gray-100 border-gray-200".
Proof. by destruct l. Qed.

End ActivityFacts.

(** ** Chat *)

Section ChatFacts.
Import Chat.
Context (Graph : Type) (assembleContext : Graph → string → string).
Context (complete : string → Completion).
Context (prompt : string → string → list string → string).

(** C2. When the completion call fails or returns empty content the
    answer to a chat question is the assembled context, and no outcome of
    the call reaches the caller as a raw error. *)
Theorem C2_chat_fallback (g : Graph) (question : string)
    (history : list string) :
  let context := assembleContext g question in
  let outcome := complete (prompt context question history) in
  (∃ e, outcome = Fails e) ∨ outcome = Text "" →
  answerQuestion Graph assembleContext complete prompt g question history
  = Answer context
  ∧ ∀ e, answerQuestion Graph assembleContext complete prompt g question
           history ≠ RawError e.
Proof.
  intros context outcome H. unfold answerQuestion.
  fold context. fold outcome. split.
  - by destruct H as [[e ->]| ->].
  - intros e. destruct outcome as [t|]; [|done]. by destruct (String.eqb t "").
Qed.

(** A reply that carries a non-empty text is shown as it is, and the
    error state stays clear. *)
Lemma handleSendMessage_shows_answer status t :
  t ≠ "" →
  handleSendMessage (mkResponse true status (Some t)) = (t, None).
Proof.
  intros Ht. unfold handleSendMessage. simpl.
  by destruct (String.eqb_spec t "").
Qed.

(** The message shown is the text of the reply or one of the two
    apologies. *)
Lemma handleSendMessage_content r :
  (handleSendMessage r).1 = apology_error
  ∨ (handleSendMessage r).1 = apology_empty
  ∨ response r = Some (handleSendMessage r).1.
Proof.
  unfold handleSendMessage. destruct (ok r); [|by left]. right.
  destruct (response r) as [t|]; simpl; [|by left].
  destruct (String.eqb t ""); simpl; [by left|by right].
Qed.

End ChatFacts.

Lemma C2_witness :
  Chat.answerQuestion unit (λ _ q, "Recent commits about " +:+ q)
    (λ _, Chat.Fails Chat.CompletionTimeout) (λ c q _, c +:+ q) ()
    "parser" []
  = Chat.Answer "Recent commits about parser".
Proof.
  refine (proj1 (C2_chat_fallback unit (λ _ q, "Recent commits about " +:+ q)
                   (λ _, Chat.Fails Chat.CompletionTimeout) (λ c q _, c +:+ q)
                   () "parser" [] _)).
  left. by exists Chat.CompletionTimeout.
Defined.

(** ** The scorecard view *)

Section ScorecardViewFacts.
Import JS Scorecard ScorecardView.

Lemma foldl_sum_nonneg {A} (f : A → Z) (l : list A) (a : Z) :
  0 ≤ a → Forall (λ x, 0 ≤ f x) l → 0 ≤ foldl (λ sum x, sum + f x) a l.
Proof.
  intros Ha Hl. revert a Ha.
  induction Hl as [|x l Hx _ IH]; intros a Ha; simpl; [done|].
  apply IH. lia.
Qed.

Lemma totals_nonneg developers :
  Forall counts_ok developers →
  0 ≤ sumCommits developers ∧ 0 ≤ sumLinesChanged developers.
Proof.
  intros H. split.
  - apply foldl_sum_nonneg; [done|].
    eapply Forall_impl; [exact H|]. by intros d (? & _).
  - unfold sumLinesChanged.
    assert (E : ∀ l a,
      foldl (λ sum d, sum + lines_added d + lines_removed d) a l
      = foldl (λ sum d, sum + (lines_added d + lines_removed d)) a l).
    { induction l as [|d l IH]; intros a; simpl; [done|].
      rewrite IH. f_equal. lia. }
    rewrite E. apply foldl_sum_nonneg; [done|].
    eapply Forall_impl; [exact H|]. intros d (_ & ? & ?). lia.
Qed.

Lemma inject_Z_nonneg z : 0 ≤ z → (0 <= inject_Z z)%Q.
Proof. intros H. change 0%Q with (inject_Z 0). by rewrite <- Zle_Qle. Qed.

Lemma fmul_nonneg (a b : Q) : (0 <= a)%Q → (0 <= b)%Q → (0 <= fmul a b)%Q.
Proof. intros Ha Hb. by apply fl_nonneg, Qmult_le_0_compat. Qed.

Lemma fdiv_nonneg (a b : Q) : (0 <= a)%Q → (0 < b)%Q → (0 <= fdiv a b)%Q.
Proof.
  intros Ha Hb. apply fl_nonneg. apply Qle_shift_div_l; [done|].
  by rewrite Qmult_0_l.
Qed.

Lemma share_nonneg (c t : Z) (n : nat) :
  0 ≤ c →
  (0 <= fmul (fmul (fdiv (inject_Z c) (inject_Z (Math_max t 1))) 100)
          (inject_Z (Z.of_nat n)))%Q.
Proof.
  intros Hc. unfold Math_max.
  apply fmul_nonneg; [|apply inject_Z_nonneg; lia].
  apply fmul_nonneg; [|done].
  apply fdiv_nonneg; [by apply inject_Z_nonneg|].
  change 0%Q with (inject_Z 0). rewrite <- Zlt_Qlt. lia.
Qed.

(** The four scores of a developer with non-negative counts lie between 0
    and 100. *)
Lemma score_range developers i d :
  counts_ok d →
  let s := score developers i d in
  Forall (λ x, 0 <= x ∧ x <= 100)%Q
    [productivity_score s; impact_score s; consistency_score s;
     collaboration_score s].
Proof.
  intros (Hc & Ha & Hr).
  cbn [score productivity_score impact_score consistency_score
       collaboration_score].
  unfold Math_min.
  constructor; [|constructor; [|constructor; [|constructor; [|constructor]]]];
    (split; [|try apply Q.le_min_l]).
  - apply Q.min_glb; [done|]. by apply share_nonneg.
  - apply Q.min_glb; [done|]. apply share_nonneg. lia.
  - destruct (0 <? total_commits d); [|done].
    apply Q.min_glb; [done|]. apply fmul_nonneg; [|done].
    apply fdiv_nonneg; [by apply inject_Z_nonneg|done].
  - destruct (0 <? total_commits d); [apply Q.le_min_l|done].
  - apply Q.min_glb; [done|]. apply fmul_nonneg; [|done].
    apply inject_Z_nonneg. lia.
Qed.

Lemma Math_round_percent (x : Q) :
  (0 <= x)%Q → (x <= 100)%Q → 0 ≤ Math_round x ≤ 100.
Proof.
  intros H0 H1. unfold Math_round. split.
  - change 0 with (Qfloor (0 + (1 # 2))) at 1.
    by apply Qfloor_resp_le, Qplus_le_l.
  - change 100 with (Qfloor (100 + (1 # 2))).
    by apply Qfloor_resp_le, Qplus_le_l.
Qed.

Lemma counts_ok_lookup developers i d :
  Forall counts_ok developers → developers !! i = Some d → counts_ok d.
Proof. intros H Hi. eapply Forall_lookup_1; eauto. Qed.

(** Every card of the ranking keeps the scores of a developer. *)
Lemma card_range developers sortBy e :
  Forall counts_ok developers → e ∈ scorecards developers sortBy →
  Forall (λ x, 0 <= x ∧ x <= 100)%Q
    [productivity_score e; impact_score e; consistency_score e;
     collaboration_score e].
Proof.
  intros Hok (i & j & d & Hd & ->)%scorecards_elem.
  exact (score_range developers i d (counts_ok_lookup _ _ _ Hok Hd)).
Qed.

(** X1. With non-negative commit and line counts every score the ranking
    holds lies between 0 and 100, so a score bar is as wide as the score
    (its cap at 100 never cuts a score) and prints a whole number from 0 to
    100. *)
Theorem X1_scores_fit_the_bar (developers : list Developer)
    (sortBy : SortBy) (e : ScorecardData) :
  Forall counts_ok developers →
  e ∈ scorecards developers sortBy →
  Forall (λ x, (0 <= x)%Q ∧ (x <= 100)%Q
               ∧ (ScoreBar_width x == x)%Q
               ∧ 0 ≤ ScoreBar_label x ≤ 100)
    [productivity_score e; impact_score e; consistency_score e;
     collaboration_score e].
Proof.
  intros Hok (i & j & d & Hd & ->)%scorecards_elem.
  pose proof (score_range developers i d
                (counts_ok_lookup _ _ _ Hok Hd)) as H.
  cbv zeta in H. cbn [productivity_score impact_score consistency_score
    collaboration_score set_rank].
  eapply Forall_impl; [exact H|]. intros x [H0 H1].
  split; [done|]. split; [done|]. split.
  - unfold ScoreBar_width, Math_min. by apply Q.min_l.
  - by apply Math_round_percent.
Qed.

Lemma cohort10_counts_ok : Forall counts_ok Examples.cohort10.
Proof. repeat constructor; by vm_compute. Defined.

Lemma X1_witness :
  Forall (λ x, (0 <= x)%Q ∧ (x <= 100)%Q
               ∧ (ScoreBar_width x == x)%Q
               ∧ 0 ≤ ScoreBar_label x ≤ 100)
    [productivity_score Examples.lead_card;
     impact_score Examples.lead_card;
     consistency_score Examples.lead_card;
     collaboration_score Examples.lead_card].
Proof.
  exact (X1_scores_fit_the_bar Examples.cohort10 by_total_commits
           Examples.lead_card cohort10_counts_ok lead_card_ranked).
Defined.

(** X2. The sort field only reorders the cards and renumbers the ranks:
    whatever the field, the ranking has one card per developer, and apart
    from the rank the cards (developer, four scores, grade) are the same. *)
Theorem X2_sort_field_only_reorders (developers : list Developer)
    (s1 s2 : SortBy) :
  length (scorecards developers s1) = length developers
  ∧ set_rank 0 <$> scorecards developers s1
    ≡ₚ set_rank 0 <$> scorecards developers s2.
Proof.
  assert (H : ∀ sb, set_rank 0 <$> scorecards developers sb
                    ≡ₚ set_rank 0 <$> scored developers).
  { intros sb. unfold scorecards.
    rewrite (imap_fmap_const _ (set_rank 0) (set_rank 0)); [|done].
    by rewrite Array_sort_perm. }
  split; [|by rewrite !H].
  unfold scorecards, scored.
  by rewrite length_imap, Array_sort_perm, length_imap.
Qed.

Lemma filter_head {A} (P : A → bool) (l : list A) h t :
  List.filter P l = h :: t →
  ∃ l1 l2, l = l1 ++ h :: l2 ∧ Forall (λ x, P x = false) l1 ∧ P h = true.
Proof.
  induction l as [|x l IH]; [done|]. cbn [List.filter].
  destruct (P x) eqn:E.
  - intros [= -> <-]. by exists [], l.
  - intros (l1 & l2 & -> & Hl1 & Hh)%IH.
    exists (x :: l1), l2. by repeat constructor.
Qed.

Lemma Qeq_bool_refl (q : Q) : Qeq_bool q q = true.
Proof. by apply Qeq_bool_iff. Qed.

(** X3. The top performer named above the ranking: with no developer it
    reads N/A; otherwise the first card has rank 1, no card has a higher
    value of the sort field, and it is the card of the earliest developer
    of the input whose value is the highest. *)
Theorem X3_top_performer (developers : list Developer) (sortBy : SortBy) :
  let field (s : ScorecardData) : Q :=
    match sortBy with
    | by_contribution_score => contribution_score (dev s)
    | by_total_commits => inject_Z (total_commits (dev s))
    | by_productivity => productivity_score s
    | by_impact => impact_score s
    end in
  topPerformer (scorecards [] sortBy) = "N/A"
  ∧ (developers ≠ [] →
     ∃ top i,
       scorecards developers sortBy !! 0%nat = Some top
       ∧ rank top = 1%nat
       ∧ (∀ e, e ∈ scorecards developers sortBy →
            (field e <= field top)%Q)
       ∧ developers !! i = Some (dev top)
       ∧ (∀ j d, (j < i)%nat → developers !! j = Some d →
            (field (score developers j d) < field top)%Q)
       ∧ (name (dev top) ≠ "" →
          topPerformer (scorecards developers sortBy) = name (dev top))).
Proof.
  intros field. change field with (sort_key sortBy).
  split; [done|]. intros Hne.
  assert (Hk : ∀ a b : ScorecardData,
    ((λ a b, sort_key sortBy b - sort_key sortBy a) a b
     == sort_key sortBy b - sort_key sortBy a)%Q)
    by done.
  pose proof (Array_sort_perm
                (λ a b, sort_key sortBy b - sort_key sortBy a)%Q
                (scored developers))
    as Hperm.
  pose proof (Array_sort_desc _ (sort_key sortBy) Hk (scored developers))
    as Hsorted.
  pose proof (Array_sort_ties _ (sort_key sortBy) Hk) as Hties.
  unfold scorecards. rewrite scorecards_sort.
  destruct (Array_sort (λ a b, sort_key sortBy b - sort_key sortBy a)%Q
              (scored developers))
    as [|h rest] eqn:Es.
  { apply Permutation_nil_l in Hperm. unfold scored in Hperm.
    apply (f_equal length) in Hperm. rewrite length_imap in Hperm.
    by destruct developers. }
  specialize (Hties (sort_key sortBy h) (scored developers)).
  rewrite Es in Hties. unfold ties in Hties. cbn [List.filter] in Hties.
  rewrite Qeq_bool_refl in Hties. symmetry in Hties.
  apply filter_head in Hties as (l1 & l2 & Hsplit & Hl1 & _).
  apply StronglySorted_inv in Hsorted as [_ Hall].
  assert (Hle : ∀ s, s ∈ scored developers →
                     (sort_key sortBy s <= sort_key sortBy h)%Q).
  { intros s Hs. rewrite <- Hperm in Hs.
    apply elem_of_cons in Hs as [->|Hs]; [apply Qle_refl|].
    rewrite Forall_forall in Hall. by apply Hall. }
  assert (Hh : scored developers !! length l1 = Some h).
  { rewrite Hsplit. by rewrite list_lookup_middle. }
  unfold scored in Hh. rewrite list_lookup_imap in Hh.
  destruct (developers !! length l1) as [d|] eqn:Ed; [|done].
  injection Hh as Hh.
  exists (set_rank 0 h), (length l1). cbn [imap]. rewrite !set_rank_key.
  split; [done|]. split; [done|]. split; [|split; [|split]].
  - intros e [->|He]%elem_of_cons.
    + rewrite set_rank_key. apply Qle_refl.
    + apply list_elem_of_lookup in He as [j Hj].
      rewrite list_lookup_imap in Hj.
      destruct (rest !! j) as [s|] eqn:Er; [|done]. injection Hj as <-.
      rewrite set_rank_key. rewrite Forall_forall in Hall.
      apply Hall. by eapply list_elem_of_lookup_2.
  - simpl. by rewrite <- Hh.
  - intros j d' Hj Hd'.
    assert (Hs : scored developers !! j = Some (score developers j d')).
    { unfold scored. by rewrite list_lookup_imap, Hd'. }
    assert (Hin : score developers j d' ∈ l1).
    { rewrite Hsplit, lookup_app_l in Hs by done.
      by eapply list_elem_of_lookup_2. }
    rewrite Forall_forall in Hl1. pose proof (Hl1 _ Hin) as Hneq.
    assert (Hle' : (sort_key sortBy (score developers j d')
                    <= sort_key sortBy h)%Q)
      by (apply Hle; by eapply list_elem_of_lookup_2).
    apply Qle_lteq in Hle' as [Hlt|Heq]; [done|].
    apply Qeq_bool_iff in Heq. congruence.
  - intros Hname. unfold topPerformer, truthy. simpl.
    by destruct (String.eqb_spec (name (dev h)) "").
Qed.

Lemma X3_witness :
  ∃ top i,
    scorecards Examples.trio by_productivity !! 0%nat = Some top
    ∧ rank top = 1%nat
    ∧ (∀ e, e ∈ scorecards Examples.trio by_productivity →
         (productivity_score e <= productivity_score top)%Q)
    ∧ Examples.trio !! i = Some (dev top)
    ∧ (∀ j d, (j < i)%nat → Examples.trio !! j = Some d →
         (productivity_score (score Examples.trio j d)
          < productivity_score top)%Q)
    ∧ (name (dev top) ≠ "" →
       topPerformer (scorecards Examples.trio by_productivity)
       = name (dev top)).
Proof.
  apply (X3_top_performer Examples.trio by_productivity).
  discriminate.
Defined.

(** X4. The two strengths of a developer are read off the two highest of
    the four scores and the two improvements off the two lowest: the two
    halves share no score, together they are the four scores, no score
    behind an improvement is higher than a score behind a strength, and
    every label is one of the fixed texts (never a raw key). *)
Theorem X4_strengths_and_improvements (s : ScorecardData) :
  let high := slice_first 2 (sortedScores s) in
  let low := slice_last 2 (sortedScores s) in
  length high = 2%nat ∧ length low = 2%nat
  ∧ high ++ low ≡ₚ scores s
  ∧ (∀ a b, a ∈ high → b ∈ low → a.1 ≠ b.1 ∧ (b.2 <= a.2)%Q)
  ∧ strengths s ⊆ ["High Commit Frequency"; "High Code Impact";
                    "Consistent Contributor"; "Multi-domain Expertise"]
  ∧ improvements s ⊆ ["Increase Commit Frequency";
                       "Expand Code Contributions";
                       "More Consistent Activity";
                       "Diversify Expertise Areas"].
Proof.
  assert (Hk : ∀ a b : string * Q,
    ((λ a b : string * Q, b.2 - a.2) a b == b.2 - a.2)%Q) by done.
  assert (Hex : sortedScores s
                = Array_sort (λ a b : string * Q, (b.2 - a.2)%Q) (scores s)).
  { apply Array_sort_ext. intros a b. apply fsub_sign. }
  pose proof (Array_sort_perm (λ a b : string * Q, (b.2 - a.2)%Q) (scores s))
    as Hperm.
  pose proof (Array_sort_desc _ snd Hk (scores s)) as Hsorted.
  rewrite <- Hex in Hperm, Hsorted.
  unfold strengths, improvements, slice_first, slice_last.
  destruct (sortedScores s) as [|a [|b [|c [|d [|? ?]]]]] eqn:Es;
    try (apply Permutation_length in Hperm; simpl in Hperm; lia).
  cbn [length take drop Nat.sub app].
  assert (Hkeys : a.1 :: b.1 :: c.1 :: [d.1]
                  ≡ₚ ["productivity"; "impact"; "consistency";
                      "collaboration"]).
  { change (fst <$> [a; b; c; d] ≡ₚ fst <$> scores s). by rewrite Hperm. }
  assert (Hnd : NoDup [a.1; b.1; c.1; d.1]).
  { rewrite Hkeys. apply (bool_decide_unpack _). by vm_compute. }
  assert (Hlab : ∀ x, x ∈ [a; b; c; d] →
    strengthLabel x.1 ∈ ["High Commit Frequency"; "High Code Impact";
                          "Consistent Contributor"; "Multi-domain Expertise"]
    ∧ improvementLabel x.1 ∈ ["Increase Commit Frequency";
                               "Expand Code Contributions";
                               "More Consistent Activity";
                               "Diversify Expertise Areas"]).
  { intros x Hx.
    assert (Hx1 : x.1 ∈ ["productivity"; "impact"; "consistency";
                         "collaboration"]).
    { rewrite <- Hkeys. change (x.1 ∈ fst <$> [a; b; c; d]).
      by apply list_elem_of_fmap_2. }
    repeat (apply elem_of_cons in Hx1 as [->|Hx1];
            [split; apply (bool_decide_unpack _); by vm_compute|]).
    by apply elem_of_nil in Hx1. }
  apply StronglySorted_inv in Hsorted as [Hs1 Ha].
  apply StronglySorted_inv in Hs1 as [_ Hb].
  apply Forall_cons in Ha as [_ Ha].
  apply Forall_cons in Ha as [Hac Ha]. apply Forall_cons in Ha as [Had _].
  apply Forall_cons in Hb as [Hbc Hb]. apply Forall_cons in Hb as [Hbd _].
  apply NoDup_cons in Hnd as [Hna Hnd]. apply NoDup_cons in Hnd as [Hnb _].
  split; [done|]. split; [done|]. split; [done|]. split; [|split].
  - intros x y Hx Hy.
    apply elem_of_cons in Hx as [->|Hx];
      [|apply list_elem_of_singleton in Hx as ->];
      (apply elem_of_cons in Hy as [->|Hy];
       [|apply list_elem_of_singleton in Hy as ->]);
      (split; [|done]); intros E;
      first [ solve [apply Hna; rewrite E; repeat constructor]
            | solve [apply Hnb; rewrite E; repeat constructor] ].
  - intros l Hl. apply list_elem_of_fmap in Hl as (x & -> & Hx).
    apply Hlab. apply elem_of_cons in Hx as [->|Hx];
      [|apply list_elem_of_singleton in Hx as ->]; repeat constructor.
  - intros l Hl. apply list_elem_of_fmap in Hl as (x & -> & Hx).
    apply Hlab. apply elem_of_cons in Hx as [->|Hx];
      [|apply list_elem_of_singleton in Hx as ->]; repeat constructor.
Qed.

(** The sum a [reduce] accumulates stays between 0 and 100 times the
    number of scores added, a whole number below 2^53. *)
Lemma foldl_fadd_bounds {A} (f : A → Q) (l : list A) (a : Q) (k : Z) :
  Forall (λ x, 0 <= f x ∧ f x <= 100)%Q l →
  0 ≤ k → 100 * (k + Z.of_nat (length l)) < 2 ^ 53 →
  (0 <= a)%Q → (a <= inject_Z (100 * k))%Q →
  (0 <= foldl (λ sum x, fadd sum (f x)) a l)%Q
  ∧ (foldl (λ sum x, fadd sum (f x)) a l
     <= inject_Z (100 * (k + Z.of_nat (length l))))%Q.
Proof.
  intros Hl. revert a k.
  induction Hl as [|x l [H0 H1] _ IH]; intros a k Hk Hlen Ha0 Ha1.
  - simpl. by rewrite Z.add_0_r.
  - cbn [foldl]. cbn [length] in *.
    replace (k + Z.of_nat (S (length l)))
      with ((k + 1) + Z.of_nat (length l)) in * by lia.
    apply IH; [lia|done| |].
    + apply fl_nonneg. lra.
    + apply fl_le; [lia|].
      replace (100 * (k + 1)) with (100 * k + 100) by lia.
      rewrite inject_Z_plus. change (inject_Z 100) with 100%Q. lra.
Qed.

Lemma scorecards_length developers sortBy :
  length (scorecards developers sortBy) = length developers.
Proof.
  unfold scorecards, scored.
  by rewrite length_imap, Array_sort_perm, length_imap.
Qed.

Lemma teamAverage_ok (f : ScorecardData → Q) (cards : list ScorecardData) :
  cards ≠ [] → Z.of_nat (length cards) < 2 ^ 32 →
  Forall (λ s, 0 <= f s ∧ f s <= 100)%Q cards →
  0 ≤ teamAverage f cards ≤ 100.
Proof.
  intros Hne Hlen Hall.
  destruct (foldl_fadd_bounds f cards 0 0 Hall) as [H0 H1];
    [done|lia|done|done|].
  unfold teamAverage.
  set (sum := foldl (λ sum d, fadd sum (f d)) 0%Q cards) in *.
  set (n := Z.of_nat (length cards)) in *.
  assert (Hn : (0 < inject_Z n)%Q).
  { change 0%Q with (inject_Z 0). rewrite <- Zlt_Qlt. unfold n.
    destruct cards; [done|]. simpl. lia. }
  replace (100 * (0 + n)) with (100 * n) in H1 by lia.
  rewrite inject_Z_mult in H1. change (inject_Z 100) with 100%Q in H1.
  apply Math_round_percent.
  - by apply fdiv_nonneg.
  - apply (fl_le _ 100); [done|]. change (inject_Z 100) with 100%Q.
    by apply Qle_shift_div_r.
Qed.

(** X5. The four team averages of the summary: with at least one developer
    and non-negative counts each average is a whole number from 0 to
    100. *)
Theorem X5_team_averages (developers : list Developer) (sortBy : SortBy)
    (f : ScorecardData → Q) :
  developers ≠ [] → Z.of_nat (length developers) < 2 ^ 32 →
  Forall counts_ok developers →
  f ∈ [productivity_score; impact_score; consistency_score;
       collaboration_score] →
  0 ≤ teamAverage f (scorecards developers sortBy) ≤ 100.
Proof.
  intros Hne Hlen Hok Hf. apply teamAverage_ok.
  - intros E. apply (f_equal length) in E.
    rewrite scorecards_length in E. by destruct developers.
  - by rewrite scorecards_length.
  - apply Forall_forall. intros e He.
    pose proof (card_range developers sortBy e Hok He) as Hr.
    repeat (apply elem_of_cons in Hf as [->|Hf];
      [repeat (apply Forall_cons in Hr as [? Hr]); done|]).
    by apply elem_of_nil in Hf.
Qed.

Lemma X5_witness :
  0 ≤ teamAverage impact_score
        (scorecards Examples.cohort10 by_total_commits) ≤ 100.
Proof.
  apply (X5_team_averages Examples.cohort10 by_total_commits).
  - discriminate.
  - by vm_compute.
  - exact cohort10_counts_ok.
  - right. left.
Defined.

(** The sum is taken in the order of the ranking, and doubles do not add
    up to the same in every order: the same four developers have an
    average consistency of 8 when ranked by contribution score and of 7
    when ranked by commits. *)
Lemma teamAverage_by_sort_field :
  teamAverage consistency_score
    (scorecards Examples.quartet by_contribution_score) = 8
  ∧ teamAverage consistency_score
      (scorecards Examples.quartet by_total_commits) = 7.
Proof. by vm_compute. Qed.

Lemma getGradeColor_grade (mean : Q) :
  ((80 <= mean)%Q → getGradeColor (grade_of mean)
                    = "text-green-600 bg-green-100")
  ∧ ((60 <= mean)%Q ∧ (mean < 80)%Q →
     getGradeColor (grade_of mean) = "text-blue-600 bg-blue-100")
  ∧ ((40 <= mean)%Q ∧ (mean < 60)%Q →
     getGradeColor (grade_of mean) = "text-yellow-600 bg-yellow-100")
  ∧ ((mean < 40)%Q →
     getGradeColor (grade_of mean) = "text-red-600 bg-red-100").
Proof.
  destruct (grade_of_spec mean) as (HAp & HA & HBp & HB & HCp & HC & HD).
  repeat split.
  - intros H. destruct (Qlt_le_dec mean 90);
      [rewrite HA by done|rewrite HAp by done]; done.
  - intros [H1 H2]. destruct (Qlt_le_dec mean 70);
      [rewrite HB by done|rewrite HBp by done]; done.
  - intros [H1 H2]. destruct (Qlt_le_dec mean 50);
      [rewrite HC by done|rewrite HCp by done]; done.
  - intros H. by rewrite HD.
Qed.

(** X6. The colour of the grade badge follows the mean of the four scores,
    as the arithmetic of doubles gives it: green from 80 up, blue from 60
    to below 80, yellow from 40 to below 60 and red below 40. *)
Theorem X6_grade_colour (developers : list Developer) (sortBy : SortBy)
    (e : ScorecardData) :
  e ∈ scorecards developers sortBy →
  let mean :=
    fdiv
      (fadd
         (fadd (fadd (productivity_score e) (impact_score e))
            (consistency_score e))
         (collaboration_score e))
      4 in
  ((80 <= mean)%Q →
   getGradeColor (overall_grade e) = "text-green-600 bg-green-100")
  ∧ ((60 <= mean)%Q ∧ (mean < 80)%Q →
     getGradeColor (overall_grade e) = "text-blue-600 bg-blue-100")
  ∧ ((40 <= mean)%Q ∧ (mean < 60)%Q →
     getGradeColor (overall_grade e) = "text-yellow-600 bg-yellow-100")
  ∧ ((mean < 40)%Q →
     getGradeColor (overall_grade e) = "text-red-600 bg-red-100").
Proof.
  intros (i & j & d & Hd & ->)%scorecards_elem.
  cbn [set_rank score productivity_score impact_score consistency_score
       collaboration_score overall_grade].
  unfold average_of. apply getGradeColor_grade.
Qed.

Lemma X6_witness :
  getGradeColor (overall_grade Examples.carol_card)
  = "text-yellow-600 bg-yellow-100".
Proof.
  pose proof (X6_grade_colour Examples.pair by_contribution_score
                Examples.carol_card carol_card_ranked) as H.
  cbv zeta in H. destruct H as (_ & _ & H & _). apply H.
  split; by vm_compute.
Defined.

End ScorecardViewFacts.

(** ** Heatmap insights *)

Section InsightsFacts.
Import JS Calendar Commit Heatmap Insights.

Lemma heatmap_counts_nonneg now commits :
  Forall (λ e, 0 ≤ commitCount e) (heatmapData now commits).
Proof.
  unfold heatmapData. apply Forall_fmap, Forall_forall. intros d _. simpl.
  rewrite monthlyCommits_lookup. apply countKey_nonneg.
Qed.

Lemma heatmap_length now commits :
  length (heatmapData now commits) = 12%nat.
Proof. done. Qed.

(** The running maximum of a scan that replaces the entry it holds only by
    a strictly larger one: it ends at the first entry of maximal count. *)
Lemma first_peak (a : ActivityHeatmapData) (l : list ActivityHeatmapData) :
  let r := foldl (λ max curr,
                    if commitCount max <? commitCount curr then curr
                    else max) a l in
  ∃ i, (a :: l) !! i = Some r
       ∧ (∀ e, e ∈ a :: l → commitCount e ≤ commitCount r)
       ∧ (∀ j e, (j < i)%nat → (a :: l) !! j = Some e →
            commitCount e < commitCount r).
Proof.
  induction l as [|x l IH] using rev_ind; simpl.
  - exists 0%nat. split; [done|]. split; [|intros; lia].
    by intros e ->%list_elem_of_singleton.
  - rewrite foldl_app. simpl.
    destruct IH as (i & Hi & Hmax & Hfirst).
    set (r := foldl _ a l) in *.
    assert (Hlt : (i < length (a :: l))%nat) by by eapply lookup_lt_Some.
    destruct (Z.ltb_spec (commitCount r) (commitCount x)) as [Hrx|Hrx].
    + exists (length (a :: l)). split; [|split].
      * rewrite (lookup_app_r (a :: l) [x]) by done.
        by rewrite Nat.sub_diag.
      * intros e [He| ->%list_elem_of_singleton]%(elem_of_app (a :: l));
          [|lia]. specialize (Hmax e He). lia.
      * intros j e Hj He.
        rewrite (lookup_app_l (a :: l) [x]) in He by done.
        apply list_elem_of_lookup_2 in He. specialize (Hmax e He). lia.
    + exists i. split; [|split].
      * by rewrite (lookup_app_l (a :: l) [x]).
      * intros e [He| ->%list_elem_of_singleton]%(elem_of_app (a :: l));
          [by apply Hmax|done].
      * intros j e Hj He. apply (Hfirst j e Hj).
        rewrite (lookup_app_l (a :: l) [x]) in He; [done|lia].
Qed.

Lemma peakCount_spec (h : list ActivityHeatmapData) (a : Z) :
  let r := foldl (λ max curr, Z.max max (commitCount curr)) a h in
  a ≤ r ∧ (∀ e, e ∈ h → commitCount e ≤ r)
  ∧ (r = a ∨ ∃ e, e ∈ h ∧ commitCount e = r).
Proof.
  revert a. induction h as [|x h IH]; intros a; simpl.
  - split; [done|]. split; [by intros e ?%elem_of_nil|by left].
  - destruct (IH (Z.max a (commitCount x))) as (Hge & Hall & Hor).
    split; [lia|]. split.
    + intros e [->|He]%elem_of_cons; [lia|by apply Hall].
    + destruct Hor as [Hr|(e & He & Hr)].
      * destruct (Z.max_spec a (commitCount x)) as [[_ Hm]|[_ Hm]].
        -- right. exists x. split; [left|]. by rewrite Hr, Hm.
        -- left. by rewrite Hr, Hm.
      * right. exists e. split; [by right|done].
Qed.

(** X7. The peak of the heatmap insights: the month named as the peak is
    the first of the twelve entries whose commit count no entry exceeds,
    and the count printed beside it is the count of that entry. *)
Theorem X7_peak_activity (now : JSDate) (commits : list CommitData) :
  let h := heatmapData now commits in
  ∃ e i, peakEntry h = Some e
         ∧ h !! i = Some e
         ∧ commitCount e = peakCount h
         ∧ (∀ e', e' ∈ h → commitCount e' ≤ commitCount e)
         ∧ (∀ j e', (j < i)%nat → h !! j = Some e' →
              commitCount e' < commitCount e).
Proof.
  intros h. pose proof (heatmap_counts_nonneg now commits) as Hnn.
  fold h in Hnn.
  destruct h as [|a l] eqn:Eh; [done|].
  pose proof (first_peak a l) as (i & Hi & Hmax & Hfirst).
  unfold peakEntry.
  assert (Ef : ∀ f : ActivityHeatmapData → ActivityHeatmapData
                     → ActivityHeatmapData,
    f a a = a → foldl f a (a :: l) = foldl f a l)
    by (intros f Hf; simpl; by rewrite Hf).
  rewrite Ef by by rewrite Z.ltb_irrefl.
  set (r := foldl _ a l) in *.
  exists r, i. split; [done|]. split; [done|]. split; [|done].
  pose proof (peakCount_spec (a :: l) 0) as (H0 & Hall & Hor).
  fold (peakCount (a :: l)) in H0, Hall, Hor.
  assert (Hr : r ∈ a :: l) by by eapply list_elem_of_lookup_2.
  rewrite Forall_forall in Hnn.
  pose proof (Hall r Hr). pose proof (Hnn r Hr).
  destruct Hor as [Hz|(e & He & Hz)]; [lia|].
  specialize (Hmax e He). lia.
Qed.

Lemma foldl_total (h : list ActivityHeatmapData) (a : Z) :
  foldl (λ sum curr, sum + commitCount curr) a h = a + totalCount h.
Proof.
  revert a. induction h as [|x h IH]; intros a; simpl; [lia|].
  rewrite IH. lia.
Qed.

Lemma active_le_total (h : list ActivityHeatmapData) :
  Forall (λ e, 0 ≤ commitCount e) h →
  activeMonths h ≤ totalCount h
  ∧ (totalCount h = 0 ↔ activeMonths h = 0)
  ∧ activeMonths h ≤ Z.of_nat (length h).
Proof.
  unfold activeMonths.
  induction 1 as [|x h Hx _ (IH1 & IH2 & IH3)]; [done|].
  cbn [List.filter totalCount foldr length].
  fold (totalCount h).
  destruct (Z.ltb_spec 0 (commitCount x)); simpl length; lia.
Qed.

Lemma Qfloor_half (p : Z) : Qfloor (inject_Z p + (1 # 2)) = p.
Proof.
  unfold Qfloor, Qplus, inject_Z. simpl.
  Z.div_mod_to_equations. lia.
Qed.

(** X8. The totals of the heatmap insights: the total is the sum of the
    twelve bucket counts; the number of active months is at most 12 and at
    most the total, and is 0 exactly when the total is 0; and the average
    per month lies between 0 and the peak count. *)
Theorem X8_activity_totals (now : JSDate) (commits : list CommitData) :
  let h := heatmapData now commits in
  totalActivity h = totalCount h
  ∧ 0 ≤ activeMonths h ≤ 12
  ∧ activeMonths h ≤ totalActivity h
  ∧ (totalActivity h = 0 ↔ activeMonths h = 0)
  ∧ 0 ≤ averagePerMonth h ≤ peakCount h.
Proof.
  intros h. pose proof (heatmap_counts_nonneg now commits) as Hnn.
  pose proof (heatmap_length now commits) as Hlen. fold h in Hnn, Hlen.
  assert (Ht : totalActivity h = totalCount h)
    by (unfold totalActivity; by rewrite foldl_total).
  destruct (active_le_total h Hnn) as (Ha1 & Ha2 & Ha3).
  rewrite Ht, Hlen in *.
  split; [done|]. split; [unfold activeMonths in *; lia|].
  split; [done|]. split; [done|].
  unfold averagePerMonth. rewrite Ht, Hlen.
  assert (Hp : 0 ≤ peakCount h ∧ ∀ e, e ∈ h → commitCount e ≤ peakCount h).
  { destruct (peakCount_spec h 0) as (H1 & H2 & _). split; [exact H1|exact H2]. }
  destruct Hp as [Hp0 Hpall].
  assert (Hsum : ∀ l : list ActivityHeatmapData,
    Forall (λ e, 0 ≤ commitCount e ≤ peakCount h) l →
    0 ≤ totalCount l ≤ peakCount h * Z.of_nat (length l)).
  { induction 1 as [|x l Hx _ IH]; simpl; [lia|].
    fold (totalCount l). lia. }
  assert (Hb : 0 ≤ totalCount h ≤ peakCount h * 12).
  { rewrite <- (Nat2Z.inj_iff _ 12) in Hlen. change (Z.of_nat 12) with 12 in Hlen.
    rewrite <- Hlen. apply Hsum.
    rewrite Forall_forall in Hnn. apply Forall_forall. intros e He.
    split; [by apply Hnn|by apply Hpall]. }
  unfold Math_round. split.
  - change 0 with (Qfloor (inject_Z 0 + (1 # 2))) at 1.
    apply Qfloor_resp_le, Qplus_le_l, Qle_shift_div_l; [done|].
    rewrite Qmult_0_l. apply inject_Z_nonneg. lia.
  - rewrite <- (Qfloor_half (peakCount h)) at 1.
    apply Qfloor_resp_le, Qplus_le_l, Qle_shift_div_r; [done|].
    change (inject_Z (Z.of_nat 12)) with (inject_Z 12).
    rewrite <- inject_Z_mult, <- Zle_Qle. lia.
Qed.

End InsightsFacts.

(** ** Insertion-ordered maps and grouping loops *)

Section JSMapFacts.
Context {K V : Type} `{EqDecision K}.
Implicit Types (m : list (K * V)) (k : K).

Lemma map_update_keys m k (f : V → V) : (JSMap.update m k f).*1 = m.*1.
Proof.
  induction m as [|[k' v] m IH]; [done|]. cbn [JSMap.update].
  destruct (decide (k' = k)); [done|]. rewrite !fmap_cons. by rewrite IH.
Qed.

Lemma map_update_Forall (Q Q' : K → V → Prop) m k (f : V → V) :
  NoDup m.*1 →
  (∀ v, Q k v → Q' k (f v)) →
  (∀ k' v, k' ≠ k → Q k' v → Q' k' v) →
  Forall (λ kv, Q kv.1 kv.2) m →
  Forall (λ kv, Q' kv.1 kv.2) (JSMap.update m k f).
Proof.
  intros Hnd Hf Hother. induction m as [|[k' v] m IH]; [done|].
  rewrite fmap_cons in Hnd. apply NoDup_cons in Hnd as [Hk' Hnd].
  intros [Hv Hm]%Forall_cons. cbn [JSMap.update fst snd] in *.
  destruct (decide (k' = k)) as [->|Hne].
  - constructor; [by apply Hf|].
    rewrite Forall_forall in Hm. apply Forall_forall. intros [k2 v2] Hin.
    cbn [fst snd]. apply Hother; [|by apply (Hm (k2, v2))].
    intros E. subst k2. apply Hk'.
    by apply (list_elem_of_fmap_2 fst _ (k, v2)).
  - constructor; [by apply Hother|]. by apply IH.
Qed.

Lemma map_get_None m k : k ∉ m.*1 → JSMap.get m k = None.
Proof.
  induction m as [|[k' v] m IH]; [done|]. rewrite fmap_cons.
  intros [Hne Hk]%not_elem_of_cons. cbn [JSMap.get].
  destruct (decide (k' = k)); [done|]. by apply IH.
Qed.

Lemma map_update_absent m k (f : V → V) :
  k ∉ m.*1 → JSMap.update m k f = m.
Proof.
  induction m as [|[k' v] m IH]; [done|]. rewrite fmap_cons.
  intros [Hne Hk]%not_elem_of_cons. cbn [JSMap.update].
  destruct (decide (k' = k)); [done|]. by rewrite IH.
Qed.

Lemma map_update_app m m' k (f : V → V) :
  k ∉ m.*1 → JSMap.update (m ++ m') k f = m ++ JSMap.update m' k f.
Proof.
  induction m as [|[k' v] m IH]; [done|]. rewrite fmap_cons.
  intros [Hne Hk]%not_elem_of_cons. cbn [JSMap.update app].
  destruct (decide (k' = k)); [done|]. by rewrite IH.
Qed.

Lemma map_update_get m k (f : V → V) (a : V) :
  k ∈ m.*1 →
  JSMap.update m k (λ _, f (default a (JSMap.get m k)))
  = JSMap.update m k f.
Proof.
  induction m as [|[k' v] m IH]; [by intros ?%elem_of_nil|].
  rewrite fmap_cons. intros Hin. cbn [JSMap.update JSMap.get].
  destruct (decide (k' = k)) as [->|Hne]; [done|].
  apply elem_of_cons in Hin as [?|Hin]; [done|]. by rewrite IH.
Qed.

(** [m.set(k, f(m.get(k) || a))] is the step of a grouping loop that starts
    a new key at [a]. *)
Lemma map_set_get m k (f : V → V) (a : V) :
  JSMap.set m k (f (default a (JSMap.get m k))) = JSMap.upsert m k a f.
Proof.
  unfold JSMap.upsert, JSMap.set, JSMap.has.
  destruct (decide (k ∈ m.*1)) as [Hin|Hin].
  - rewrite !bool_decide_eq_true_2 by done. by apply map_update_get.
  - rewrite !bool_decide_eq_false_2 by done.
    rewrite map_get_None by done. rewrite map_update_app by done.
    cbn [JSMap.update default]. by rewrite decide_True.
Qed.

End JSMapFacts.

Section FirstSeenFacts.
Context {A : Type} `{EqDecision A}.
Implicit Types l : list A.

Lemma firstSeen_snoc l x :
  JSMap.firstSeen (l ++ [x])
  = if bool_decide (x ∈ JSMap.firstSeen l) then JSMap.firstSeen l
    else JSMap.firstSeen l ++ [x].
Proof. unfold JSMap.firstSeen. by rewrite foldl_app. Qed.

Lemma firstSeen_elem l x : x ∈ JSMap.firstSeen l ↔ x ∈ l.
Proof.
  revert x. induction l as [|y l IH] using rev_ind; intros x; [done|].
  rewrite firstSeen_snoc, elem_of_app, list_elem_of_singleton.
  case_bool_decide as Hy.
  - rewrite IH. split; [by left|]. intros [?| ->]; [done|]. by apply IH.
  - by rewrite elem_of_app, list_elem_of_singleton, IH.
Qed.

Lemma firstSeen_NoDup l : NoDup (JSMap.firstSeen l).
Proof.
  induction l as [|y l IH] using rev_ind; [constructor|].
  rewrite firstSeen_snoc. case_bool_decide as Hy; [done|].
  apply NoDup_app. split; [done|]. split; [|apply NoDup_singleton].
  by intros x Hx ->%list_elem_of_singleton.
Qed.

End FirstSeenFacts.

Lemma firstSeen_fmap {A B : Type} `{EqDecision A} `{EqDecision B}
    (f : A → B) (l : list A) :
  (∀ x y, x ∈ l → y ∈ l → f x = f y → x = y) →
  JSMap.firstSeen (f <$> l) = f <$> JSMap.firstSeen l.
Proof.
  induction l as [|y l IH] using rev_ind; intros Hf; [done|].
  rewrite fmap_app. change (f <$> [y]) with [f y].
  rewrite !firstSeen_snoc, IH.
  2:{ intros a b Ha Hb. apply Hf; apply elem_of_app; by left. }
  assert (E : f y ∈ f <$> JSMap.firstSeen l ↔ y ∈ JSMap.firstSeen l).
  { split; [|apply list_elem_of_fmap_2].
    intros (z & Hz & Hin)%list_elem_of_fmap.
    rewrite firstSeen_elem in Hin.
    assert (y = z) as ->; [|by rewrite firstSeen_elem].
    apply Hf; [apply elem_of_app; right; by left
              |apply elem_of_app; by left|done]. }
  rewrite (bool_decide_ext _ _ E).
  case_bool_decide; [done|]. by rewrite fmap_app.
Qed.

Section GroupingFacts.
Import Grouping.
Context {K V C : Type} `{EqDecision K}.
Variables (key : C → K) (fresh : C → V) (push : C → V → V).
Variable P : K → list C → V → Prop.
(** The items the loop is run on. *)
Variable ok : C → Prop.
Hypothesis P_fresh : ∀ c, ok c → P (key c) [] (fresh c).
Hypothesis P_push :
  ∀ c l v, ok c → P (key c) l v → P (key c) (l ++ [c]) (push c v).

Lemma grouped_step cs c m :
  ok c → grouped key P cs m →
  grouped key P (cs ++ [c]) (JSMap.upsert m (key c) (fresh c) (push c)).
Proof.
  intros Hc [Hkeys Hall]. unfold JSMap.upsert, JSMap.set, JSMap.has.
  assert (Hnd : NoDup m.*1) by (rewrite Hkeys; apply firstSeen_NoDup).
  assert (Hstep : ∀ m', NoDup m'.*1 →
    Forall (λ kv, P kv.1 (List.filter (inGroup key kv.1) cs) kv.2) m' →
    Forall (λ kv, P kv.1 (List.filter (inGroup key kv.1) (cs ++ [c])) kv.2)
      (JSMap.update m' (key c) (push c))).
  { intros m' Hnd' Hall'.
    apply (map_update_Forall
             (λ k v, P k (List.filter (inGroup key k) cs) v)
             (λ k v, P k (List.filter (inGroup key k) (cs ++ [c])) v));
      [done| | |done].
    - intros v Hv. rewrite List.filter_app. cbn [List.filter].
      unfold inGroup at 2. rewrite bool_decide_eq_true_2 by done.
      by apply P_push.
    - intros k' v Hne Hv. rewrite List.filter_app. cbn [List.filter].
      unfold inGroup at 2. rewrite bool_decide_eq_false_2 by done.
      by rewrite app_nil_r. }
  split.
  - rewrite map_update_keys, fmap_app. change (key <$> [c]) with [key c].
    rewrite firstSeen_snoc, <- Hkeys.
    case_bool_decide; [done|]. by rewrite fmap_app.
  - destruct (decide (key c ∈ m.*1)) as [Hin|Hin].
    + rewrite bool_decide_eq_true_2 by done. by apply Hstep.
    + rewrite !bool_decide_eq_false_2 by done. apply Hstep.
      * rewrite fmap_app. apply NoDup_app. split; [done|].
        split; [|apply NoDup_singleton].
        by intros x Hx ->%list_elem_of_singleton.
      * apply Forall_app. split; [done|]. apply Forall_singleton.
        cbn [fst snd]. rewrite filter_none; [by apply P_fresh|].
        intros x Hx. apply bool_decide_eq_false_2. intros E.
        apply Hin. rewrite Hkeys, firstSeen_elem, <- E.
        by apply list_elem_of_fmap_2.
Qed.

Lemma grouped_foldl cs0 cs m :
  Forall ok cs → grouped key P cs0 m →
  grouped key P (cs0 ++ cs)
    (foldl (λ m c, JSMap.upsert m (key c) (fresh c) (push c)) m cs).
Proof.
  intros Hcs. revert cs0 m.
  induction Hcs as [|c cs Hc _ IH]; intros cs0 m Hm.
  - by rewrite app_nil_r.
  - simpl. rewrite cons_middle, app_assoc. by apply IH, grouped_step.
Qed.

(** The map a grouping loop builds from the empty map. *)
Lemma grouped_loop cs :
  Forall ok cs →
  grouped key P cs
    (foldl (λ m c, JSMap.upsert m (key c) (fresh c) (push c)) [] cs).
Proof.
  intros Hcs. apply (grouped_foldl [] cs []); [done|]. by split.
Qed.

End GroupingFacts.

Section GroupedFacts.
Import Grouping.
Context {K V C : Type} `{EqDecision K}.
Variables (key : C → K) (P : K → list C → V → Prop).

(** Every key of the map is the key of an item, and the other way round. *)
Lemma grouped_keys cs (m : list (K * V)) k :
  grouped key P cs m → (k ∈ m.*1 ↔ ∃ c, c ∈ cs ∧ key c = k).
Proof.
  intros [Hkeys _]. rewrite Hkeys, firstSeen_elem, list_elem_of_fmap.
  split; intros (c & H1 & H2); exists c; by split.
Qed.

Lemma grouped_entry cs (m : list (K * V)) k v :
  grouped key P cs m → (k, v) ∈ m →
  P k (List.filter (inGroup key k) cs) v
  ∧ List.filter (inGroup key k) cs ≠ [].
Proof.
  intros Hg Hin. pose proof Hg as [_ Hall].
  rewrite Forall_forall in Hall. split; [by apply (Hall (k, v))|].
  assert (Hk : k ∈ m.*1) by by apply (list_elem_of_fmap_2 fst _ (k, v)).
  apply (grouped_keys _ _ _ Hg) in Hk as (c & Hc & Hkc).
  intros Hnil.
  assert (Hi : In c (List.filter (inGroup key k) cs)).
  { apply filter_In. rewrite <- list_elem_of_In. split; [done|].
    by apply bool_decide_eq_true_2. }
  by rewrite Hnil in Hi.
Qed.

Lemma sum_indicator_absent (keys : list K) x :
  x ∉ keys →
  sum_list_with (λ k, if bool_decide (x = k) then 1 else 0)%nat keys
  = 0%nat.
Proof.
  induction keys as [|k keys IH]; [done|].
  intros [Hne Hx]%not_elem_of_cons. simpl.
  by rewrite bool_decide_eq_false_2, IH.
Qed.

Lemma sum_indicator (keys : list K) x :
  NoDup keys → x ∈ keys →
  sum_list_with (λ k, if bool_decide (x = k) then 1 else 0)%nat keys
  = 1%nat.
Proof.
  induction 1 as [|k keys Hk _ IH]; [by intros ?%elem_of_nil|].
  intros [->|Hx]%elem_of_cons; simpl.
  - by rewrite bool_decide_eq_true_2, sum_indicator_absent.
  - rewrite bool_decide_eq_false_2 by (by intros ->). by rewrite IH.
Qed.

(** The groups take every item once. *)
Lemma grouped_sizes cs (keys : list K) :
  NoDup keys → (∀ c, c ∈ cs → key c ∈ keys) →
  sum_list_with (λ k, length (List.filter (inGroup key k) cs)) keys
  = length cs.
Proof.
  intros Hnd. induction cs as [|c cs IH]; intros Hin.
  - clear. induction keys as [|k keys IHk]; [done|]. by simpl in *.
  - assert (E : ∀ ks : list K,
      sum_list_with
        (λ k, length (List.filter (inGroup key k) (c :: cs))) ks
      = (sum_list_with (λ k, if bool_decide (key c = k) then 1 else 0) ks
         + sum_list_with
             (λ k, length (List.filter (inGroup key k) cs)) ks)%nat).
    { induction ks as [|k ks IHk]; [done|].
      cbn [sum_list_with]. rewrite IHk. cbn [List.filter].
      unfold inGroup at 1.
      destruct (bool_decide (key c = k)); simpl; lia. }
    rewrite E, IH, sum_indicator; [done|done| |].
    + apply Hin. by left.
    + intros c' Hc'. apply Hin. by right.
Qed.

End GroupedFacts.

(** ** Monthly summary *)

Section MonthlyFacts.
Import JS Calendar Commit Monthly Grouping MonthlyInv.

Lemma string_app_assoc (a b c : string) :
  (a +:+ b) +:+ c = a +:+ (b +:+ c).
Proof.
  induction a as [|x a IH]; [done|].
  by rewrite !string_app_cons, IH.
Qed.

(** The decimal of a month number has one or two characters, the first no
    hyphen. *)
Lemma month_digits m :
  0 ≤ m ≤ 11 →
  ∃ c r, pretty m = String c r ∧ String c "" ≠ "-"
         ∧ (r = "" ∨ ∃ d, r = String d "").
Proof.
  intros H%month_cases.
  destruct_or!; subst; vm_compute; do 2 eexists;
    (split; [reflexivity|]); (split; [discriminate|]); eauto.
Qed.

Lemma hyphen_split (a b : string) c1 r1 c2 r2 :
  String c1 "" ≠ "-" → String c2 "" ≠ "-" →
  (r1 = "" ∨ ∃ d, r1 = String d "") → (r2 = "" ∨ ∃ d, r2 = String d "") →
  a +:+ "-" +:+ String c1 r1 = b +:+ "-" +:+ String c2 r2 →
  a = b ∧ String c1 r1 = String c2 r2.
Proof.
  intros H1 H2 [->|[d1 ->]] [->|[d2 ->]] H.
  - apply string_app_inj_suffix in H as [-> [= ->]]; done.
  - exfalso.
    change (a +:+ "-" +:+ String c1 ""
            = b +:+ "-" +:+ (String c2 "" +:+ String d2 "")) in H.
    rewrite <- !string_app_assoc in H.
    apply string_app_inj_suffix in H as [H _]; [|done].
    apply string_app_inj_suffix in H as [_ H]; [|done]. congruence.
  - exfalso.
    change (a +:+ "-" +:+ (String c1 "" +:+ String d1 "")
            = b +:+ "-" +:+ String c2 "") in H.
    rewrite <- !string_app_assoc in H.
    apply string_app_inj_suffix in H as [H _]; [|done].
    apply string_app_inj_suffix in H as [_ H]; [|done]. congruence.
  - apply string_app_inj_suffix in H as [-> [= -> ->]]; done.
Qed.

(** The key of the monthly map determines the calendar month. *)
Lemma monthMapKey_inj a b :
  0 ≤ Calendar.month a ≤ 11 → 0 ≤ Calendar.month b ≤ 11 →
  monthMapKey a = monthMapKey b →
  Calendar.year a = Calendar.year b ∧ Calendar.month a = Calendar.month b.
Proof.
  intros (c1 & r1 & E1 & Hc1 & Hr1)%month_digits
         (c2 & r2 & E2 & Hc2 & Hr2)%month_digits.
  unfold monthMapKey. rewrite E1, E2.
  intros [Hy Hm]%hyphen_split; try done.
  rewrite <- E1, <- E2 in Hm.
  split; by apply (inj pretty).
Qed.

Lemma field_snoc {C} (f : C → option string) (cs : list C) c a :
  (∃ c', c' ∈ cs ++ [c] ∧ f c' = Some a)
  ↔ (∃ c', c' ∈ cs ∧ f c' = Some a) ∨ f c = Some a.
Proof.
  split.
  - intros (c' & [H| ->%list_elem_of_singleton]%elem_of_app & Ha);
      [left; by exists c'|by right].
  - intros [(c' & H & Ha)|Ha].
    + exists c'. split; [apply elem_of_app; by left|done].
    + exists c. split; [|done].
      apply elem_of_app. right. by apply list_elem_of_singleton.
Qed.

Lemma pushUnique_ok {C} (f : C → option string) (cs : list C) c l :
  distinct_ok f cs l → distinct_ok f (cs ++ [c]) (pushUnique (f c) l).
Proof.
  intros [Hnd Hiff]. unfold distinct_ok, pushUnique, truthy.
  destruct (f c) as [a|] eqn:Ea.
  - destruct (String.eqb_spec a "") as [->|Hne]; cbn [negb andb].
    + split; [done|]. intros a'. rewrite field_snoc, Ea, Hiff.
      split; [tauto|]. intros [Hn [H|[= <-]]]; tauto.
    + destruct (decide (a ∈ l)) as [Hin|Hin].
      * rewrite bool_decide_eq_true_2 by done. cbn [negb].
        split; [done|]. intros a'. rewrite field_snoc, Ea.
        split; [rewrite Hiff; tauto|].
        intros [Hn [H|[= <-]]]; [rewrite Hiff; tauto|done].
      * rewrite bool_decide_eq_false_2 by done. cbn [negb].
        split.
        { apply NoDup_app. split; [done|]. split; [|apply NoDup_singleton].
          intros x Hx ->%list_elem_of_singleton. done. }
        intros a'.
        rewrite elem_of_app, list_elem_of_singleton, field_snoc, Ea, Hiff.
        split.
        -- intros [H| ->]; [tauto|]. split; [done|by right].
        -- intros [Hn [H|[= <-]]]; [left; tauto|by right].
  - split; [done|]. intros a'. rewrite field_snoc, Ea, Hiff.
    split; [tauto|]. intros [Hn [H|[=]]]; tauto.
Qed.

Lemma distinct_ok_nil {C} (f : C → option string) : distinct_ok f [] [].
Proof.
  split; [constructor|]. intros a. split; [by intros ?%elem_of_nil|].
  by intros (_ & c & ?%elem_of_nil & _).
Qed.

(** The first loop of [monthlyData] groups the commits by month. *)
Lemma monthlyMap_grouped cs :
  Forall (λ c, 0 ≤ Calendar.month (timestamp c) ≤ 11) cs →
  grouped (λ c, monthMapKey (timestamp c)) month_ok cs (monthlyMap cs).
Proof.
  intros Hcs.
  apply (grouped_loop (λ c, monthMapKey (timestamp c))
           (λ c, emptyMonth (timestamp c)) addToMonth month_ok
           (λ c, 0 ≤ Calendar.month (timestamp c) ≤ 11)); [| |done].
  - intros c Hc. unfold month_ok. cbn.
    do 4 (split; [done|]). do 2 (split; [apply distinct_ok_nil|]).
    by exists (timestamp c).
  - intros c l v Hc (Hl & Hn & Ha & Hd & Hau & Hbi & Hdate).
    unfold month_ok. cbn [addToMonth commits totalCommits additions
      deletions uniqueAuthors businessImpacts year month].
    rewrite Hl, Hn, length_app. simpl length.
    split; [done|]. split; [lia|]. split; [done|]. split; [done|].
    split; [by apply pushUnique_ok|]. split; [by apply pushUnique_ok|done].
Qed.

Lemma monthly_elem cs md :
  md ∈ monthlyData cs ↔ ∃ k v, (k, v) ∈ monthlyMap cs ∧ md = setMostActive v.
Proof.
  unfold monthlyData. rewrite Array_sort_perm, list_elem_of_fmap. split.
  - intros (v & -> & ([k v'] & -> & Hin)%list_elem_of_fmap).
    by exists k, v'.
  - intros (k & v & Hin & ->). exists v. split; [done|].
    by apply (list_elem_of_fmap_2 snd _ (k, v)).
Qed.

Lemma month_group_filter cs d :
  0 ≤ Calendar.month d ≤ 11 →
  Forall (λ c, 0 ≤ Calendar.month (timestamp c) ≤ 11) cs →
  List.filter (inGroup (λ c, monthMapKey (timestamp c)) (monthMapKey d)) cs
  = List.filter (inMonth (Calendar.year d) (Calendar.month d)) cs.
Proof.
  intros Hd Hcs. induction Hcs as [|c cs Hc _ IH]; [done|].
  cbn [List.filter]. rewrite IH.
  assert (E : inGroup (λ c, monthMapKey (timestamp c)) (monthMapKey d) c
              = inMonth (Calendar.year d) (Calendar.month d) c);
    [|by rewrite E].
  unfold inGroup, inMonth. apply bool_decide_ext. split.
  - by apply monthMapKey_inj.
  - intros [Hy Hm]. unfold monthMapKey. by rewrite Hy, Hm.
Qed.

Lemma totalShown_perm (l k : list MonthlyData) :
  l ≡ₚ k → totalShown l = totalShown k.
Proof.
  unfold totalShown.
  induction 1 as [|x l k _ IH|x y l|l k m _ IH1 _ IH2]; simpl; lia.
Qed.

Lemma totalShown_values cs (m : list (string * MonthlyData)) :
  Forall (λ kv, month_ok kv.1
            (List.filter (inGroup (λ c, monthMapKey (timestamp c)) kv.1) cs)
            kv.2) m →
  totalShown (setMostActive <$> m.*2)
  = Z.of_nat (sum_list_with
      (λ k, length (List.filter
                      (inGroup (λ c, monthMapKey (timestamp c)) k) cs))
      m.*1).
Proof.
  induction 1 as [|[k v] m (_ & Hn & _) _ IH]; [done|].
  rewrite !fmap_cons. cbn [totalShown foldr sum_list_with fst snd] in *.
  fold (totalShown (setMostActive <$> m.*2)). rewrite IH.
  cbn [setMostActive totalCommits]. rewrite Hn. lia.
Qed.

(** X9. The monthly summary partitions the filtered commits: every card is
    the card of a calendar month, holds exactly the commits of that month in
    their order, at least one, and prints their number; its contributor and
    impact lists name each non-empty author and impact of these commits
    once; its additions and deletions are always 0; every commit is on a
    card and the printed numbers add up to the number of filtered
    commits. *)
Theorem X9_monthly_partition (filteredCommits : list CommitData) :
  Forall (λ c, 0 ≤ Calendar.month (timestamp c) ≤ 11) filteredCommits →
  let out := monthlyData filteredCommits in
  (∀ md, md ∈ out →
     ∃ y m, 0 ≤ m ≤ 11
       ∧ year md = y ∧ month md = monthName (mkDate y m 1)
       ∧ commits md = List.filter (inMonth y m) filteredCommits
       ∧ commits md ≠ []
       ∧ totalCommits md = Z.of_nat (length (commits md))
       ∧ additions md = 0 ∧ deletions md = 0
       ∧ distinct_ok author_name (commits md) (uniqueAuthors md)
       ∧ distinct_ok business_impact (commits md) (businessImpacts md))
  ∧ (∀ c, c ∈ filteredCommits → ∃ md, md ∈ out ∧ c ∈ commits md)
  ∧ totalShown out = Z.of_nat (length filteredCommits).
Proof.
  intros Hcs out. set (cs := filteredCommits) in *.
  pose proof (monthlyMap_grouped cs Hcs) as Hg.
  split; [|split].
  - intros md (k & v & Hin & ->)%monthly_elem.
    destruct (grouped_entry _ _ _ _ _ _ Hg Hin) as
      [(Hl & Hn & Ha & Hd & Hau & Hbi & d & Hdm & <- & Hy & Hm) Hne].
    rewrite (month_group_filter cs d Hdm Hcs) in Hl, Hne, Hn, Hau, Hbi.
    exists (Calendar.year d), (Calendar.month d).
    cbn [setMostActive year month commits totalCommits additions deletions
         uniqueAuthors businessImpacts].
    rewrite Hl. split; [done|]. split; [done|]. split; [by rewrite Hm|].
    by do 6 (split; [done|]).
  - intros c Hc.
    assert (Hk : monthMapKey (timestamp c) ∈ (monthlyMap cs).*1).
    { apply (grouped_keys _ _ _ _ _ Hg). by exists c. }
    apply list_elem_of_fmap in Hk as ([k v] & Hkk & Hin). simpl in Hkk.
    exists (setMostActive v). split.
    + apply monthly_elem. by exists k, v.
    + destruct (grouped_entry _ _ _ _ _ _ Hg Hin) as [(Hl & _) _].
      cbn [setMostActive commits]. rewrite Hl.
      apply list_elem_of_In, filter_In. rewrite <- list_elem_of_In.
      split; [done|]. by apply bool_decide_eq_true_2.
  - unfold out, monthlyData. rewrite (totalShown_perm _ _ (Array_sort_perm _ _)).
    destruct Hg as [Hkeys Hall]. rewrite (totalShown_values cs) by done.
    f_equal. apply grouped_sizes.
    + rewrite Hkeys. apply firstSeen_NoDup.
    + intros c Hc. rewrite Hkeys, firstSeen_elem.
      by apply (list_elem_of_fmap_2 (λ c, monthMapKey (timestamp c))).
Qed.

Lemma X9_witness :
  totalShown (monthlyData [Examples.march_2024; Examples.march_2025;
                           Examples.march_2024])
  = 3.
Proof.
  assert (Hc : Forall (λ c, 0 ≤ Calendar.month (timestamp c) ≤ 11)
                 [Examples.march_2024; Examples.march_2025;
                  Examples.march_2024])
    by (repeat constructor; vm_compute; discriminate).
  exact (proj2 (proj2 (X9_monthly_partition _ Hc))).
Defined.

Lemma year_cmp_key (a b : MonthlyData) :
  (inject_Z (year b - year a) == inject_Z (year b) - inject_Z (year a))%Q.
Proof. unfold Z.sub. by rewrite inject_Z_plus, inject_Z_opp. Qed.

Lemma Qeq_bool_inject (a b : Z) :
  Qeq_bool (inject_Z a) (inject_Z b) = bool_decide (a = b).
Proof.
  case_bool_decide as E.
  - subst. apply Qeq_bool_refl.
  - destruct (Qeq_bool (inject_Z a) (inject_Z b)) eqn:Eq; [|done].
    apply Qeq_bool_eq in Eq. unfold Qeq, inject_Z in Eq. simpl in Eq. lia.
Qed.

(** The year and the caption of the entries, in the order of the map, are
    those of the calendar months in the order they are first met. *)
Lemma monthly_captions (m : list (string * MonthlyData)) (app : list (Z * Z))
    (l : string → list CommitData) :
  m.*1 = keyOf <$> app →
  Forall (λ ym, 0 ≤ ym.2 ≤ 11) app →
  Forall (λ kv, month_ok kv.1 (l kv.1) kv.2) m →
  (λ md, (year md, month md)) <$> (setMostActive <$> m.*2)
  = (λ ym, (ym.1, monthName (mkDate ym.1 ym.2 1))) <$> app.
Proof.
  revert app. induction m as [|[k v] m IH]; intros [|[y mo] app] Hk Ha Hm;
    try done.
  rewrite !fmap_cons in *. cbn [fst snd] in *.
  apply Forall_cons in Ha as [Hy Ha]. apply Forall_cons in Hm as [Hv Hm].
  injection Hk as Hk1 Hk. rewrite (IH app) by done. f_equal.
  destruct Hv as (_ & _ & _ & _ & _ & _ & d & Hd & Hkd & Hyv & Hmv).
  cbn [fst snd setMostActive year month] in *.
  rewrite Hk1 in Hkd. apply monthMapKey_inj in Hkd as [Hdy Hdm]; [|done..].
  cbn in Hdy, Hdm. rewrite Hyv, Hmv, Hdy. unfold monthName. cbn.
  by rewrite Hdy, Hdm.
Qed.

Lemma ties_captions (y : Z) (vals : list MonthlyData) :
  month <$> ties (λ md, inject_Z (year md)) (inject_Z y) vals
  = snd <$> List.filter (λ p : Z * string, bool_decide (p.1 = y))
              ((λ md, (year md, month md)) <$> vals).
Proof.
  unfold ties. induction vals as [|v vals IH]; [done|].
  rewrite fmap_cons. cbn [List.filter fst]. rewrite Qeq_bool_inject.
  case_bool_decide; [rewrite !fmap_cons|]; by rewrite IH.
Qed.

Lemma filter_captions (y : Z) (app : list (Z * Z)) (f : Z * Z → string) :
  snd <$> List.filter (λ p : Z * string, bool_decide (p.1 = y))
            ((λ ym, (ym.1, f ym)) <$> app)
  = f <$> List.filter (λ ym : Z * Z, bool_decide (ym.1 = y)) app.
Proof.
  induction app as [|ym app IH]; [done|].
  rewrite fmap_cons. cbn [List.filter fst].
  case_bool_decide; [rewrite !fmap_cons|]; by rewrite IH.
Qed.

(** X10. The month cards are ordered by year only, latest year first; the
    cards of one year are not ordered by month: they stand in the order in
    which their months are first met in the filtered commits. *)
Theorem X10_monthly_order (filteredCommits : list CommitData) (y : Z) :
  Forall (λ c, 0 ≤ Calendar.month (timestamp c) ≤ 11) filteredCommits →
  let out := monthlyData filteredCommits in
  let met :=
    JSMap.firstSeen ((λ c, Heatmap.yearMonth (timestamp c))
                       <$> filteredCommits) in
  StronglySorted (λ a b, year b ≤ year a) out
  ∧ month <$> ties (λ md, inject_Z (year md)) (inject_Z y) out
    = (λ ym, monthName (mkDate ym.1 ym.2 1))
        <$> List.filter (λ ym : Z * Z, bool_decide (ym.1 = y)) met.
Proof.
  intros Hcs out met. set (cs := filteredCommits) in *. split.
  - eapply StronglySorted_weaken;
      [|apply (Array_sort_desc _ (λ md, inject_Z (year md)) year_cmp_key)].
    intros a b Hab. cbv beta in Hab. by rewrite <- Zle_Qle in Hab.
  - unfold out, monthlyData.
    rewrite (Array_sort_ties _ (λ md, inject_Z (year md)) year_cmp_key).
    rewrite ties_captions.
    destruct (monthlyMap_grouped cs Hcs) as [Hkeys Hall].
    assert (Hval : Forall (λ ym : Z * Z, 0 ≤ ym.2 ≤ 11) met).
    { apply Forall_forall. intros ym Hin. unfold met in Hin.
      rewrite firstSeen_elem in Hin.
      apply list_elem_of_fmap in Hin as (c & -> & Hc).
      rewrite Forall_forall in Hcs. by apply Hcs. }
    rewrite (monthly_captions _ met
               (λ k, List.filter
                       (inGroup (λ c, monthMapKey (timestamp c)) k) cs));
      [apply filter_captions| |done|done].
    rewrite Hkeys. unfold met. rewrite <- firstSeen_fmap.
    + by rewrite <- list_fmap_compose.
    + intros [y1 m1] [y2 m2] (c1 & -> & Hc1)%list_elem_of_fmap
        (c2 & -> & Hc2)%list_elem_of_fmap E.
      rewrite Forall_forall in Hcs.
      unfold keyOf in E. apply monthMapKey_inj in E as [E1 E2];
        [|by apply Hcs..].
      cbn in E1, E2. unfold Heatmap.yearMonth. by rewrite E1, E2.
Qed.

Lemma X10_witness :
  month <$> ties (λ md, inject_Z (year md)) (inject_Z 2024)
              (monthlyData [Examples.march_2024; Examples.march_2025;
                            Examples.march_2024])
  = ["March 2024"].
Proof.
  assert (Hc : Forall (λ c, 0 ≤ Calendar.month (timestamp c) ≤ 11)
                 [Examples.march_2024; Examples.march_2025;
                  Examples.march_2024])
    by (repeat constructor; vm_compute; discriminate).
  exact (proj2 (X10_monthly_order _ 2024 Hc)).
Defined.

Lemma monthlyMap_commits cs :
  grouped (λ c, monthMapKey (timestamp c)) (λ _ l v, commits v = l) cs
    (monthlyMap cs).
Proof.
  apply (grouped_loop (λ c, monthMapKey (timestamp c))
           (λ c, emptyMonth (timestamp c)) addToMonth
           (λ _ l v, commits v = l) (λ _, True)).
  - done.
  - intros c l v _ Hl. cbn [addToMonth commits]. by rewrite Hl.
  - by apply Forall_forall.
Qed.

Lemma weekdayName_not_None d : weekdayName d ≠ "None".
Proof.
  unfold weekdayName.
  assert (H : 0 ≤ WeekDay d < 7) by (apply Z.mod_pos_bound; lia).
  assert (Hn : (Z.to_nat (WeekDay d) < 7)%nat) by lia.
  revert Hn. generalize (Z.to_nat (WeekDay d)). intros n Hn.
  do 7 (destruct n as [|n]; [done|]). lia.
Qed.

Lemma dayCount_grouped cs :
  grouped (λ c, weekdayName (timestamp c)) day_ok cs (foldl countDay [] cs).
Proof.
  assert (E : ∀ m, foldl countDay m cs
    = foldl (λ m c, JSMap.upsert m (weekdayName (timestamp c)) 0
                      (λ n, n + 1)) m cs).
  { induction cs as [|c cs IH]; intros m; [done|]. simpl. rewrite <- IH.
    f_equal. unfold countDay. cbv zeta.
    apply (map_set_get m _ (λ n, n + 1) 0). }
  rewrite E.
  apply (grouped_loop (λ c, weekdayName (timestamp c)) (λ _, 0)
           (λ _ n, n + 1) day_ok (λ _, True)).
  - done.
  - intros c l n _ Hn. unfold day_ok in *. rewrite length_app. simpl. lia.
  - by apply Forall_forall.
Qed.

(** What the loop over the day counts leaves: the first entry whose count
    is the largest, if a count exceeds the initial one. *)
Lemma pickDay_spec (m : list (string * Z)) (acc : Z * string) :
  let r := foldl pickDay acc m in
  (r = acc ∧ Forall (λ e, e.2 ≤ acc.1) m)
  ∨ (∃ m1 m2, m = m1 ++ (r.2, r.1) :: m2 ∧ acc.1 < r.1
       ∧ Forall (λ e, e.2 < r.1) m1 ∧ Forall (λ e, e.2 ≤ r.1) m2).
Proof.
  induction m as [|e m IH] using rev_ind; [left; by split|].
  cbv zeta in *. rewrite foldl_app. cbn [foldl].
  set (r' := foldl pickDay acc m) in *.
  destruct (r'.1 <? e.2) eqn:E.
  - assert (Ep : pickDay r' e = (e.2, e.1)) by (unfold pickDay; by rewrite E).
    rewrite Ep. apply Z.ltb_lt in E. right. exists m, []. cbn [fst snd].
    destruct e as [d n]. cbn [fst snd] in *. split; [done|].
    destruct IH as [[-> Hall]|(m1 & m2 & Hm & Hlt & H1 & H2)].
    + split; [done|]. split; [|done].
      eapply Forall_impl; [exact Hall|]. intros x Hx. simpl in *. lia.
    + split; [lia|]. split; [|done]. rewrite Hm.
      apply Forall_app. split.
      * eapply Forall_impl; [exact H1|]. intros x Hx. simpl in *. lia.
      * constructor; [simpl; lia|].
        eapply Forall_impl; [exact H2|]. intros x Hx. simpl in *. lia.
  - assert (Ep : pickDay r' e = r') by (unfold pickDay; by rewrite E).
    rewrite Ep. apply Z.ltb_ge in E.
    destruct IH as [[Hr Hall]|(m1 & m2 & Hm & Hlt & H1 & H2)].
    + left. split; [done|]. apply Forall_app. split; [done|].
      apply Forall_singleton. by rewrite <- Hr.
    + right. exists m1, (m2 ++ [e]). split; [by rewrite Hm, <- app_assoc|].
      split; [done|]. split; [done|]. apply Forall_app. split; [done|].
      by apply Forall_singleton.
Qed.

Lemma onWeekday_entry cs (m : list (string * Z)) day n :
  grouped (λ c, weekdayName (timestamp c)) day_ok cs m →
  (day, n) ∈ m → n = Z.of_nat (onWeekday day cs) ∧ 0 < n.
Proof.
  intros Hg Hin.
  destruct (grouped_entry _ _ _ _ _ _ Hg Hin) as [Hn Hne].
  unfold day_ok in Hn. unfold onWeekday. split; [done|]. rewrite Hn.
  destruct (List.filter _ cs); [done|]. simpl. lia.
Qed.

Lemma mostActive_spec cs :
  cs ≠ [] →
  let d := mostActive cs in
  ∃ l1 l2,
    JSMap.firstSeen ((λ c, weekdayName (timestamp c)) <$> cs) = l1 ++ d :: l2
    ∧ (∀ day, day ∈ l1 → (onWeekday day cs < onWeekday d cs)%nat)
    ∧ ∀ day, (onWeekday day cs ≤ onWeekday d cs)%nat.
Proof.
  intros Hne d. pose proof (dayCount_grouped cs) as Hg.
  unfold d, mostActive. set (m := foldl countDay [] cs) in *.
  destruct (pickDay_spec m (0, "None")) as
    [[_ Hall]|(m1 & m2 & Hm & Hlt & H1 & H2)].
  - exfalso. destruct cs as [|c cs]; [done|].
    assert (Hk : weekdayName (timestamp c) ∈ m.*1).
    { apply (grouped_keys _ _ _ _ _ Hg). exists c. split; [left|done]. }
    apply list_elem_of_fmap in Hk as ([k n] & _ & Hin).
    destruct (onWeekday_entry _ _ _ _ Hg Hin) as [_ Hpos].
    rewrite Forall_forall in Hall. specialize (Hall _ Hin). simpl in Hall.
    lia.
  - set (r := foldl pickDay (0, "None") m) in *.
    assert (Hr : r.1 = Z.of_nat (onWeekday r.2 cs)).
    { apply (onWeekday_entry cs m); [done|]. rewrite Hm.
      apply elem_of_app. right. left. }
    exists m1.*1, m2.*1. split; [|split].
    + destruct Hg as [<- _]. by rewrite Hm, fmap_app.
    + intros day ([k n] & -> & Hin)%list_elem_of_fmap. cbn [fst].
      assert (Hn : n = Z.of_nat (onWeekday k cs)).
      { apply (onWeekday_entry cs m); [done|]. rewrite Hm.
        apply elem_of_app. by left. }
      rewrite Forall_forall in H1. specialize (H1 _ Hin). simpl in H1. lia.
    + intros day. destruct (decide (day ∈ m.*1)) as [Hin|Hin].
      * apply list_elem_of_fmap in Hin as ([k n] & -> & Hin). cbn [fst].
        destruct (onWeekday_entry _ _ _ _ Hg Hin) as [Hn _].
        rewrite Hm in Hin.
        apply elem_of_app in Hin as [Hin|Hin];
          [|apply elem_of_cons in Hin as [Hin|Hin]].
        -- rewrite Forall_forall in H1. specialize (H1 _ Hin).
           simpl in H1. lia.
        -- injection Hin as -> _. lia.
        -- rewrite Forall_forall in H2. specialize (H2 _ Hin).
           simpl in H2. lia.
      * unfold onWeekday at 1. rewrite filter_none; [simpl; lia|].
        intros c Hc. apply bool_decide_eq_false_2. intros E. apply Hin.
        apply (grouped_keys _ _ _ _ _ Hg). by exists c.
Qed.

(** X11. The most active day of a month card is never the placeholder: it
    is the weekday of one of the month's commits, no weekday has more
    commits in the month, and among the weekdays with as many it is the one
    met first in the month's commits. *)
Theorem X11_most_active_day (filteredCommits : list CommitData)
    (md : MonthlyData) :
  md ∈ monthlyData filteredCommits →
  mostActiveDay md ≠ "None"
  ∧ (∃ c, c ∈ commits md ∧ weekdayName (timestamp c) = mostActiveDay md)
  ∧ (∀ day, (onWeekday day (commits md)
             ≤ onWeekday (mostActiveDay md) (commits md))%nat)
  ∧ ∃ l1 l2,
      JSMap.firstSeen ((λ c, weekdayName (timestamp c)) <$> commits md)
      = l1 ++ mostActiveDay md :: l2
      ∧ ∀ day, day ∈ l1 →
          (onWeekday day (commits md)
           < onWeekday (mostActiveDay md) (commits md))%nat.
Proof.
  intros (k & v & Hin & ->)%monthly_elem.
  destruct (grouped_entry _ _ _ _ _ _ (monthlyMap_commits filteredCommits)
              Hin) as [Hl Hne].
  rewrite <- Hl in Hne. cbn [setMostActive mostActiveDay commits].
  destruct (mostActive_spec (commits v) Hne) as (l1 & l2 & Hseen & Hlt & Hle).
  assert (Hc : ∃ c, c ∈ commits v
                 ∧ weekdayName (timestamp c) = mostActive (commits v)).
  { assert (Hd : mostActive (commits v)
             ∈ JSMap.firstSeen
                 ((λ c, weekdayName (timestamp c)) <$> commits v)).
    { rewrite Hseen. apply elem_of_app. right. left. }
    rewrite firstSeen_elem in Hd.
    apply list_elem_of_fmap in Hd as (c & E & Hc). by exists c. }
  split; [|split; [done|split; [done|by exists l1, l2]]].
  destruct Hc as (c & _ & <-). apply weekdayName_not_None.
Qed.

Lemma X11_witness :
  mostActiveDay
    (setMostActive
       (addToMonth Examples.march_2024
          (emptyMonth (timestamp Examples.march_2024))))
  ≠ "None".
Proof.
  assert (H : setMostActive
                (addToMonth Examples.march_2024
                   (emptyMonth (timestamp Examples.march_2024)))
              ∈ monthlyData [Examples.march_2024])
    by (vm_compute; apply list_elem_of_here).
  exact (proj1 (X11_most_active_day _ _ H)).
Defined.

End MonthlyFacts.


(** ** The filters of the timeline *)

Section SortOrderFacts.
Import JS.
Context {A : Type}.
Variable cmp : A → A → Q.
(** A comparator that decides a total preorder [R]. *)
Variable R : relation A.
Context `{!Transitive R}.
Hypothesis cmp_le_R : ∀ a b, Qle_bool (cmp a b) 0 = true → R a b.
Hypothesis cmp_gt_R : ∀ a b, Qle_bool (cmp a b) 0 = false → R b a.

Lemma insert_sorted_elem x y l :
  y ∈ insert_sorted cmp x l ↔ y = x ∨ y ∈ l.
Proof.
  induction l as [|z l IH]; simpl.
  - rewrite list_elem_of_singleton, elem_of_nil. tauto.
  - destruct (Qle_bool (cmp x z) 0); rewrite !elem_of_cons; [done|].
    rewrite IH. tauto.
Qed.

Lemma insert_sorted_sorted x l :
  StronglySorted R l → StronglySorted R (insert_sorted cmp x l).
Proof.
  induction 1 as [|y l Hs IH Hy]; simpl.
  - repeat constructor.
  - destruct (Qle_bool (cmp x y) 0) eqn:E.
    + apply cmp_le_R in E. constructor; [by constructor|].
      constructor; [done|]. eapply Forall_impl; [exact Hy|].
      intros z Hz. by transitivity y.
    + apply cmp_gt_R in E. constructor; [done|].
      apply Forall_forall. intros z [->|Hz]%insert_sorted_elem; [done|].
      rewrite Forall_forall in Hy. by apply Hy.
Qed.

Lemma Array_sort_sorted l : StronglySorted R (Array_sort cmp l).
Proof.
  induction l as [|x l IH]; simpl; [constructor|].
  by apply insert_sorted_sorted.
Qed.

Lemma Array_sort_elem x l : x ∈ Array_sort cmp l ↔ x ∈ l.
Proof.
  induction l as [|y l IH]; simpl; [done|].
  rewrite insert_sorted_elem, elem_of_cons, IH. tauto.
Qed.

Lemma insert_sorted_NoDup x l :
  x ∉ l → NoDup l → NoDup (insert_sorted cmp x l).
Proof.
  induction l as [|y l IH]; simpl; intros Hx Hl.
  - apply NoDup_singleton.
  - apply not_elem_of_cons in Hx as [Hxy Hx].
    apply NoDup_cons in Hl as [Hy Hl].
    destruct (Qle_bool (cmp x y) 0).
    + apply NoDup_cons. split; [|by apply NoDup_cons].
      rewrite elem_of_cons. tauto.
    + apply NoDup_cons. split; [|by apply IH].
      rewrite insert_sorted_elem. intros [->|H]; tauto.
Qed.

Lemma Array_sort_NoDup l : NoDup l → NoDup (Array_sort cmp l).
Proof.
  induction 1 as [|x l Hx Hl IH]; simpl; [constructor|].
  apply insert_sorted_NoDup; [|done]. by rewrite Array_sort_elem.
Qed.

End SortOrderFacts.

Section FilterFacts.
Import JS Commit Filter.

Lemma stringCompare_le a b :
  Qle_bool (stringCompare a b) 0 = true → String.le a b.
Proof.
  unfold stringCompare, String.le, String.leb.
  by destruct (String.compare a b).
Qed.

Lemma stringCompare_gt a b :
  Qle_bool (stringCompare a b) 0 = false → String.le b a.
Proof.
  unfold stringCompare, String.le, String.leb.
  rewrite (String.compare_antisym a b).
  by destruct (String.compare b a).
Qed.

Lemma truthyNames_elem (l : list (option string)) a :
  a ∈ truthyNames l ↔ a ≠ "" ∧ Some a ∈ l.
Proof.
  unfold truthyNames. rewrite list_elem_of_omap. split.
  - intros ([b|] & Hin & E); [|done]. unfold truthy in E.
    destruct b as [|ch b]; simpl in E; [done|]. injection E as <-.
    by split.
  - intros [Hne Hin]. exists (Some a). split; [done|].
    by destruct a.
Qed.

(** X12. The options of the author filter are the non-empty author names
    of all commits (not only of the filtered ones), each once, in
    ascending order of their character codes. *)
Theorem X12_author_options (commits : list CommitData) :
  StronglySorted String.le (uniqueAuthors commits)
  ∧ NoDup (uniqueAuthors commits)
  ∧ ∀ a, a ∈ uniqueAuthors commits
         ↔ a ≠ "" ∧ ∃ c, c ∈ commits ∧ author_name c = Some a.
Proof.
  unfold uniqueAuthors. split; [|split].
  - apply Array_sort_sorted.
    + apply String.le_po.
    + apply stringCompare_le.
    + apply stringCompare_gt.
  - apply Array_sort_NoDup, firstSeen_NoDup.
  - intros a. rewrite Array_sort_elem, firstSeen_elem, truthyNames_elem.
    rewrite list_elem_of_fmap. split.
    + intros [Hne (c & E & Hc)]. split; [done|]. by exists c.
    + intros [Hne (c & Hc & E)]. split; [done|]. by exists c.
Qed.

Lemma filter_sublist {A} (f : A → bool) (l : list A) :
  List.filter f l `sublist_of` l.
Proof.
  induction l as [|x l IH]; [done|]. cbn [List.filter].
  destruct (f x); by constructor.
Qed.

Lemma filter_elem {A} (f : A → bool) (l : list A) x :
  x ∈ List.filter f l ↔ x ∈ l ∧ f x = true.
Proof. by rewrite !list_elem_of_In, filter_In. Qed.

Lemma eqb_all (filterAuthor : string) :
  negb (String.eqb filterAuthor "all") = bool_decide (filterAuthor ≠ "all").
Proof.
  destruct (String.eqb_spec filterAuthor "all") as [->|Hne]; simpl.
  - done.
  - by rewrite bool_decide_eq_true_2.
Qed.

Lemma filtered_elem (since : Z → CommitData → bool)
    (filterAuthor : string) (dateRange : DateRange)
    (commits : list CommitData) c :
  c ∈ filteredCommits since filterAuthor dateRange commits
  ↔ c ∈ commits
    ∧ (filterAuthor ≠ "all" → author_name c = Some filterAuthor)
    ∧ (∀ n, days dateRange = Some n → since n c = true).
Proof.
  unfold filteredCommits. rewrite eqb_all.
  destruct (days dateRange) as [n|]; case_bool_decide as Ha;
    rewrite ?filter_elem, ?bool_decide_eq_true.
  - split; [intros [[H1 H2] H3]|intros (H1 & H2 & H3)].
    + split; [done|]. split; [done|]. by intros ? [= <-].
    + split; [by split; [|apply H2]|by apply H3].
  - split; [intros [H1 H3]|intros (H1 & _ & H3)].
    + split; [done|]. split; [done|]. by intros ? [= <-].
    + split; [done|by apply H3].
  - split; [intros [H1 H2]|intros (H1 & H2 & _)].
    + by split.
    + split; [done|by apply H2].
  - split; [intros H1|by intros (H1 & _)]. by split.
Qed.

(** X13. The two filters only remove commits: the commits shown are a
    sublist of the commits, in their order; a commit is shown exactly when
    it passes the author filter, if one is chosen, and the date filter, if
    one is chosen; with no filter chosen all commits are shown. *)
Theorem X13_filtered_commits (since : Z → CommitData → bool)
    (filterAuthor : string) (dateRange : DateRange)
    (commits : list CommitData) :
  let shown := filteredCommits since filterAuthor dateRange commits in
  shown `sublist_of` commits
  ∧ (∀ c, c ∈ shown
          ↔ c ∈ commits
            ∧ (filterAuthor ≠ "all" → author_name c = Some filterAuthor)
            ∧ (∀ n, days dateRange = Some n → since n c = true))
  ∧ (filterAuthor = "all" → dateRange = all_time → shown = commits).
Proof.
  intros shown. split; [|split; [intros c; apply filtered_elem|]];
    unfold shown, filteredCommits; rewrite eqb_all.
  - destruct (days dateRange); case_bool_decide;
      repeat (etrans; [apply filter_sublist|]); done.
  - by intros -> ->.
Qed.

Lemma X13_witness :
  filteredCommits (λ _ _, false) "all" all_time [Examples.march_2024]
  = [Examples.march_2024].
Proof.
  exact (proj2 (proj2 (X13_filtered_commits (λ _ _, false) "all" all_time
                         [Examples.march_2024])) eq_refl eq_refl).
Defined.

Lemma NoDup_only {A} (x : A) (l : list A) :
  NoDup l → (∀ a, a ∈ l ↔ a = x) → l = [x].
Proof.
  intros Hnd Hl. destruct l as [|y l].
  - exfalso. by apply (elem_of_nil x), Hl.
  - assert (y = x) as -> by (apply Hl; left).
    destruct l as [|z l]; [done|]. exfalso.
    assert (z = x) as -> by (apply Hl; right; left).
    apply NoDup_cons in Hnd as [Hx _]. apply Hx. left.
Qed.

Lemma timelineGroups_entry cs g :
  g ∈ Timeline.timelineGroups cs →
  Timeline.group_ok cs (Timeline.date g, g) ∧ Timeline.commits g ≠ [].
Proof.
  unfold Timeline.timelineGroups. rewrite Array_sort_perm.
  intros ([k g'] & -> & Hkg)%list_elem_of_fmap.
  destruct (foldl_addCommit_grouped [] cs [] grouped_nil)
    as (_ & Hok & _ & Hfrom).
  change ([] ++ cs) with cs in Hok, Hfrom.
  rewrite Forall_forall in Hok. pose proof (Hok _ Hkg) as Hk.
  pose proof Hk as (Hd & Hc & _). cbn [fst snd] in *. rewrite Hd.
  split; [done|]. rewrite Hc.
  destruct (Hfrom k) as (c & Hin & E).
  { by apply (list_elem_of_fmap_2 fst _ (k, g')). }
  intros Hnil. assert (Hi : c ∈ List.filter (Timeline.onDay k) cs).
  { apply filter_elem. split; [done|]. by apply bool_decide_eq_true_2. }
  rewrite Hnil in Hi. by apply elem_of_nil in Hi.
Qed.

(** X14. With an author chosen from the options of the filter, and not
    named [all] (the value that switches the author filter off), every day
    group of the timeline holds commits of that author only and lists
    exactly that one author. *)
Theorem X14_one_author_per_group (since : Z → CommitData → bool)
    (filterAuthor : string) (dateRange : DateRange)
    (commits : list CommitData) (g : Timeline.TimelineGroup) :
  filterAuthor ∈ uniqueAuthors commits → filterAuthor ≠ "all" →
  g ∈ Timeline.timelineGroups
        (filteredCommits since filterAuthor dateRange commits) →
  Forall (λ c, author_name c = Some filterAuthor) (Timeline.commits g)
  ∧ Timeline.uniqueAuthors g = [filterAuthor].
Proof.
  intros Hopt Hall Hg.
  set (shown := filteredCommits since filterAuthor dateRange commits) in *.
  assert (Hne : filterAuthor ≠ "").
  { unfold uniqueAuthors in Hopt.
    rewrite Array_sort_elem, firstSeen_elem, truthyNames_elem in Hopt.
    by destruct Hopt. }
  destruct (timelineGroups_entry _ _ Hg) as [(_ & Hc & Hnd & Hau) Hnil].
  cbn [fst snd] in *.
  assert (Hby : Forall (λ c, author_name c = Some filterAuthor)
                  (Timeline.commits g)).
  { apply Forall_forall. intros c Hin. rewrite Hc in Hin.
    apply filter_elem in Hin as [Hin _].
    apply (filtered_elem since filterAuthor dateRange commits) in Hin
      as (_ & Hin & _). by apply Hin. }
  split; [done|]. apply NoDup_only; [done|]. intros a. rewrite Hau.
  rewrite Forall_forall in Hby. split.
  - intros (_ & c & Hin & E). specialize (Hby _ Hin). congruence.
  - intros ->. split; [done|].
    destruct (Timeline.commits g) as [|c l] eqn:El; [done|].
    exists c. split; [left|]. apply Hby. left.
Qed.


Lemma X14_witness :
  Forall (λ g, Timeline.uniqueAuthors g = ["ann"])
    (Timeline.timelineGroups
       (filteredCommits (λ _ _, true) "ann" last_7d
          [Examples.march_2024; Examples.bob_on (Calendar.mkDate 2024 2 10);
           Examples.march_2025])).
Proof.
  assert (H1 : "ann" ∈ uniqueAuthors
                 [Examples.march_2024;
                  Examples.bob_on (Calendar.mkDate 2024 2 10);
                  Examples.march_2025])
    by (vm_compute; apply list_elem_of_here).
  assert (H2 : "ann" ≠ "all") by discriminate.
  apply Forall_forall. intros g Hg.
  exact (proj2 (X14_one_author_per_group _ _ _ _ g H1 H2 Hg)).
Defined.

Lemma toggle_elem (expanded : gset string) (key k : string) :
  k ∈ toggleMonthExpansion expanded key
  ↔ (k = key ∧ k ∉ expanded) ∨ (k ≠ key ∧ k ∈ expanded).
Proof.
  unfold toggleMonthExpansion. destruct (decide (key ∈ expanded)) as [H|H].
  - rewrite elem_of_difference, elem_of_singleton.
    destruct (decide (k = key)) as [->|]; tauto.
  - rewrite elem_of_union, elem_of_singleton.
    destruct (decide (k = key)) as [->|]; tauto.
Qed.

(** X15. Clicking a month card (or a day group) flips the expansion of that
    card and of no other; a second click restores the set of expanded
    cards. *)
Theorem X15_toggle_expansion (expanded : gset string) (key : string) :
  (key ∈ toggleMonthExpansion expanded key ↔ key ∉ expanded)
  ∧ (∀ k, k ≠ key → (k ∈ toggleMonthExpansion expanded key ↔ k ∈ expanded))
  ∧ toggleMonthExpansion (toggleMonthExpansion expanded key) key = expanded.
Proof.
  split; [|split].
  - rewrite toggle_elem. tauto.
  - intros k Hk. rewrite toggle_elem. tauto.
  - apply set_eq. intros k. rewrite !toggle_elem.
    destruct (decide (k = key)) as [->|]; [|tauto].
    destruct (decide (key ∈ expanded)); tauto.
Qed.


Lemma filteredCommits_sublist (since : Z → CommitData → bool)
    (filterAuthor : string) (dateRange : DateRange)
    (commits : list CommitData) :
  filteredCommits since filterAuthor dateRange commits `sublist_of` commits.
Proof.
  unfold filteredCommits.
  destruct (days dateRange), (negb (String.eqb filterAuthor "all"));
    repeat (etrans; [apply filter_sublist|]); done.
Qed.

Lemma timelineGroups_sizes cs :
  Timeline.groupSizes (Timeline.timelineGroups cs) = length cs.
Proof.
  unfold Timeline.timelineGroups, Timeline.groupSizes.
  rewrite Array_sort_perm.
  destruct (foldl_addCommit_grouped [] cs [] grouped_nil)
    as (Hnd & Hok & Hin & _).
  change ([] ++ cs) with cs in Hok, Hin.
  fold (Timeline.groupSizes (foldl Timeline.addCommit [] cs).*2).
  rewrite (sizes_partition cs) by done.
  rewrite filter_all; [done|]. intros c Hc.
  by apply bool_decide_eq_true_2, Hin.
Qed.

Lemma groupSizes_length (gs : list Timeline.TimelineGroup) :
  Forall (λ g, Timeline.commits g ≠ []) gs →
  (length gs ≤ Timeline.groupSizes gs)%nat.
Proof.
  unfold Timeline.groupSizes.
  induction 1 as [|g gs Hg _ IH]; simpl; [done|].
  destruct (Timeline.commits g); [done|]. simpl. lia.
Qed.

(** X24. The counts above the timeline: there are at most as many day
    groups as commits shown, and at most as many commits shown as commits;
    the empty-timeline message appears exactly when no commit passes the
    filters. *)
Theorem X24_timeline_stats (since : Z → CommitData → bool)
    (filterAuthor : string) (dateRange : DateRange)
    (commits : list CommitData) :
  let shown := filteredCommits since filterAuthor dateRange commits in
  let groups := Timeline.timelineGroups shown in
  (length groups ≤ length shown ≤ length commits)%nat
  ∧ (groups = [] ↔ shown = []).
Proof.
  intros shown groups.
  pose proof (timelineGroups_sizes shown) as Hsizes. fold groups in Hsizes.
  assert (Hlen : (length groups ≤ length shown)%nat).
  { rewrite <- Hsizes. apply groupSizes_length, Forall_forall.
    intros g Hg. by apply (timelineGroups_entry shown). }
  split; [split; [done|]|].
  - apply sublist_length, filteredCommits_sublist.
  - split.
    + intros E. rewrite E in Hsizes. simpl in Hsizes.
      by destruct shown.
    + intros E. unfold groups. by rewrite E.
Qed.

End FilterFacts.


(** ** The chat panel *)

Section ChatViewFacts.
Import Chat ChatView.

Lemma handleSendMessage_error r :
  (handleSendMessage r).2 = None ↔ ok r = true.
Proof. unfold handleSendMessage. by destruct (ok r). Qed.

Lemma handleSendMessage_reply r :
  (handleSendMessage r).1 = apology_error
  ∨ (handleSendMessage r).1 = apology_empty
  ∨ (ok r = true ∧ response r = Some (handleSendMessage r).1
     ∧ (handleSendMessage r).1 ≠ "").
Proof.
  unfold handleSendMessage. destruct (ok r); [|by left]. right.
  destruct (response r) as [t|]; simpl; [|by left].
  destruct (String.eqb_spec t ""); simpl; [by left|by right].
Qed.

(** X16. A send that passes the guard appends exactly two messages to the
    conversation: the question as typed, from the user, and one message
    from the assistant, which is the text of a successful non-empty reply
    or one of the two apologies; the two messages have different keys; the
    input is cleared, the panel is no longer loading, and the error banner
    is clear exactly when the endpoint replied with success. *)
Theorem X16_chat_exchange (sent settled : Z) (server : Server)
    (st : ChatState) :
  blank (inputValue st) = false → isLoading st = false → sent ≤ settled →
  let o := server (requestBody st) in
  let st' := sendMessage sent settled server st in
  ∃ q a,
    messages st' = messages st ++ [q; a]
    ∧ role q = user ∧ content q = inputValue st
    ∧ role a = assistant ∧ id q ≠ id a
    ∧ (content a = apology_error ∨ content a = apology_empty
       ∨ ∃ r, o = Replied r ∧ ok r = true
              ∧ response r = Some (content a) ∧ content a ≠ "")
    ∧ inputValue st' = "" ∧ isLoading st' = false
    ∧ (error st' = None ↔ ∃ r, o = Replied r ∧ ok r = true).
Proof.
  intros Hb Hl Ht o st'. unfold st', sendMessage. rewrite Hb, Hl. simpl.
  fold o. eexists _, _. rewrite <- app_assoc. split; [reflexivity|].
  cbn [role content id]. do 3 (split; [done|]).
  split; [intros E; apply (inj pretty) in E; lia|].
  split; [|split; [done|split; [done|]]].
  - destruct o as [r|m]; [|by left].
    destruct (handleSendMessage_reply r) as [H|[H|(H1 & H2 & H3)]];
      [by left|by right; left|].
    right; right. by exists r.
  - destruct o as [r|m].
    + pose proof (handleSendMessage_error r) as He.
      destruct (handleSendMessage r).2 eqn:E2.
      * split; [done|]. intros (r' & [= <-] & Hok).
        apply He in Hok. done.
      * split; [|done]. intros _. exists r. split; [done|]. by apply He.
    + simpl. split; [done|]. by intros (r & ? & _).
Qed.

Lemma X16_witness :
  inputValue
    (sendMessage 10 20 (λ _, Threw None)
       (mkState [welcome "demo"] "Who wrote the parser?" false None))
  = "".
Proof.
  destruct (X16_chat_exchange 10 20 (λ _, Threw None)
              (mkState [welcome "demo"] "Who wrote the parser?" false None)
              eq_refl eq_refl ltac:(lia))
    as (q & a & _ & _ & _ & _ & _ & _ & H & _).
  exact H.
Defined.

(** X17. The request of a send carries the question and, as history, the
    last five messages shown before the question (all of them when there
    are fewer), in their order; the question itself is not part of the
    history: a send depends on the endpoint through its reply to this
    request only. *)
Theorem X17_chat_request (sent settled : Z) (server1 server2 : Server)
    (st : ChatState) :
  let history := conversation_history (messages st) in
  length history = Nat.min 5 (length (messages st))
  ∧ history `suffix_of` ((λ msg, (role msg, content msg)) <$> messages st)
  ∧ (server1 (inputValue st, history) = server2 (inputValue st, history) →
     sendMessage sent settled server1 st
     = sendMessage sent settled server2 st).
Proof.
  intros history. unfold history, conversation_history,
    ScorecardView.slice_last. split; [|split].
  - rewrite length_fmap, length_drop. lia.
  - rewrite fmap_drop. apply suffix_drop.
  - intros E. unfold sendMessage, requestBody, conversation_history,
      ScorecardView.slice_last. by rewrite E.
Qed.

Lemma exchanges_snoc n :
  exchanges n ++ [user; assistant] = exchanges (S n).
Proof.
  unfold exchanges. rewrite <- app_comm_cons. f_equal.
  induction n as [|n IH]; [done|]. simpl. by rewrite IH.
Qed.

Lemma act_exchanges st a n :
  isLoading st = false → role <$> messages st = exchanges n →
  isLoading (act st a) = false
  ∧ ∃ n', role <$> messages (act st a) = exchanges n'
          ∧ (n' ≤ n + (if isSend a then 1 else 0))%nat.
Proof.
  intros Hl Hr. destruct a as [text|sent settled server]; simpl.
  - split; [done|]. exists n. split; [done|lia].
  - unfold sendMessage. destruct (blank (inputValue st) || isLoading st).
    + split; [done|]. exists n. split; [done|lia].
    + split; [done|]. exists (S n). split; [|lia]. simpl.
      rewrite <- app_assoc, fmap_app, Hr. apply exchanges_snoc.
Qed.

(** X18. Whatever the user types and sends, once every request is settled
    the panel is not loading and the conversation alternates: it starts
    with the welcome of the assistant, each send that passed the guard
    added a question and an answer, so the last message is always from the
    assistant and there are at most as many exchanges as sends. *)
Theorem X18_conversation_alternates (codebaseId : string)
    (actions : list Action) :
  let st := foldl act (initial codebaseId) actions in
  isLoading st = false
  ∧ ∃ n, role <$> messages st = exchanges n
         ∧ (n ≤ length (List.filter isSend actions))%nat.
Proof.
  intros st. unfold st.
  induction actions as [|a actions IH] using rev_ind.
  - split; [done|]. by exists 0%nat.
  - rewrite foldl_app. cbn [foldl]. destruct IH as (Hl & n & Hr & Hn).
    destruct (act_exchanges _ a n Hl Hr) as (Hl' & n' & Hr' & Hn').
    split; [done|]. exists n'. split; [done|].
    rewrite List.filter_app, length_app. cbn [List.filter].
    destruct (isSend a); simpl in *; lia.
Qed.

End ChatViewFacts.


(** ** The graph panel *)

Section GraphViewFacts.
Import JS GraphView.

Lemma joins_spec ns rel :
  joins ns rel = true ↔ source rel ∈ id <$> ns ∧ target rel ∈ id <$> ns.
Proof.
  unfold joins. by rewrite andb_true_iff, !bool_decide_eq_true.
Qed.

Lemma joins_mono ns ns' rel :
  ns' ⊆ ns → joins ns' rel = true → joins ns rel = true.
Proof.
  intros Hs. rewrite !joins_spec. intros [H1 H2].
  split.
  - apply list_elem_of_fmap in H1 as (n & -> & Hn).
    by apply list_elem_of_fmap_2, Hs.
  - apply list_elem_of_fmap in H2 as (n & -> & Hn).
    by apply list_elem_of_fmap_2, Hs.
Qed.

Lemma eqb_empty (searchTerm : string) :
  negb (String.eqb searchTerm "") = bool_decide (searchTerm ≠ "").
Proof.
  destruct (String.eqb_spec searchTerm "") as [->|Hne]; simpl.
  - done.
  - by rewrite bool_decide_eq_true_2.
Qed.

Lemma filter_subseteq {A} (f : A → bool) (l : list A) : List.filter f l ⊆ l.
Proof. intros x. rewrite filter_elem. tauto. Qed.

(** X19. The graph filters only remove: the nodes shown are a sublist of
    the nodes, those of the chosen type that match the search; once a
    filter is active the relationships shown are exactly those whose two
    ends are shown, so no relationship dangles; with no filter the nodes
    and the relationships are passed on as they are. *)
Theorem X19_graph_filter (filterType : FilterType) (searchTerm : string)
    (nodes : list Node) (relationships : list Relationship) :
  let shown := filtered filterType searchTerm nodes relationships in
  shown.1 `sublist_of` nodes ∧ shown.2 `sublist_of` relationships
  ∧ (∀ n, n ∈ shown.1
          ↔ n ∈ nodes
            ∧ (filterType ≠ all → type n = filter_name filterType)
            ∧ (searchTerm ≠ "" → searchMatch searchTerm n = true))
  ∧ (filterType ≠ all ∨ searchTerm ≠ "" →
     ∀ r, r ∈ shown.2
          ↔ r ∈ relationships
            ∧ source r ∈ id <$> shown.1 ∧ target r ∈ id <$> shown.1)
  ∧ (filterType = all → searchTerm = "" →
     shown = (nodes, relationships)).
Proof.
  intros shown. unfold shown, filtered. rewrite eqb_empty.
  set (byType := match filterType with
                 | all => (nodes, relationships)
                 | _ => _
                 end).
  assert (Hty : byType.1 `sublist_of` nodes
    ∧ byType.2 `sublist_of` relationships
    ∧ (∀ n, n ∈ byType.1
            ↔ n ∈ nodes ∧ (filterType ≠ all → type n = filter_name filterType))
    ∧ (filterType ≠ all →
       ∀ r, r ∈ byType.2 ↔ r ∈ relationships ∧ joins byType.1 r = true)
    ∧ (filterType = all → byType = (nodes, relationships))).
  { unfold byType. destruct filterType; cbn [fst snd].
    - split; [done|]. split; [done|]. split; [|split; [done|done]].
      intros n. split; [by intros ?|by intros [? _]].
    - split; [apply filter_sublist|]. split; [apply filter_sublist|].
      split; [|split; [|done]].
      + intros n. rewrite filter_elem, bool_decide_eq_true. split.
        * intros [H1 H2]. by split.
        * intros [H1 H2]. split; [done|]. by apply H2.
      + intros _ r. by rewrite filter_elem.
    - split; [apply filter_sublist|]. split; [apply filter_sublist|].
      split; [|split; [|done]].
      + intros n. rewrite filter_elem, bool_decide_eq_true. split.
        * intros [H1 H2]. by split.
        * intros [H1 H2]. split; [done|]. by apply H2.
      + intros _ r. by rewrite filter_elem. }
  destruct Hty as (Hn & Hr & Hnodes & Hrels & Hall).
  case_bool_decide as Hs; cbn [fst snd].
  - split; [by etrans; [apply filter_sublist|]|].
    split; [by etrans; [apply filter_sublist|]|].
    split; [|split].
    + intros n. rewrite filter_elem, Hnodes. split.
      * intros [[H1 H2] H3]. by repeat split.
      * intros (H1 & H2 & H3). split; [by split|]. by apply H3.
    + intros _ r. rewrite filter_elem, joins_spec.
      assert (filterType = all ∨ filterType ≠ all) as [E|E]
        by (destruct filterType; auto).
      * rewrite (Hall E). cbn [fst snd]. tauto.
      * rewrite (Hrels E). split; [tauto|]. intros (H1 & H2 & H3).
        split; [|done]. split; [done|].
        apply (joins_mono _ (List.filter (searchMatch searchTerm) byType.1));
          [apply filter_subseteq|]. by apply joins_spec.
    + intros _ E. done.
  - assert (searchTerm = "") as -> by (by destruct (decide (searchTerm = ""))).
    split; [done|]. split; [done|]. split; [|split].
    + intros n. rewrite Hnodes. split; [|tauto].
      intros [H1 H2]. by repeat split.
    + intros [E|E]; [|done]. intros r. rewrite (Hrels E), joins_spec. tauto.
    + intros E _. by apply Hall.
Qed.

Lemma pretty_digit_hyphenFree (y : N) (s : string) :
  (y < 10)%N →
  hyphenFree (String (pretty_N_char y) s) = hyphenFree s.
Proof.
  intros H.
  assert (y = 0 ∨ y = 1 ∨ y = 2 ∨ y = 3 ∨ y = 4 ∨ y = 5 ∨ y = 6 ∨ y = 7
          ∨ y = 8 ∨ y = 9)%N as Hy by lia.
  destruct_or!; by subst.
Qed.

Lemma pretty_N_go_hyphenFree (x : N) (s : string) :
  hyphenFree s = true → hyphenFree (pretty_N_go x s) = true.
Proof.
  revert s. induction (N.lt_wf_0 x) as [x _ IH]. intros s Hs.
  destruct (decide (x = 0%N)) as [->|Hx]; [by rewrite pretty_N_go_0|].
  rewrite pretty_N_go_step by lia. apply IH.
  - apply N.div_lt; lia.
  - rewrite pretty_digit_hyphenFree; [done|]. by apply N.mod_lt.
Qed.

Lemma pretty_nat_hyphenFree (index : nat) :
  hyphenFree (pretty index) = true.
Proof.
  unfold pretty, pretty_nat, pretty, pretty_N.
  destruct (decide (N.of_nat index = 0%N)); [done|].
  by apply pretty_N_go_hyphenFree.
Qed.

Lemma hyphenFree_app (a x : string) :
  hyphenFree (a +:+ "-" +:+ x) = false.
Proof.
  induction a as [|c a IH]; [done|].
  rewrite string_app_cons. cbn [hyphenFree]. rewrite IH. apply andb_false_r.
Qed.

(** The text after the last hyphen of a string is determined. *)
Lemma hyphen_last (a b x y : string) :
  hyphenFree x = true → hyphenFree y = true →
  a +:+ "-" +:+ x = b +:+ "-" +:+ y → a = b ∧ x = y.
Proof.
  intros Hx Hy. revert b.
  induction a as [|c a IH]; intros [|c' b].
  - intros [= H]. split; [done|exact H].
  - intros [= _ H]. change (x = b +:+ "-" +:+ y) in H.
    by rewrite H, hyphenFree_app in Hx.
  - intros [= _ H]. change (a +:+ "-" +:+ x = y) in H.
    by rewrite <- H, hyphenFree_app in Hy.
  - intros [= -> H]. apply IH in H as [-> ->]. done.
Qed.

Lemma nvlRelationship_index i j r r' :
  rel_id (nvlRelationship i r) = rel_id (nvlRelationship j r') → i = j.
Proof.
  unfold nvlRelationship. cbn [rel_id].
  assert (E : ∀ s t x : string,
    s +:+ "-" +:+ t +:+ "-" +:+ x = (s +:+ "-" +:+ t) +:+ "-" +:+ x)
    by (intros; by rewrite !string_app_assoc).
  rewrite !E. intros [_ H]%hyphen_last; [|apply pretty_nat_hyphenFree..].
  by apply (inj pretty) in H.
Qed.

Lemma imap_elem {A B} (f : nat → A → B) (l : list A) y :
  y ∈ imap f l ↔ ∃ i x, l !! i = Some x ∧ y = f i x.
Proof.
  rewrite list_elem_of_lookup. split.
  - intros (i & Hi). rewrite list_lookup_imap in Hi.
    destruct (l !! i) as [x|] eqn:E; [|done].
    injection Hi as <-. by exists i, x.
  - intros (i & x & Hi & ->). exists i. by rewrite list_lookup_imap, Hi.
Qed.

Lemma filtered_joined (filterType : FilterType) (searchTerm : string)
    (nodes : list Node) (relationships : list Relationship) r :
  filterType ≠ all ∨ searchTerm ≠ "" →
  r ∈ (filtered filterType searchTerm nodes relationships).2 →
  joins (filtered filterType searchTerm nodes relationships).1 r = true.
Proof.
  unfold filtered. rewrite eqb_empty. intros Hf.
  case_bool_decide as Hs; cbn [fst snd].
  - by intros [_ H]%filter_elem.
  - destruct filterType; cbn [fst snd].
    + destruct Hf as [Hf|Hf]; [done|]. by destruct (decide (searchTerm = "")).
    + by intros [_ H]%filter_elem.
    + by intros [_ H]%filter_elem.
Qed.

(** X20. The relationships handed to the graph library have pairwise
    different ids, also when two of them join the same nodes; they keep
    the ends and the order of the filtered relationships, and once a
    filter is active both ends of each are among the nodes handed over. *)
Theorem X20_graph_relationships (filterType : FilterType)
    (searchTerm : string) (nodes : list Node)
    (relationships : list Relationship) :
  let shown := filtered filterType searchTerm nodes relationships in
  let out := nvlData filterType searchTerm nodes relationships in
  NoDup (rel_id <$> out.2)
  ∧ (λ r, (from r, to r)) <$> out.2 = (λ r, (source r, target r)) <$> shown.2
  ∧ nvl_id <$> out.1 = id <$> shown.1
  ∧ (filterType ≠ all ∨ searchTerm ≠ "" →
     ∀ r, r ∈ out.2 → from r ∈ nvl_id <$> out.1 ∧ to r ∈ nvl_id <$> out.1).
Proof.
  intros shown out. unfold out, nvlData. fold shown. cbn [fst snd].
  assert (Hids : nvl_id <$> (nvlNode <$> shown.1) = id <$> shown.1).
  { rewrite <- list_fmap_compose. by apply list_fmap_ext. }
  split; [|split; [|split; [done|]]].
  - apply NoDup_alt. intros i j x Hi Hj.
    rewrite list_lookup_fmap, list_lookup_imap in Hi, Hj.
    destruct (shown.2 !! i) as [r|]; [|done].
    destruct (shown.2 !! j) as [r'|]; [|done].
    simpl in Hi, Hj. injection Hi as Hi. injection Hj as Hj.
    apply (nvlRelationship_index i j r r'). unfold nvlRelationship.
    cbn [rel_id]. by rewrite Hi, Hj.
  - apply list_eq. intros i.
    rewrite !list_lookup_fmap, list_lookup_imap.
    by destruct (shown.2 !! i).
  - intros Hf r (i & x & Hi & ->)%imap_elem. cbn [from to]. rewrite Hids.
    assert (Hx : x ∈ shown.2) by by eapply list_elem_of_lookup_2.
    by apply joins_spec, filtered_joined.
Qed.

End GraphViewFacts.


(** ** The overview panel *)

Section OverviewFacts.
Import JS Scorecard Overview.

Lemma score_cmp_key (a b : Developer) :
  (contribution_score b - contribution_score a
   == contribution_score b - contribution_score a)%Q.
Proof. reflexivity. Qed.

Lemma ties_app {A} (key : A → Q) q (l k : list A) :
  ties key q (l ++ k) = ties key q l ++ ties key q k.
Proof. unfold ties. apply List.filter_app. Qed.

Lemma StronglySorted_app_inv {A} (R : relation A) (l k : list A) :
  StronglySorted R (l ++ k) →
  (∀ x y, x ∈ l → y ∈ k → R x y) ∧ StronglySorted R l.
Proof.
  induction l as [|a l IH]; simpl; intros H.
  - split; [by intros x y ?%elem_of_nil|constructor].
  - apply StronglySorted_inv in H as [Hs Ha].
    destruct (IH Hs) as [Hc Hl]. apply Forall_app in Ha as [Hal Hak].
    split; [|by constructor].
    intros x y [->|Hx]%elem_of_cons Hy; [|by apply Hc].
    rewrite Forall_forall in Hak. by apply Hak.
Qed.

(** X21. The top developers of the overview: the five developers with the
    highest contribution scores (all of them when there are fewer), highest
    first; every developer left out scores no more than each one listed;
    and developers of equal score keep the order of the input, the earlier
    ones being listed first. *)
Theorem X21_top_developers (developers : list Developer) :
  let top := topDevelopers developers in
  length top = Nat.min 5 (length developers)
  ∧ StronglySorted
      (λ a b, (contribution_score b <= contribution_score a)%Q) top
  ∧ ∃ rest,
      top ++ rest ≡ₚ developers
      ∧ (∀ t r, t ∈ top → r ∈ rest →
           (contribution_score r <= contribution_score t)%Q)
      ∧ ∀ q, ties contribution_score q top ++ ties contribution_score q rest
             = ties contribution_score q developers.
Proof.
  intros top. unfold top, topDevelopers, ScorecardView.slice_first.
  rewrite (Array_sort_ext _
             (λ a b : Developer,
                (contribution_score b - contribution_score a)%Q))
    by (intros a b; apply fsub_sign).
  set (cmp := λ a b : Developer,
                (contribution_score b - contribution_score a)%Q).
  set (sorted := Array_sort cmp developers).
  pose proof (Array_sort_perm cmp developers) as Hperm.
  pose proof (Array_sort_desc cmp contribution_score score_cmp_key developers)
    as Hsorted.
  fold sorted in Hperm, Hsorted.
  rewrite <- (take_drop 5 sorted) in Hsorted.
  apply StronglySorted_app_inv in Hsorted as (Hcross & Htop).
  split; [|split; [done|]].
  - rewrite length_take. by rewrite Hperm.
  - exists (drop 5 sorted). rewrite take_drop. split; [done|].
    split; [intros t r Ht Hr; by apply Hcross|].
    intros q. rewrite <- ties_app, take_drop. unfold sorted.
    apply (Array_sort_ties cmp contribution_score score_cmp_key).
Qed.

Lemma Math_round_div (a : Z) (b : positive) :
  let r := Math_round (inject_Z a / inject_Z (Z.pos b)) in
  2 * Z.pos b * r ≤ 2 * a + Z.pos b < 2 * Z.pos b * (r + 1).
Proof.
  intros r. unfold r, Math_round. rewrite <- Qmake_Qdiv.
  unfold Qfloor, Qplus. simpl.
  Z.div_mod_to_equations. nia.
Qed.

(** X22. The average number of commits per developer is 0 when there is
    no developer, without a division; otherwise it is the integer nearest
    to the number of commit nodes divided by the number of developers, a
    half rounded up, and lies between 0 and the number of commit nodes. *)
Theorem X22_average_commits (nodes : list GraphView.Node)
    (developers : list Developer) :
  let avg := avgCommitsPerDev nodes developers in
  let total := Z.of_nat (length (commits nodes)) in
  let n := Z.of_nat (length developers) in
  (developers = [] → avg = 0)
  ∧ (developers ≠ [] →
     2 * n * avg ≤ 2 * total + n < 2 * n * (avg + 1))
  ∧ 0 ≤ avg ≤ total.
Proof.
  intros avg total n. unfold avg, avgCommitsPerDev. fold total. fold n.
  destruct developers as [|d l].
  - split; [done|]. split; [done|]. simpl. lia.
  - assert (Hn : ∃ p, n = Z.pos p).
    { unfold n. simpl length. exists (Pos.of_succ_nat (length l)). lia. }
    destruct Hn as [p Hp]. rewrite Hp. simpl (0 <? Z.pos p).
    pose proof (Math_round_div total p) as Hr. cbv zeta in Hr.
    split; [done|]. split; [done|].
    assert (0 ≤ total) by (unfold total; lia).
    change (0 <? Z.pos p) with true. cbv iota.
    set (r := Math_round _) in *. split; [nia|].
    destruct (Z.le_gt_cases r total) as [Hle|Hgt]; [done|]. nia.
Qed.

End OverviewFacts.

(** ** The dashboard page *)

Section PageFacts.
Import JS Page.

Lemma onStatus_jobId st status : jobId (onStatus st status) = jobId st.
Proof. unfold onStatus. by case_bool_decide. Qed.

Lemma foldl_onStatus_jobId st statuses :
  jobId (foldl onStatus st statuses) = jobId st.
Proof.
  revert st. induction statuses as [|s l IH]; intros st; [done|].
  simpl. by rewrite IH, onStatus_jobId.
Qed.

Lemma foldl_onStatus_complete st statuses :
  analysisComplete (foldl onStatus st statuses)
  = analysisComplete st || bool_decide (Some "completed" ∈ statuses).
Proof.
  revert st. induction statuses as [|s l IH]; intros st.
  - rewrite bool_decide_eq_false_2 by apply not_elem_of_nil.
    cbn [foldl]. by rewrite orb_false_r.
  - cbn [foldl]. rewrite IH. unfold onStatus.
    destruct (decide (s = Some "completed")) as [->|E].
    + rewrite (bool_decide_eq_true_2 (Some "completed" = _)) by done.
      cbn [analysisComplete]. symmetry.
      rewrite bool_decide_eq_true_2 by left. apply orb_true_r.
    + rewrite (bool_decide_eq_false_2 (s = _)) by done.
      f_equal. apply bool_decide_ext. rewrite elem_of_cons.
      split; [tauto|]. intros [H|H]; [congruence|done].
Qed.

(** X23. Whatever status replies arrive, the page either polls the status
    or fetches the summary, never both and never neither; it shows the
    progress screen exactly while it polls; and for an address with a job
    id it polls until a reply says completed, and only such a reply stops
    it: a failed analysis is polled on. *)
Theorem X23_polling (job : option string) (statuses : list (option string)) :
  let st := foldl onStatus (load job) statuses in
  statusEnabled st = negb (summaryEnabled st)
  ∧ showsProgress st = statusEnabled st
  ∧ (statusEnabled st = true
     ↔ truthy job = true ∧ Some "completed" ∉ statuses).
Proof.
  intros st. unfold statusEnabled, summaryEnabled, showsProgress, st.
  rewrite foldl_onStatus_jobId, foldl_onStatus_complete. simpl.
  split; [|split; [done|]].
  - by destruct (truthy job), (bool_decide _).
  - rewrite andb_true_iff, negb_true_iff, bool_decide_eq_false. done.
Qed.

End PageFacts.
